(** * celc: the CEL reference compiler (Celc.py), embedded and verified

    The four stages of the pipeline are embedded as executable functions:
    the scanner [lex], the recursive-descent [Parser], the validator
    [semantic] and the NASM emitter [emit], followed by the part of [main]
    that chains them.

    Modelling conventions.
    - A Python [str] is a [string]; a character is a code point below 256,
      the range in which the pattern [\d] coincides with [0-9].
    - A Python [int] is a [Z]; list lengths and the label counter, which
      never go below zero, are [nat].
    - An exception is a value of [exn]; a computation that may raise
      returns an [outcome].  [Diverge] stands for a [while] loop of the
      model that ran out of fuel; the totality lemmas show that the fuel
      given by the entry points is always enough.
    - The file object [w] of the emitter is the list of the chunks passed
      to [w.write], in order.
    - The interpreter refuses to convert between an [int] and a decimal
      text of more than [max_str_digits] digits.  The limit is part of
      [int], which the parser calls on every NUMBER lexeme; a number that
      went through [int] is within the limit, and the emitter formats it
      with [str_int].  Lines, columns, lengths and the label counter,
      which are bounded by the size of the input, are formatted the same
      way. *)

From Stdlib Require Import ZArith Ascii.
From stdpp Require Import base tactics option list strings pretty gmap sets sorting.

Set Warnings "-clear-no-such-hyp".

Local Open Scope Z_scope.

(** ** Exceptions and outcomes *)

Inductive exn : Type :=
  | SyntaxError (msg : string)
  | ParseError (msg : string)
  | SemanticError (msg : string)
  | NotImplementedError (msg : string)
  | IndexError
  | ValueError.

Inductive outcome (A : Type) : Type :=
  | Return (a : A)
  | Raise (e : exn)
  | Diverge.
Arguments Return {A} a.
Arguments Raise {A} e.
Arguments Diverge {A}.

Global Instance outcome_ret : MRet outcome := λ A a, Return a.
Global Instance outcome_bind : MBind outcome := λ A B k m,
  match m with
  | Return a => k a
  | Raise e => Raise e
  | Diverge => Diverge
  end.

(** ** Python string helpers *)

(** The decimal text of an [int].  It is what [f"{n}"] returns for every
    [int] the interpreter agrees to convert, see [format_int]. *)
Definition str_int (n : Z) : string := pretty n.
(** [sys.int_info.default_max_str_digits]: the interpreter refuses the
    conversion between an [int] and a decimal text of more digits. *)
Definition max_str_digits : Z := 4300.
(** [f"{n}"] for an [int], with that limit. *)
Definition format_int (n : Z) : outcome string :=
  if bool_decide (Z.abs n < 10 ^ max_str_digits)
  then Return (str_int n) else Raise ValueError.
(** [f"{n}"] for a length or a counter. *)
Definition str_nat (n : nat) : string := pretty n.

(** [sep.join(xs)]. *)
Fixpoint join (sep : string) (xs : list string) : string :=
  match xs with
  | [] => ""
  | [x] => x
  | x :: xs' => x +:+ sep +:+ join sep xs'
  end.

(** The longest prefix of [s] whose characters satisfy [p], and the rest:
    what a greedy [[class]*] consumes. *)
Fixpoint span (p : ascii → bool) (s : string) : string * string :=
  match s with
  | "" => ("", "")
  | String c s' =>
      if p c then let '(v, r) := span p s' in (String c v, r) else ("", s)
  end.

Definition code (c : ascii) : N := N_of_ascii c.
Definition in_range (lo hi : N) (c : ascii) : bool :=
  ((lo <=? code c) && (code c <=? hi))%N.

Definition is_digit (c : ascii) : bool := in_range 48 57 c.
Definition is_upper (c : ascii) : bool := in_range 65 90 c.
Definition is_lower (c : ascii) : bool := in_range 97 122 c.
Definition is_ident_start (c : ascii) : bool :=
  is_upper c || is_lower c || bool_decide (c = "_"%char).
Definition is_ident_char (c : ascii) : bool := is_ident_start c || is_digit c.
Definition is_newline (c : ascii) : bool := bool_decide (c = "010"%char).
Definition is_skip (c : ascii) : bool :=
  bool_decide (c = "009"%char) || bool_decide (c = "013"%char)
  || bool_decide (c = " "%char).

(** [s.count(c)] for a one-character [c]. *)
Fixpoint count_char (c : ascii) (s : string) : Z :=
  match s with
  | "" => 0
  | String c' s' => (if bool_decide (c' = c) then 1 else 0) + count_char c s'
  end.

Definition is_ascii (c : ascii) : bool := (code c <? 128)%N.

(** [s.upper()] and [s.lower()] on a text of ASCII characters, as every
    IDENT lexeme of the scanner is: the letters a-z, respectively A-Z, are
    the only ones to change.  (On other cased characters Python's methods
    differ.) *)
Definition upper_char (c : ascii) : ascii :=
  if is_lower c then ascii_of_N (code c - 32) else c.
Definition lower_char (c : ascii) : ascii :=
  if is_upper c then ascii_of_N (code c + 32) else c.
Fixpoint map_string (f : ascii → ascii) (s : string) : string :=
  match s with
  | "" => ""
  | String c s' => String (f c) (map_string f s')
  end.
Definition upper : string → string := map_string upper_char.
Definition lower : string → string := map_string lower_char.

(** The value of a run of decimal digits. *)
Definition digit_val (c : ascii) : Z := Z.of_N (code c) - 48.
Fixpoint int_digits (acc : Z) (s : string) : Z :=
  match s with
  | "" => acc
  | String c s' => int_digits (10 * acc + digit_val c) s'
  end.
Fixpoint all_chars (p : ascii → bool) (s : string) : bool :=
  match s with
  | "" => true
  | String c s' => p c && all_chars p s'
  end.

(** The white space [int] skips on both sides of a literal: the ASCII
    controls 9 to 13, the space, and the code points 133 and 160. *)
Definition is_space (c : ascii) : bool :=
  in_range 9 13 c || bool_decide (c = " "%char)
  || bool_decide (code c = 133%N) || bool_decide (code c = 160%N).
Fixpoint lstrip (p : ascii → bool) (s : string) : string :=
  match s with
  | "" => ""
  | String c s' => if p c then lstrip p s' else s
  end.
(** The digits of a literal: decimal digits, with single underscores
    allowed between two digits, then white space to the end of the text.
    [after_digit] tells that the character before is a digit. *)
Fixpoint int_literal (after_digit : bool) (s : string) : option string :=
  match s with
  | "" => if after_digit then Some "" else None
  | String c s' =>
      if is_digit c then String c <$> int_literal true s'
      else if after_digit && bool_decide (c = "_"%char)
      then int_literal false s'
      else if after_digit && all_chars is_space s then Some ""
      else None
  end.
(** [int(s)] for a [str], in base 10: white space, an optional sign, the
    digits; a literal of more than [max_str_digits] digits is refused, and
    so is any other text, both with a [ValueError]. *)
Definition int (s : string) : outcome Z :=
  let s := lstrip is_space s in
  let '(sign, s) :=
    match s with
    | String c s' =>
        if bool_decide (c = "-"%char) then (-1, s')
        else if bool_decide (c = "+"%char) then (1, s')
        else (1, s)
    | "" => (1, s)
    end in
  match int_literal false s with
  | Some digits =>
      if bool_decide (Z.of_nat (String.length digits) ≤ max_str_digits)
      then Return (sign * int_digits 0 digits) else Raise ValueError
  | None => Raise ValueError
  end.

(** [f"{s:16}"]: left-aligned in a field of width 16, never truncated. *)
Fixpoint spaces (n : nat) : string :=
  match n with
  | O => ""
  | S n' => String " " (spaces n')
  end.
Definition ljust (width : nat) (s : string) : string :=
  s +:+ spaces (width - String.length s).

(** ** 1. Lexer *)

(** One match object of [TOKEN_REGEX.finditer]. *)
Record Match := mkMatch {
  lastgroup : string;
  group : string;
  m_start : Z;
  m_end : Z
}.

(** The match of [TOKEN_REGEX] at a position where the text is
    [String c rest]: the alternatives of [TOKEN_SPEC] are tried in order and
    the first that matches wins.  Returns the group name, the matched text
    and the text after the match. *)
Definition match_at (c : ascii) (rest : string) : string * string * string :=
  if is_digit c then
    let '(v, r) := span is_digit rest in ("NUMBER", String c v, r)
  else if is_ident_start c then
    let '(v, r) := span is_ident_char rest in ("IDENT", String c v, r)
  else if bool_decide (c = "{"%char) then ("LBRACE", String c "", rest)
  else if bool_decide (c = "}"%char) then ("RBRACE", String c "", rest)
  else if bool_decide (c = "["%char) then ("LBRACKET", String c "", rest)
  else if bool_decide (c = "]"%char) then ("RBRACKET", String c "", rest)
  else if bool_decide (c = ":"%char) then ("COLON", String c "", rest)
  else if bool_decide (c = ";"%char) then ("SEMI", String c "", rest)
  else if bool_decide (c = ","%char) then ("COMMA", String c "", rest)
  else if is_newline c then
    let '(v, r) := span is_newline rest in ("NEWLINE", String c v, r)
  else if is_skip c then
    let '(v, r) := span is_skip rest in ("SKIP", String c v, r)
  else ("MISMATCH", String c "", rest).

(** [TOKEN_REGEX.finditer(src)] from offset [pos], where [s] is the text
    still to scan.  Every character starts some alternative, so the matches
    are contiguous; each consumes at least one character, so [fuel] equal
    to the length of the text is enough (lemma [finditer_covers]). *)
Fixpoint finditer_from (fuel : nat) (pos : Z) (s : string) : list Match :=
  match fuel, s with
  | S fuel', String c rest =>
      let '(g, v, s') := match_at c rest in
      let e := pos + Z.of_nat (String.length v) in
      mkMatch g v pos e :: finditer_from fuel' e s'
  | _, _ => []
  end.
Definition finditer (src : string) : list Match :=
  finditer_from (String.length src) 0 src.

Record Token := mkToken {
  type : string;
  value : string;
  line : Z;
  col : Z
}.

Global Instance Token_eq_dec : EqDecision Token.
Proof. solve_decision. Defined.

Section Lexer.
(** Python's built-in [repr] on a [str], used by the error message. *)
Variable repr : string → string.

(** The body of the [for] loop of [lex]: the tokens yielded, then how the
    generator ended ([None] when it was exhausted normally). *)
Fixpoint lex_loop (ms : list Match) (line line_start : Z)
    : list Token * option exn :=
  match ms with
  | [] => ([], None)
  | mo :: ms' =>
      let typ := lastgroup mo in
      let val := group mo in
      let col := m_start mo - line_start + 1 in
      if bool_decide (typ = "NEWLINE") then
        lex_loop ms' (line + count_char "010" val) (m_end mo)
      else if bool_decide (typ = "SKIP") then
        lex_loop ms' line line_start
      else if bool_decide (typ = "MISMATCH") then
        ([], Some (SyntaxError
           ("Unexpected char " +:+ repr val +:+ " @ "
            +:+ str_int line +:+ ":" +:+ str_int col)))
      else
        let '(toks, e) := lex_loop ms' line line_start in
        (mkToken typ val line col :: toks, e)
  end.

Definition lex (src : string) : list Token * option exn :=
  lex_loop (finditer src) 1 0.

(** [list(lex(src))]: the tokens, unless the generator raised. *)
Definition list_lex (src : string) : outcome (list Token) :=
  match lex src with
  | (toks, None) => Return toks
  | (_, Some e) => Raise e
  end.
End Lexer.

(** ** 2. Parser *)

(** An argument of a statement: [args: list[str|int]]. *)
Inductive arg : Type :=
  | AInt (n : Z)
  | AStr (s : string).

Global Instance arg_eq_dec : EqDecision arg.
Proof. solve_decision. Defined.

Record Statement := mkStatement {
  dest : string;
  op : string;
  args : list arg
}.
Record Block := mkBlock {
  gate : string;
  statements : list Statement
}.
Record Program := mkProgram {
  blocks : list Block
}.

Module Parser.

(** The fields of a [Parser] object. *)
Record state := mkState {
  toks : list Token;
  i : nat
}.

(** A method of [Parser]: reads and updates [self], returns or raises. *)
Definition M (A : Type) : Type := state → outcome (A * state).

Global Instance M_ret : MRet M := λ A a self, Return (a, self).
Global Instance M_bind : MBind M := λ A B k m self,
  match m self with
  | Return (a, self') => k a self'
  | Raise e => Raise e
  | Diverge => Diverge
  end.
Definition raise {A} (e : exn) : M A := λ _, Raise e.
Definition diverge {A} : M A := λ _, Diverge.
Definition lift {A} (m : outcome A) : M A := λ self,
  a ← m; Return (a, self).
Definition get : M state := λ self, Return (self, self).

Definition EOF : Token := mkToken "EOF" "" (-1) (-1).

Definition peek (self : state) (k : nat) : Token :=
  default EOF (toks self !! (i self + k)%nat).

Definition accept (types : list string) : M (option Token) := λ self,
  if bool_decide (type (peek self 0) ∈ types) then
    Return (Some (peek self 0), mkState (toks self) (i self + 1))
  else Return (None, self).

Definition expect (types : list string) : M Token :=
  tok ← accept types;
  match tok with
  | None =>
      self ← get;
      let exp := join "/" types in
      let p := peek self 0 in
      raise (ParseError ("Expected " +:+ exp +:+ " at "
                         +:+ str_int (line p) +:+ ":" +:+ str_int (col p)))
  | Some tok => mret tok
  end.

(** The [while True] loop of [arg_list]. *)
Fixpoint arg_list_loop (fuel : nat) (args : list arg) : M (list arg) :=
  match fuel with
  | O => diverge
  | S fuel' =>
      tok ← expect ["IDENT"; "NUMBER"];
      a ← (if bool_decide (type tok = "NUMBER")
           then n ← lift (int (value tok)); mret (AInt n)
           else mret (AStr (value tok)));
      let args := args ++ [a] in
      comma ← accept ["COMMA"];
      match comma with
      | None => mret args
      | Some _ => arg_list_loop fuel' args
      end
  end.

Definition arg_list : M (list arg) :=
  self ← get; arg_list_loop (S (length (toks self))) [].

Definition statement : M Statement :=
  dest ← expect ["IDENT"];
  _ ← expect ["COLON"];
  opt ← expect ["IDENT"];
  let op := upper (value opt) in
  args ← arg_list;
  mret (mkStatement (value dest) op args).

(** The [while self.peek().type != "RBRACE"] loop of [block]. *)
Fixpoint block_loop (fuel : nat) (stmts : list Statement)
    : M (list Statement) :=
  self ← get;
  if bool_decide (type (peek self 0) ≠ "RBRACE") then
    match fuel with
    | O => diverge
    | S fuel' =>
        st ← statement;
        _ ← expect ["SEMI"];
        block_loop fuel' (stmts ++ [st])
    end
  else mret stmts.

Definition block : M Block :=
  _ ← expect ["LBRACKET"];
  gate ← expect ["IDENT"];
  _ ← expect ["RBRACKET"];
  _ ← expect ["LBRACE"];
  self ← get;
  stmts ← block_loop (S (length (toks self))) [];
  _ ← expect ["RBRACE"];
  mret (mkBlock (value gate) stmts).

(** The [while self.peek().type != "EOF"] loop of [parse]. *)
Fixpoint parse_loop (fuel : nat) (blocks : list Block) : M (list Block) :=
  self ← get;
  if bool_decide (type (peek self 0) ≠ "EOF") then
    match fuel with
    | O => diverge
    | S fuel' =>
        b ← block;
        parse_loop fuel' (blocks ++ [b])
    end
  else mret blocks.

Definition parse : M Program :=
  self ← get;
  blocks ← parse_loop (S (length (toks self))) [];
  mret (mkProgram blocks).

(** [Parser(tokens).parse()]. *)
Definition run (tokens : list Token) : outcome Program :=
  r ← parse (mkState tokens 0); mret (fst r).

End Parser.

(** ** 3. Semantic pass (arity + symbol table) *)

Definition OPS_ARITY : gmap string nat :=
  list_to_map [
    ("SET", 1%nat); ("ADD", 1%nat); ("SUB", 1%nat); ("MUL", 1%nat);
    ("DIV", 1%nat); ("NOT", 1%nat);
    ("DISPLAY", 1%nat);
    ("COMPARE", 2%nat); ("AND", 2%nat); ("OR", 2%nat); ("XOR", 2%nat);
    ("SHIFT_LEFT", 2%nat); ("SHIFT_RIGHT", 2%nat); ("JUMP_IF", 2%nat);
    ("LOOP", 3%nat)
  ].

(** A [for] loop whose body may raise, threading the loop state. *)
Fixpoint for_each {A S} (xs : list A) (body : S → A → outcome S) (s : S)
    : outcome S :=
  match xs with
  | [] => Return s
  | x :: xs' => s' ← body s x; for_each xs' body s'
  end.

(** The local function [add] of [semantic]. *)
Definition add (sym : string) (symbols : gset string) : gset string :=
  symbols ∪ {[ sym ]}.

(** [for a in st.args: if isinstance(a, str): add(a)]. *)
Definition add_arg (symbols : gset string) (a : arg) : gset string :=
  match a with
  | AStr s => add s symbols
  | AInt _ => symbols
  end.

(** The body of the inner loop of [semantic], for statement [st] of [blk]. *)
Definition semantic_stmt (blk : Block) (symbols : gset string)
    (st : Statement) : outcome (gset string) :=
  match OPS_ARITY !! op st with
  | None =>
      Raise (SemanticError
        ("Unknown op " +:+ op st +:+ " in gate [" +:+ gate blk +:+ "]"))
  | Some exp =>
      if bool_decide (length (args st) ≠ exp) then
        Raise (SemanticError
          (op st +:+ " expects " +:+ str_nat exp +:+ " arg(s), got "
           +:+ str_nat (length (args st))))
      else Return (foldl add_arg (add (dest st) symbols) (args st))
  end.

(** [sorted(symbols)]: the elements of the set in increasing order of
    code points. *)
Definition sorted (symbols : gset string) : list string :=
  merge_sort String.le (elements symbols).

Definition semantic_symbols (root : Program) : outcome (gset string) :=
  for_each (blocks root)
    (λ symbols blk, for_each (statements blk) (semantic_stmt blk) symbols) ∅.

Definition semantic (root : Program) : outcome (list string) :=
  symbols ← semantic_symbols root; mret (sorted symbols).

(** ** 4. Emitter (NASM) *)

Definition NL : string := String "010" "".
Definition DQ : string := String "034" "".

(** [f"{arg}"], and [val(arg)] below.  A number is formatted with
    [str_int]: it is the text of [f"{n}"] for every number within the
    conversion limit ([format_int], predicate [printable_arg]), which the
    numbers of a parsed program are. *)
Definition fmt (a : arg) : string :=
  match a with
  | AInt n => str_int n
  | AStr s => s
  end.

Definition val (a : arg) : string :=
  match a with
  | AInt n => str_int n
  | AStr s => "[" +:+ s +:+ "]"
  end.

(** [f"{x}"] for an [x] that is a string or [None]. *)
Definition fmt_opt (x : option string) : string := default "None" x.

(** A computation that writes to the file [w]: the chunks written, in
    order, and how it ended. *)
Definition E (A : Type) : Type := list string * outcome A.

Global Instance E_ret : MRet E := λ A a, ([], Return a).
Global Instance E_bind : MBind E := λ A B k m,
  match m with
  | (ws, Return a) => let '(ws', r) := k a in (ws ++ ws', r)
  | (ws, Raise e) => (ws, Raise e)
  | (ws, Diverge) => (ws, Diverge)
  end.
Definition write (chunk : string) : E () := ([chunk], Return ()).
Definition throw {A} (e : exn) : E A := ([], Raise e).

(** A [for] loop of the emitter, threading the loop state. *)
Fixpoint for_write {A S} (xs : list A) (body : S → A → E S) (s : S) : E S :=
  match xs with
  | [] => mret s
  | x :: xs' => s' ← body s x; for_write xs' body s'
  end.

Definition emit_stmt (st : Statement) (lbl : nat) : E nat :=
  let d := dest st in
  let op := op st in
  let a := args st in
  let dst := "[" +:+ d +:+ "]" in
  let a1 := fmt_opt (val <$> a !! 0%nat) in
  let a2 := fmt_opt (val <$> a !! 1%nat) in
  if bool_decide (op = "SET") then
    _ ← write ("    mov     " +:+ dst +:+ ", " +:+ a1 +:+ NL); mret lbl
  else if bool_decide (op = "ADD") then
    _ ← write ("    add     " +:+ dst +:+ ", " +:+ a1 +:+ NL); mret lbl
  else if bool_decide (op = "SUB") then
    _ ← write ("    sub     " +:+ dst +:+ ", " +:+ a1 +:+ NL); mret lbl
  else if bool_decide (op = "MUL") then
    _ ← write ("    mov     rax, " +:+ dst +:+ NL
               +:+ "    imul    rax, " +:+ a1 +:+ NL
               +:+ "    mov     " +:+ dst +:+ ", rax" +:+ NL);
    mret lbl
  else if bool_decide (op = "DIV") then
    _ ← write ("    xor     rdx, rdx" +:+ NL
               +:+ "    mov     rax, " +:+ dst +:+ NL
               +:+ "    div     " +:+ a1 +:+ NL
               +:+ "    mov     " +:+ dst +:+ ", rax" +:+ NL);
    mret lbl
  else if bool_decide (op ∈ ["AND"; "OR"; "XOR"]) then
    let instr := lower op in
    _ ← write ("    mov     rax, " +:+ a1 +:+ NL
               +:+ "    " +:+ instr +:+ "     rax, " +:+ a2 +:+ NL
               +:+ "    mov     " +:+ dst +:+ ", rax" +:+ NL);
    mret lbl
  else if bool_decide (op = "NOT") then
    _ ← write ("    mov     rax, " +:+ a1 +:+ NL
               +:+ "    not     rax" +:+ NL
               +:+ "    mov     " +:+ dst +:+ ", rax" +:+ NL);
    mret lbl
  else if bool_decide (op = "SHIFT_LEFT") then
    _ ← write ("    mov     rax, " +:+ a1 +:+ NL
               +:+ "    shl     rax, " +:+ a2 +:+ NL
               +:+ "    mov     " +:+ dst +:+ ", rax" +:+ NL);
    mret lbl
  else if bool_decide (op = "SHIFT_RIGHT") then
    _ ← write ("    mov     rax, " +:+ a1 +:+ NL
               +:+ "    shr     rax, " +:+ a2 +:+ NL
               +:+ "    mov     " +:+ dst +:+ ", rax" +:+ NL);
    mret lbl
  else if bool_decide (op = "COMPARE") then
    _ ← write ("    mov     rax, " +:+ a1 +:+ NL
               +:+ "    cmp     rax, " +:+ a2 +:+ NL);
    mret lbl
  else if bool_decide (op = "JUMP_IF") then
    match a !! 1%nat with
    | None => throw IndexError
    | Some target_gate =>
        _ ← write ("    jne     " +:+ fmt target_gate +:+ "    ; JUMP_IF" +:+ NL);
        mret lbl
    end
  else if bool_decide (op = "DISPLAY") then
    _ ← write ("    mov     rcx, fmt_dec" +:+ NL
               +:+ "    mov     rdx, " +:+ a1 +:+ NL
               +:+ "    xor     rax, rax" +:+ NL
               +:+ "    call    printf" +:+ NL);
    mret lbl
  else if bool_decide (op = "LOOP") then
    match a with
    | [ctr; step; acc] =>
        let start := ".Lloop" +:+ str_nat lbl in
        let end_ := ".Lend" +:+ str_nat lbl in
        let lbl := (lbl + 1)%nat in
        _ ← write ("    mov     rax, [" +:+ fmt ctr +:+ "]" +:+ NL
                   +:+ start +:+ ":" +:+ NL
                   +:+ "    cmp     rax, 0" +:+ NL
                   +:+ "    je      " +:+ end_ +:+ NL
                   +:+ "    add     [" +:+ fmt acc +:+ "], " +:+ val step +:+ NL
                   +:+ "    dec     rax" +:+ NL
                   +:+ "    jmp     " +:+ start +:+ NL
                   +:+ end_ +:+ ":" +:+ NL
                   +:+ "    mov     [" +:+ fmt ctr +:+ "], rax" +:+ NL);
        mret lbl
    | _ => throw ValueError
    end
  else throw (NotImplementedError op).

Definition emit (root : Program) (syms : list string) : E () :=
  _ ← write ("; generated by celc.py" +:+ NL);
  _ ← write ("section .data" +:+ NL);
  _ ← write ("    fmt_dec db " +:+ DQ +:+ "%lld" +:+ DQ +:+ ", 10, 0" +:+ NL);
  _ ← write ("section .bss" +:+ NL);
  _ ← for_write syms (λ _ s, write ("    " +:+ ljust 16 s +:+ " resq 1" +:+ NL)) ();
  _ ← write ("section .text" +:+ NL +:+ "    extern printf" +:+ NL
             +:+ "    global main" +:+ NL +:+ NL +:+ "main:" +:+ NL);
  let lbl := 0%nat in
  _ ← for_write (blocks root) (λ lbl blk,
        _ ← write ("    ; --- Gate [" +:+ gate blk +:+ "] ---" +:+ NL);
        for_write (statements blk) (λ lbl st, emit_stmt st lbl) lbl) lbl;
  write ("    xor     rax, rax" +:+ NL +:+ "    ret" +:+ NL).

(** The content of the file once [w] is closed. *)
Definition contents (ws : list string) : string := foldr String.append "" ws.

(** ** CLI: the compilation part of [main] *)

Section Main.
Variable repr : string → string.

(** [main] run with [-S] on a source text [src_code]; [asm] is the
    content of the target file before the run ([None] when absent).
    Returns the content of that file after the run and how the run
    ended.  The file is opened, and so created or truncated, by [emit]
    only. *)
Definition main (src_code : string) (asm : option string)
    : option string * outcome () :=
  match list_lex repr src_code with
  | Return tokens =>
      match Parser.run tokens with
      | Return ast =>
          match semantic ast with
          | Return symbols =>
              let '(ws, r) := emit ast symbols in (Some (contents ws), r)
          | Raise e => (asm, Raise e)
          | Diverge => (asm, Diverge)
          end
      | Raise e => (asm, Raise e)
      | Diverge => (asm, Diverge)
      end
  | Raise e => (asm, Raise e)
  | Diverge => (asm, Diverge)
  end.
End Main.

(** ** Vocabulary of the specification *)

(** A character that some pattern of the lexical grammar matches, the
    catch-all MISMATCH apart. *)
Definition in_grammar (c : ascii) : bool :=
  is_digit c || is_ident_start c
  || bool_decide (c ∈ ["{"; "}"; "["; "]"; ":"; ";"; ","]%char)
  || is_newline c || is_skip c.

(** Line and column of the character that follows the text [s], when [s]
    starts at line [line], column [col]. *)
Fixpoint advance (s : string) (line col : Z) : Z * Z :=
  match s with
  | "" => (line, col)
  | String c s' =>
      if is_newline c then advance s' (line + 1) 1
      else advance s' line (col + 1)
  end.

(** The 1-based line and column of the character that follows the prefix
    [pre] of a source text. *)
Definition position (pre : string) : Z * Z := advance pre 1 1.

(** The token the parser looks at when its index is [j]. *)
Definition peek_at (tokens : list Token) (j : nat) : Token :=
  Parser.peek (Parser.mkState tokens j) 0.

(** The message of the parse error raised when one of [types] is required
    and the token [p] is found. *)
Definition expected_msg (types : list string) (p : Token) : string :=
  "Expected " +:+ join "/" types +:+ " at "
  +:+ str_int (line p) +:+ ":" +:+ str_int (col p).

(** [sub in s]: the string [sub] occurs in [s]. *)
Fixpoint starts_with (sub s : string) : bool :=
  match sub, s with
  | "", _ => true
  | String a sub', String b s' => bool_decide (a = b) && starts_with sub' s'
  | _, _ => false
  end.
Fixpoint contains (sub s : string) : bool :=
  starts_with sub s
  || match s with
     | "" => false
     | String _ s' => contains sub s'
     end.

(** Python's [repr] on a string of printable ASCII characters other than
    the quote and the backslash. *)
Definition repr_printable (s : string) : string := "'" +:+ s +:+ "'".

(** The identifier [x] is the destination of [st] or one of its
    identifier arguments. *)
Definition mentions (st : Statement) (x : string) : Prop :=
  x = dest st ∨ AStr x ∈ args st.

(** The identifier [x] is mentioned by some statement of the program. *)
Definition symbol_of (root : Program) (x : string) : Prop :=
  ∃ blk st, blk ∈ blocks root ∧ st ∈ statements blk ∧ mentions st x.

(** The messages of the two semantic errors. *)
Definition unknown_op_msg (blk : Block) (st : Statement) : string :=
  "Unknown op " +:+ op st +:+ " in gate [" +:+ gate blk +:+ "]".
Definition arity_msg (st : Statement) (exp : nat) : string :=
  op st +:+ " expects " +:+ str_nat exp +:+ " arg(s), got "
  +:+ str_nat (length (args st)).

(** The statements of a list of blocks, in program order. *)
Definition flat (blks : list Block) : list Statement :=
  concat (statements <$> blks).

(** The number of LOOP statements among [sts]. *)
Definition loops_in (sts : list Statement) : nat :=
  length (filter (λ st, op st = "LOOP") sts).

(** The storage declaration of the symbol [s]. *)
Definition decl (s : string) : string :=
  "    " +:+ ljust 16 s +:+ " resq 1" +:+ NL.

(** What [emit] writes before the first gate, and after the last. *)
Definition prologue (syms : list string) : list string :=
  [ "; generated by celc.py" +:+ NL;
    "section .data" +:+ NL;
    "    fmt_dec db " +:+ DQ +:+ "%lld" +:+ DQ +:+ ", 10, 0" +:+ NL;
    "section .bss" +:+ NL ]
  ++ (decl <$> syms)
  ++ [ "section .text" +:+ NL +:+ "    extern printf" +:+ NL
       +:+ "    global main" +:+ NL +:+ NL +:+ "main:" +:+ NL ].
Definition epilogue : string :=
  "    xor     rax, rax" +:+ NL +:+ "    ret" +:+ NL.

(** The two nested loops of [emit] over the blocks and their statements. *)
Definition emit_stmts (sts : list Statement) (lbl : nat) : E nat :=
  for_write sts (λ lbl st, emit_stmt st lbl) lbl.
Definition emit_blocks (blks : list Block) (lbl : nat) : E nat :=
  for_write blks (λ lbl blk,
    _ ← write ("    ; --- Gate [" +:+ gate blk +:+ "] ---" +:+ NL);
    for_write (statements blk) (λ lbl st, emit_stmt st lbl) lbl) lbl.

(** The instruction group of a LOOP statement whose labels carry the
    suffix [k]. *)
Definition loop_group (k : nat) (ctr step acc : arg) : string :=
  "    mov     rax, [" +:+ fmt ctr +:+ "]" +:+ NL
  +:+ (".Lloop" +:+ str_nat k) +:+ ":" +:+ NL
  +:+ "    cmp     rax, 0" +:+ NL
  +:+ "    je      " +:+ (".Lend" +:+ str_nat k) +:+ NL
  +:+ "    add     [" +:+ fmt acc +:+ "], " +:+ val step +:+ NL
  +:+ "    dec     rax" +:+ NL
  +:+ "    jmp     " +:+ (".Lloop" +:+ str_nat k) +:+ NL
  +:+ (".Lend" +:+ str_nat k) +:+ ":" +:+ NL
  +:+ "    mov     [" +:+ fmt ctr +:+ "], rax" +:+ NL.

(** The message of the lexical error raised at character [x], line [l],
    column [c]. *)
Definition unexpected_char (repr : string → string) (x : ascii) (l c : Z)
    : exn :=
  SyntaxError ("Unexpected char " +:+ repr (String x "") +:+ " @ "
               +:+ str_int l +:+ ":" +:+ str_int c).

(** The errors [expect] raises on the token list [tokens]. *)
Definition expect_error (tokens : list Token) (e : exn) : Prop :=
  ∃ types j,
    (j ≤ length tokens)%nat
    ∧ (type (peek_at tokens j) ∉ types)
    ∧ e = ParseError (expected_msg types (peek_at tokens j)).

(** What every method of the parser guarantees when run on [self]: it
    terminates; when it returns, the token list is the same and the index
    has moved forward by [d] at least, within the list; when it raises,
    the exception comes from [expect] or from [int]. *)
Definition inv_at {A} (d : nat) (m : Parser.M A) (self : Parser.state) : Prop :=
  (Parser.i self ≤ length (Parser.toks self))%nat →
  match m self with
  | Return (_, self') =>
      Parser.toks self' = Parser.toks self
      ∧ (Parser.i self + d ≤ Parser.i self')%nat
      ∧ (Parser.i self' ≤ length (Parser.toks self))%nat
  | Raise e => e = ValueError ∨ expect_error (Parser.toks self) e
  | Diverge => False
  end.

(** A semantic error of the statement [st] of block [blk]. *)
Definition stmt_error (blk : Block) (st : Statement) (e : exn) : Prop :=
  (OPS_ARITY !! op st = None ∧ e = SemanticError (unknown_op_msg blk st))
  ∨ (∃ exp, OPS_ARITY !! op st = Some exp ∧ length (args st) ≠ exp
            ∧ e = SemanticError (arity_msg st exp)).

(** The statement [st] uses an opcode of the table with the number of
    arguments the table declares. *)
Definition well_formed_stmt (st : Statement) : Prop :=
  OPS_ARITY !! op st = Some (length (args st)).

(** [[start]{ y : ADD x; x : SET 5; }], the identifiers of [ex_sum] in
    another order. *)
Definition ex_sum_reordered : Program :=
  mkProgram [mkBlock "start" [
    mkStatement "y" "ADD" [AStr "x"];
    mkStatement "x" "SET" [AInt 5]]].

(** [[a]{ x : SET 1; }  [b]{ y : FOO 1; z : SET 1, 2; }]: two faulty
    statements, the first with an opcode that is not in the table. *)
Definition ex_two_faults : Program :=
  mkProgram [
    mkBlock "a" [mkStatement "x" "SET" [AInt 1]];
    mkBlock "b" [mkStatement "y" "FOO" [AInt 1];
                 mkStatement "z" "SET" [AInt 1; AInt 2]]].

(** The lexeme [val] has the form of the pattern of the token kind [typ],
    one of the nine kinds of tokens. *)
Definition well_formed_lexeme (typ val : string) : bool :=
  if bool_decide (typ = "NUMBER") then
    bool_decide (val ≠ "") && all_chars is_digit val
  else if bool_decide (typ = "IDENT") then
    match val with
    | String c v => is_ident_start c && all_chars is_ident_char v
    | "" => false
    end
  else
    bool_decide ((typ, val) ∈ [("LBRACE", "{"); ("RBRACE", "}");
                               ("LBRACKET", "["); ("RBRACKET", "]");
                               ("COLON", ":"); ("SEMI", ";"); ("COMMA", ",")]).

(** *** The tokens of a text, after the lexical grammar of the
    specification *)

(** The kind of a punctuation character. *)
Definition punctuation (x : ascii) : option string :=
  if bool_decide (x = "{"%char) then Some "LBRACE"
  else if bool_decide (x = "}"%char) then Some "RBRACE"
  else if bool_decide (x = "["%char) then Some "LBRACKET"
  else if bool_decide (x = "]"%char) then Some "RBRACKET"
  else if bool_decide (x = ":"%char) then Some "COLON"
  else if bool_decide (x = ";"%char) then Some "SEMI"
  else if bool_decide (x = ","%char) then Some "COMMA"
  else None.

(** The tokens of the text [s] that follows the text [before], read from
    left to right: a digit starts an integer literal, which runs over the
    digits that follow; a letter or an underscore starts an identifier,
    which runs over the letters, digits and underscores that follow; a
    punctuation character is a token by itself; a line feed, a tab, a
    carriage return or a space is passed over; any other character ends
    the reading.  The line and the column of a token are those of its
    first character, the position that follows [before]. *)
Fixpoint tokens_from (fuel : nat) (before s : string) : list Token :=
  match fuel, s with
  | S fuel', String x rest =>
      let here := position before in
      if is_digit x then
        let '(v, r) := span is_digit rest in
        mkToken "NUMBER" (String x v) here.1 here.2
        :: tokens_from fuel' (before +:+ String x v) r
      else if is_ident_start x then
        let '(v, r) := span is_ident_char rest in
        mkToken "IDENT" (String x v) here.1 here.2
        :: tokens_from fuel' (before +:+ String x v) r
      else if is_newline x || is_skip x then
        tokens_from fuel' (before +:+ String x "") rest
      else
        match punctuation x with
        | Some kind =>
            mkToken kind (String x "") here.1 here.2
            :: tokens_from fuel' (before +:+ String x "") rest
        | None => []
        end
  | _, _ => []
  end.
Definition tokens_of (s : string) : list Token :=
  tokens_from (String.length s) "" s.

(** *** The grammar of the specification, as an automaton over the kinds
    of tokens *)

(** The places between two tokens of a program, after the grammar
    [program := block*], [block := '[' IDENT ']' '{' statement* '}'],
    [statement := IDENT ':' IDENT arg (',' arg)* ';'],
    [arg := IDENT | NUMBER]. *)
Inductive place : Type :=
  | AtBlock       (* before a block, or at the end of the program *)
  | AtGate        (* after '[' *)
  | AtRBracket    (* after the name of the gate *)
  | AtLBrace      (* after ']' *)
  | AtStatement   (* in a block, before a statement or '}' *)
  | AtColon       (* after the destination *)
  | AtOpcode      (* after ':' *)
  | AtArg         (* after the opcode, or after ',' *)
  | AfterArg.     (* after an argument *)

Global Instance place_eq_dec : EqDecision place.
Proof. solve_decision. Defined.

(** The place that follows [q] once a token of kind [k] is read, when the
    grammar has a token of that kind at [q]. *)
Definition follow (q : place) (k : string) : option place :=
  match q with
  | AtBlock => if bool_decide (k = "LBRACKET") then Some AtGate else None
  | AtGate => if bool_decide (k = "IDENT") then Some AtRBracket else None
  | AtRBracket => if bool_decide (k = "RBRACKET") then Some AtLBrace else None
  | AtLBrace => if bool_decide (k = "LBRACE") then Some AtStatement else None
  | AtStatement =>
      if bool_decide (k = "RBRACE") then Some AtBlock
      else if bool_decide (k = "IDENT") then Some AtColon else None
  | AtColon => if bool_decide (k = "COLON") then Some AtOpcode else None
  | AtOpcode => if bool_decide (k = "IDENT") then Some AtArg else None
  | AtArg =>
      if bool_decide (k ∈ ["IDENT"; "NUMBER"]) then Some AfterArg else None
  | AfterArg =>
      if bool_decide (k = "COMMA") then Some AtArg
      else if bool_decide (k = "SEMI") then Some AtStatement else None
  end.

(** The kinds that a parse error raised at place [q] names as expected. *)
Definition required (q : place) : list string :=
  match q with
  | AtBlock => ["LBRACKET"]
  | AtGate => ["IDENT"]
  | AtRBracket => ["RBRACKET"]
  | AtLBrace => ["LBRACE"]
  | AtStatement => ["IDENT"]
  | AtColon => ["COLON"]
  | AtOpcode => ["IDENT"]
  | AtArg => ["IDENT"; "NUMBER"]
  | AfterArg => ["SEMI"]
  end.

(** At place [q], the token number [j], of kind [k], is not one the
    grammar has there.  Before a block, the end of the input, of kind EOF,
    completes the program; anything else is a fault, told by the expected
    kinds and the index of the token. *)
Definition fault_here (q : place) (k : string) (j : nat)
    : option (list string * nat) :=
  if bool_decide (q = AtBlock ∧ k = "EOF") then None
  else Some (required q, j).

(** The first fault of the tokens [ts], numbered from [j], read from
    place [q]; [None] when they complete a program. *)
Fixpoint grammar_fault_from (q : place) (ts : list Token) (j : nat)
    : option (list string * nat) :=
  match ts with
  | [] => fault_here q "EOF" j
  | t :: ts' =>
      match follow q (type t) with
      | Some q' => grammar_fault_from q' ts' (S j)
      | None => fault_here q (type t) j
      end
  end.
Definition grammar_fault (tokens : list Token) : option (list string * nat) :=
  grammar_fault_from AtBlock tokens 0.

(** The first fault of [tokens] from place [q] at index [i]. *)
Definition fault_at (q : place) (tokens : list Token) (i : nat)
    : option (list string * nat) :=
  grammar_fault_from q (drop i tokens) i.

(** The exceptions of a method of the parser started on [self] at place
    [q]: the parse error of the first fault of the tokens, or the
    [ValueError] of [int] on the lexeme of a NUMBER token. *)
Definition raised (q : place) (self : Parser.state) (e : exn) : Prop :=
  (∃ types j,
     fault_at q (Parser.toks self) (Parser.i self) = Some (types, j)
     ∧ e = ParseError (expected_msg types (peek_at (Parser.toks self) j)))
  ∨ (e = ValueError
     ∧ ∃ t, t ∈ Parser.toks self ∧ type t = "NUMBER"
            ∧ int (value t) = Raise ValueError).

(** The method [m], started on [self] at place [q], leaves the token list
    as it is and returns a result and a state that satisfy [P], unless it
    raises as [raised] tells. *)
Definition tracks {A} (q : place) (P : A → Parser.state → Prop)
    (m : Parser.M A) (self : Parser.state) : Prop :=
  match m self with
  | Return (a, self') => Parser.toks self' = Parser.toks self ∧ P a self'
  | Raise e => raised q self e
  | Diverge => True
  end.

(** Every token has a lexeme of the pattern of its kind, as the tokens of
    the scanner have. *)
Definition lexemes_ok (tokens : list Token) : Prop :=
  Forall (λ t, well_formed_lexeme (type t) (value t) = true) tokens.

(** Run on tokens with well-formed lexemes, the method [m] returns
    results that satisfy [P] only. *)
Definition returns {A} (m : Parser.M A) (P : A → Prop) : Prop :=
  ∀ self a self',
    lexemes_ok (Parser.toks self) →
    m self = Return (a, self') →
    lexemes_ok (Parser.toks self') ∧ P a.

(** The numbers among the arguments [argv] are not negative and have at
    most [max_str_digits] digits. *)
Definition numbers_in_range (argv : list arg) : Prop :=
  ∀ n, AInt n ∈ argv → 0 ≤ n < 10 ^ max_str_digits.

(** An identifier without a lower-case letter. *)
Definition upper_ident (s : string) : Prop :=
  well_formed_lexeme "IDENT" s = true
  ∧ all_chars (λ c, negb (is_lower c)) s = true.

(** What the parser makes of a statement read from well-formed tokens. *)
Definition parsed_stmt (st : Statement) : Prop :=
  args st ≠ [] ∧ upper_ident (op st) ∧ numbers_in_range (args st).

(** The numbers of a statement, of a program, are ones that [f"{n}"]
    converts, to the text that [str_int] gives. *)
Definition printable_arg (a : arg) : Prop :=
  match a with
  | AInt n => format_int n = Return (str_int n)
  | AStr _ => True
  end.
Definition printable (st : Statement) : Prop := Forall printable_arg (args st).
Definition printable_program (root : Program) : Prop :=
  Forall (λ blk, Forall printable (statements blk)) (blocks root).

(** The kinds and lexemes of the tokens that spell a program, after the
    grammar of the parser: [block := '[' IDENT ']' '{' statement* '}'],
    [statement := IDENT ':' IDENT arg (',' arg)* ';'], [arg := IDENT |
    NUMBER]. *)
Definition spell_arg (a : arg) : string * string :=
  match a with
  | AInt n => ("NUMBER", str_int n)
  | AStr s => ("IDENT", s)
  end.
Fixpoint spell_args (argv : list arg) : list (string * string) :=
  match argv with
  | [] => []
  | a :: argv' =>
      spell_arg a :: match argv' with
                     | [] => []
                     | _ :: _ => ("COMMA", ",") :: spell_args argv'
                     end
  end.
Definition spell_statement (st : Statement) : list (string * string) :=
  [("IDENT", dest st); ("COLON", ":"); ("IDENT", op st)]
  ++ spell_args (args st) ++ [("SEMI", ";")].
Definition spell_block (blk : Block) : list (string * string) :=
  [("LBRACKET", "["); ("IDENT", gate blk); ("RBRACKET", "]"); ("LBRACE", "{")]
  ++ concat (spell_statement <$> statements blk) ++ [("RBRACE", "}")].
Definition spell_program (root : Program) : list (string * string) :=
  concat (spell_block <$> blocks root).

(** A statement the grammar can spell: at least one argument, an opcode
    of ASCII characters that [upper] leaves as it is, and numbers that are
    not negative and have at most [max_str_digits] digits. *)
Definition writable_stmt (st : Statement) : Prop :=
  args st ≠ []
  ∧ all_chars is_ascii (op st) = true
  ∧ upper (op st) = op st
  ∧ ∀ n, AInt n ∈ args st → 0 ≤ n < 10 ^ max_str_digits.
Definition writable (root : Program) : Prop :=
  ∀ blk st, blk ∈ blocks root → st ∈ statements blk → writable_stmt st.

(** From index [j] on, the tokens have the kinds and lexemes [ps]. *)
Definition seg (tokens : list Token) (j : nat) (ps : list (string * string))
    : Prop :=
  ∀ k p, ps !! k = Some p →
    ∃ t, tokens !! (j + k)%nat = Some t ∧ type t = p.1 ∧ value t = p.2.

(** The method [m], run on [self], returns [a] after consuming [n]
    tokens. *)
Definition steps {A} (m : Parser.M A) (self : Parser.state) (a : A) (n : nat)
    : Prop :=
  ∃ self', m self = Return (a, self')
           ∧ Parser.toks self' = Parser.toks self
           ∧ Parser.i self' = (Parser.i self + n)%nat.

(** ** Example programs *)

(** [[start]{ x : SET 5; y : SET 0; y : ADD x; }] *)
Definition ex_sum : Program :=
  mkProgram [mkBlock "start" [
    mkStatement "x" "SET" [AInt 5];
    mkStatement "y" "SET" [AInt 0];
    mkStatement "y" "ADD" [AStr "x"]]].

(** [x : SET 1, 2] *)
Definition ex_two_args : Statement := mkStatement "x" "SET" [AInt 1; AInt 2].

(** [[start]{ x : SET 1, 2; }] *)
Definition ex_bad_arity : Program := mkProgram [mkBlock "start" [ex_two_args]].

(** [[m]{ n : SET 3; t : LOOP n, 2, s; }  [k]{ u : LOOP t, 1, s; }] *)
Definition ex_first_loop : Statement :=
  mkStatement "t" "LOOP" [AStr "n"; AInt 2; AStr "s"].
Definition ex_second_loop : Statement :=
  mkStatement "u" "LOOP" [AStr "t"; AInt 1; AStr "s"].
Definition ex_loops : Program :=
  mkProgram [
    mkBlock "m" [mkStatement "n" "SET" [AInt 3]; ex_first_loop];
    mkBlock "k" [ex_second_loop]].

(** [[top]{ a : COMPARE b, c; a : JUMP_IF b, top; }] *)
Definition ex_jump_stmt : Statement :=
  mkStatement "a" "JUMP_IF" [AStr "b"; AStr "top"].
Definition ex_jump : Program :=
  mkProgram [mkBlock "top" [
    mkStatement "a" "COMPARE" [AStr "b"; AStr "c"]; ex_jump_stmt]].

(** A source text with a character outside the grammar on its second
    line. *)
Definition ex_before_at : string := "[start]{ x : SET 5;" +:+ NL +:+ "  y : ADD ".
Definition ex_after_at : string := "x; }".

(** A source text with an opcode that is not in the table. *)
Definition ex_unknown_src : string := "[g]{ x : FOO 1; }".
Definition ex_unknown_stmt : Statement := mkStatement "x" "FOO" [AInt 1].
Definition ex_unknown : Program := mkProgram [mkBlock "g" [ex_unknown_stmt]].

(** The tokens of [[g]{ x : SET }], where an argument is missing. *)
Definition ex_missing_arg : list Token :=
  [ mkToken "LBRACKET" "[" 1 1; mkToken "IDENT" "g" 1 2;
    mkToken "RBRACKET" "]" 1 3; mkToken "LBRACE" "{" 1 4;
    mkToken "IDENT" "x" 1 6; mkToken "COLON" ":" 1 8;
    mkToken "IDENT" "SET" 1 10; mkToken "RBRACE" "}" 1 14 ].

(** * Properties *)

(** ** The example programs, from their source text *)

Example ex_sum_parsed :
  (tokens ← list_lex repr_printable "[start]{ x : SET 5; y : SET 0; y : ADD x; }";
   Parser.run tokens) = Return ex_sum.
Proof. vm_compute. reflexivity. Qed.

Example ex_loops_parsed :
  (tokens ← list_lex repr_printable
     "[m]{ n : SET 3; t : loop n, 2, s; }  [k]{ u : Loop t, 1, s; }";
   Parser.run tokens) = Return ex_loops.
Proof. vm_compute. reflexivity. Qed.

Example ex_jump_parsed :
  (tokens ← list_lex repr_printable
     "[top]{ a : COMPARE b, c; a : JUMP_IF b, top; }";
   Parser.run tokens) = Return ex_jump.
Proof. vm_compute. reflexivity. Qed.

Example ex_missing_arg_scanned :
  lex repr_printable "[g]{ x : SET }" = (ex_missing_arg, None).
Proof. vm_compute. reflexivity. Qed.

Example ex_sum_compiled :
  ∃ text,
    main repr_printable "[start]{ x : SET 5; y : SET 0; y : ADD x; }" None
    = (Some text, Return ())
    ∧ contains ("    x                resq 1" +:+ NL
                +:+ "    y                resq 1" +:+ NL
                +:+ "section .text" +:+ NL) text = true
    ∧ contains ("    ; --- Gate [start] ---" +:+ NL
                +:+ "    mov     [x], 5" +:+ NL
                +:+ "    mov     [y], 0" +:+ NL
                +:+ "    add     [y], [x]" +:+ NL
                +:+ "    xor     rax, rax" +:+ NL
                +:+ "    ret" +:+ NL) text = true.
Proof.
  eexists. split; [vm_compute; reflexivity|].
  split; vm_compute; reflexivity.
Qed.


(** ** Strings *)

Lemma append_nil_l (s : string) : "" +:+ s = s.
Proof. reflexivity. Qed.

Lemma append_cons c (s t : string) : String c s +:+ t = String c (s +:+ t).
Proof. reflexivity. Qed.

Ltac str_simpl :=
  cbn in *; rewrite ?append_cons, ?append_nil_l in *; cbn in *.

Lemma append_nil_r (s : string) : s +:+ "" = s.
Proof. induction s as [|c s IH]; [done|]. str_simpl. by rewrite IH. Qed.

Lemma append_assoc (s t u : string) : (s +:+ t) +:+ u = s +:+ t +:+ u.
Proof. induction s as [|c s IH]; [done|]. str_simpl. by rewrite IH. Qed.

Lemma length_append (s t : string) :
  String.length (s +:+ t) = (String.length s + String.length t)%nat.
Proof. induction s as [|c s IH]; [done|]. str_simpl. by rewrite IH. Qed.

Lemma all_chars_append p s t :
  all_chars p (s +:+ t) = all_chars p s && all_chars p t.
Proof.
  induction s as [|c s IH]; [done|]. str_simpl. rewrite IH. by destruct (p c).
Qed.

Lemma span_append p s : (span p s).1 +:+ (span p s).2 = s.
Proof.
  induction s as [|c s IH]; [done|]. cbn.
  destruct (p c); [|done]. destruct (span p s) as [v r]. str_simpl.
  by rewrite IH.
Qed.

Lemma span_all p s : all_chars p (span p s).1 = true.
Proof.
  induction s as [|c s IH]; [done|]. cbn.
  destruct (p c) eqn:Hc; [|done]. destruct (span p s) as [v r]. cbn in *.
  by rewrite Hc.
Qed.

(** A character outside the class stops the greedy repetition where it
    stands. *)
Lemma span_stop p s x post :
  p x = false →
  span p (s +:+ String x post) = ((span p s).1, (span p s).2 +:+ String x post).
Proof.
  intros Hx. induction s as [|c s IH]; str_simpl.
  - by rewrite Hx.
  - destruct (p c); [|done]. rewrite IH. by destruct (span p s).
Qed.

Lemma advance_append s t line col :
  advance (s +:+ t) line col =
  advance t (advance s line col).1 (advance s line col).2.
Proof.
  revert line col. induction s as [|c s IH]; intros line col; [done|].
  str_simpl. destruct (is_newline c); apply IH.
Qed.

Lemma advance_newlines s line col :
  all_chars is_newline s = true → s ≠ "" →
  advance s line col = (line + count_char "010" s, 1).
Proof.
  revert line col. induction s as [|c s IH]; intros line col Hall Hne; [done|].
  cbn in *. apply andb_true_iff in Hall as [Hc Hall]. rewrite Hc.
  unfold is_newline in Hc. apply bool_decide_eq_true in Hc as ->.
  rewrite bool_decide_eq_true_2 by done.
  destruct s as [|c' s'].
  - cbn; f_equal; lia.
  - rewrite IH by done. f_equal; lia.
Qed.

Lemma advance_same_line s line col :
  all_chars (λ c, negb (is_newline c)) s = true →
  advance s line col = (line, col + Z.of_nat (String.length s)).
Proof.
  revert col. induction s as [|c s IH]; intros col Hall; cbn in *.
  - f_equal; lia.
  - apply andb_true_iff in Hall as [Hc Hall].
    apply negb_true_iff in Hc. rewrite Hc, IH by done. f_equal; lia.
Qed.

Lemma all_chars_impl (p q : ascii → bool) s :
  (∀ c, p c = true → q c = true) → all_chars p s = true → all_chars q s = true.
Proof.
  intros Hpq. induction s as [|c s IH]; [done|]. cbn.
  intros [Hc Hs]%andb_true_iff. by rewrite (Hpq _ Hc), IH.
Qed.

(** ** Lexer *)

Lemma in_grammar_false x :
  in_grammar x = false →
  is_digit x = false ∧ is_ident_start x = false ∧ is_ident_char x = false
  ∧ is_newline x = false ∧ is_skip x = false
  ∧ x ∉ ["{"; "}"; "["; "]"; ":"; ";"; ","]%char.
Proof.
  unfold in_grammar, is_ident_char. intros H.
  repeat (apply orb_false_iff in H as [H ?]).
  repeat split; try done.
  - by rewrite H, H3.
  - by eapply bool_decide_eq_false_1.
Qed.

(** A character outside the grammar is matched by MISMATCH alone, as a
    match of length one. *)
Lemma match_at_mismatch x rest :
  in_grammar x = false → match_at x rest = ("MISMATCH", String x "", rest).
Proof.
  intros (Hd & Hi & _ & Hn & Hs & Hp)%in_grammar_false.
  unfold match_at. rewrite Hd, Hi, Hn, Hs.
  rewrite !bool_decide_eq_false_2; [done|..]; intros ->; apply Hp; set_solver.
Qed.

(** A character outside the grammar ends every match that starts before
    it. *)
Lemma match_at_stop c s x post :
  in_grammar x = false →
  match_at c (s +:+ String x post) =
  ((match_at c s).1.1, (match_at c s).1.2, (match_at c s).2 +:+ String x post).
Proof.
  intros (Hd & Hi & Hic & Hn & Hs & _)%in_grammar_false.
  unfold match_at.
  rewrite !span_stop by done. cbn.
  repeat (case_match; simplify_eq/=; try done).
Qed.

(** What a match inside the grammar looks like: it starts with the
    character at hand, it is a run of line feeds when it is a NEWLINE and
    holds no line feed otherwise, and MISMATCH is not its group. *)
Lemma not_newline (p : ascii → bool) c :
  p "010"%char = false → p c = true → negb (is_newline c) = true.
Proof.
  intros Hp Hc. unfold is_newline. case_bool_decide; [|done]. congruence.
Qed.

Lemma match_at_shape c s :
  in_grammar c = true →
  ∃ v', (match_at c s).1.2 = String c v'
    ∧ s = v' +:+ (match_at c s).2
    ∧ (match_at c s).1.1 ≠ "MISMATCH"
    ∧ if bool_decide ((match_at c s).1.1 = "NEWLINE")
      then all_chars is_newline (String c v') = true
      else all_chars (λ c, negb (is_newline c)) (String c v') = true.
Proof.
  intros Hc. unfold match_at, in_grammar in *.
  destruct (is_digit c) eqn:Hd.
  { pose proof (span_append is_digit s). pose proof (span_all is_digit s).
    destruct (span is_digit s) as [v r]; simplify_eq/=.
    exists v. repeat split; try done.
    rewrite (not_newline is_digit c) by done.
    eapply all_chars_impl; [|done]. intros c'. by apply not_newline. }
  destruct (is_ident_start c) eqn:Hi.
  { pose proof (span_append is_ident_char s).
    pose proof (span_all is_ident_char s).
    destruct (span is_ident_char s) as [v r]; simplify_eq/=.
    exists v. repeat split; try done.
    rewrite (not_newline is_ident_start c) by done.
    eapply all_chars_impl; [|done]. intros c'. by apply not_newline. }
  repeat match goal with
  | |- context [bool_decide (c = ?k)] =>
      destruct (bool_decide_reflect (c = k)) as [->|?];
        [exists ""; by repeat split|]
  end.
  destruct (is_newline c) eqn:Hn.
  { pose proof (span_append is_newline s). pose proof (span_all is_newline s).
    destruct (span is_newline s) as [v r]; simplify_eq/=.
    exists v. repeat split; try done. by rewrite Hn. }
  destruct (is_skip c) eqn:Hs.
  { pose proof (span_append is_skip s). pose proof (span_all is_skip s).
    destruct (span is_skip s) as [v r]; simplify_eq/=.
    exists v. repeat split; try done. rewrite Hn. cbn.
    eapply all_chars_impl; [|done]. intros c'. by apply not_newline. }
  cbn in Hc. rewrite bool_decide_eq_false_2 in Hc; [done|].
  rewrite !not_elem_of_cons. repeat split; try done. apply not_elem_of_nil.
Qed.

(** Scanning a text [pre] inside the grammar that is followed by a
    character [x] outside it: the tokens are those of [pre] alone, and the
    error carries the position reached by advancing over [pre]. *)
Lemma lex_loop_prefix repr x post (n : nat) :
  in_grammar x = false →
  ∀ pre pos line ls f1 f2,
    (String.length pre ≤ n)%nat →
    all_chars in_grammar pre = true →
    (String.length pre < f1)%nat →
    (String.length pre ≤ f2)%nat →
    ∃ toks,
      lex_loop repr (finditer_from f2 pos pre) line ls = (toks, None)
      ∧ lex_loop repr (finditer_from f1 pos (pre +:+ String x post)) line ls
        = (toks, Some (unexpected_char repr x
                         (advance pre line (pos - ls + 1)).1
                         (advance pre line (pos - ls + 1)).2)).
Proof.
  intros Hx. induction n as [|n IH]; intros pre pos line ls f1 f2 Hn Hall Hf1 Hf2.
  - destruct pre as [|c pre]; [|cbn in Hn; lia].
    destruct f1 as [|f1]; [cbn in Hf1; lia|].
    exists []. split; [by destruct f2|].
    rewrite append_nil_l. cbn [finditer_from].
    rewrite (match_at_mismatch x post Hx). done.
  - destruct pre as [|c pre].
    { apply (IH "" pos line ls f1 f2); cbn in *; [lia|done|lia|lia]. }
    destruct f1 as [|f1]; [cbn in Hf1; lia|].
    destruct f2 as [|f2]; [cbn in Hf2; lia|].
    cbn in Hall. apply andb_true_iff in Hall as [Hc Hall].
    rewrite append_cons. cbn [finditer_from].
    rewrite (match_at_stop c pre x post Hx).
    destruct (match_at_shape c pre Hc) as (v' & Hv & Hpre & Hmis & Hcls).
    destruct (match_at c pre) as [[g v] r]. cbn [fst snd] in *. subst v.
    rewrite Hpre in Hall. rewrite all_chars_append in Hall.
    apply andb_true_iff in Hall as [_ Hr].
    assert (String.length r ≤ String.length pre)%nat as Hlen.
    { rewrite Hpre, length_append. lia. }
    cbn in Hn, Hf1, Hf2.
    set (k := Z.of_nat (String.length (String c v'))).
    assert (advance (String c pre) line (pos - ls + 1) =
            advance r (advance (String c v') line (pos - ls + 1)).1
                      (advance (String c v') line (pos - ls + 1)).2) as Hadv.
    { rewrite Hpre at 1. by rewrite <-append_cons, advance_append. }
    rewrite Hadv. clear Hadv.
    cbn [lex_loop lastgroup group m_start m_end].
    case_bool_decide as Hnl.
    + (* NEWLINE *)
      rewrite (advance_newlines _ line (pos - ls + 1) Hcls) by done.
      cbn [fst snd]. fold k.
      destruct (IH r (pos + k) (line + count_char "010" (String c v'))
                  (pos + k) f1 f2) as (toks & H1 & H2); [lia|done|lia|lia|].
      exists toks. split; [done|].
      rewrite H2. by replace (pos + k - (pos + k) + 1) with 1 by lia.
    + rewrite (advance_same_line _ line (pos - ls + 1) Hcls).
      cbn [fst snd]. fold k.
      destruct (IH r (pos + k) line ls f1 f2) as (toks & H1 & H2);
        [lia|done|lia|lia|].
      replace (pos + k - ls + 1) with (pos - ls + 1 + k) in H2 by lia.
      case_bool_decide as Hskip.
      * (* SKIP *) exists toks. by split.
      * rewrite (bool_decide_eq_false_2 _ Hmis).
        rewrite H1, H2. by eexists.
Qed.

(** Enough fuel: the matches of [finditer] cover the whole text. *)
Lemma finditer_from_covers fuel pos s :
  (String.length s ≤ fuel)%nat →
  foldr (λ mo t, group mo +:+ t) "" (finditer_from fuel pos s) = s.
Proof.
  revert pos s. induction (lt_wf fuel) as [fuel _ IH]; intros pos s Hlen.
  destruct fuel as [|fuel], s as [|c s]; try done; [cbn in Hlen; lia|].
  cbn [finditer_from].
  assert (∃ v', (match_at c s).1.2 = String c v' ∧ s = v' +:+ (match_at c s).2)
    as (v' & Hv & Hs).
  { destruct (in_grammar c) eqn:Hc.
    - destruct (match_at_shape c s Hc) as (v' & ? & ? & _); eauto.
    - rewrite match_at_mismatch by done. by exists "". }
  destruct (match_at c s) as [[g v] r]. cbn [fst snd] in *. subst v.
  cbn [foldr group]. rewrite append_cons. f_equal.
  cbn in Hlen. rewrite Hs, length_append in Hlen. rewrite Hs. f_equal.
  apply IH; lia.
Qed.

Lemma finditer_covers src :
  foldr (λ mo t, group mo +:+ t) "" (finditer src) = src.
Proof. by apply finditer_from_covers. Qed.

(** A reading with more fuel than characters does not depend on the
    fuel. *)
Lemma tokens_from_fuel n :
  ∀ s before f1 f2,
    (String.length s ≤ n)%nat → (String.length s ≤ f1)%nat →
    (String.length s ≤ f2)%nat →
    tokens_from f1 before s = tokens_from f2 before s.
Proof.
  induction n as [|n IH]; intros s before f1 f2 Hn H1 H2.
  { destruct s; [by destruct f1, f2|cbn in Hn; lia]. }
  destruct s as [|x rest]; [by destruct f1, f2|].
  destruct f1 as [|f1]; [cbn in H1; lia|].
  destruct f2 as [|f2]; [cbn in H2; lia|].
  cbn in Hn, H1, H2. cbn [tokens_from].
  assert (∀ p, String.length (span p rest).2 ≤ String.length rest)%nat as Hspan.
  { intros p. pose proof (span_append p rest) as Heq.
    rewrite <-Heq at 2. rewrite length_append. lia. }
  destruct (is_digit x).
  { specialize (Hspan is_digit). destruct (span is_digit rest) as [v r].
    cbn in Hspan. f_equal. apply IH; lia. }
  destruct (is_ident_start x).
  { specialize (Hspan is_ident_char). destruct (span is_ident_char rest) as [v r].
    cbn in Hspan. f_equal. apply IH; lia. }
  destruct (is_newline x || is_skip x); [apply IH; lia|].
  destruct (punctuation x); [|done]. f_equal. apply IH; lia.
Qed.

(** Blank space is passed over. *)
Lemma tokens_from_blank v :
  ∀ before r f1 f2,
    all_chars (λ c, is_newline c || is_skip c) v = true →
    (String.length (v +:+ r) ≤ f1)%nat → (String.length r ≤ f2)%nat →
    tokens_from f1 before (v +:+ r) = tokens_from f2 (before +:+ v) r.
Proof.
  induction v as [|c v IH]; intros before r f1 f2 Hall H1 H2.
  - rewrite append_nil_l, append_nil_r in *.
    by apply (tokens_from_fuel (String.length r)).
  - cbn in Hall. apply andb_true_iff in Hall as [Hc Hall].
    rewrite append_cons in *. destruct f1 as [|f1]; [cbn in H1; lia|].
    cbn in H1. cbn [tokens_from].
    assert (is_digit c = false ∧ is_ident_start c = false) as [-> ->].
    { revert Hc. clear. by destruct c as [[] [] [] [] [] [] [] []]. }
    rewrite Hc.
    rewrite (IH (before +:+ String c "") r f1 f2) by (done || lia).
    by rewrite append_assoc.
Qed.

Lemma punctuation_None x : in_grammar x = false → punctuation x = None.
Proof.
  intros (_ & _ & _ & _ & _ & Hp)%in_grammar_false. unfold punctuation.
  rewrite !bool_decide_eq_false_2; [done|..]; intros ->; apply Hp; set_solver.
Qed.

Lemma fst_cons_pair {A E} (t : A) (X : list A * E) :
  (let '(toks, e) := X in (t :: toks, e)).1 = t :: X.1.
Proof. by destruct X. Qed.

(** The scanner and the reading of the text after the grammar give the
    same tokens. *)
Lemma lex_loop_tokens_from repr (n : nat) :
  ∀ before s pos ln ls fuel fuel',
    (String.length s ≤ n)%nat → (String.length s ≤ fuel)%nat →
    (String.length s ≤ fuel')%nat →
    advance before 1 1 = (ln, pos - ls + 1) →
    (lex_loop repr (finditer_from fuel pos s) ln ls).1
    = tokens_from fuel' before s.
Proof.
  induction n as [|n IH]; intros before s pos ln ls fuel fuel' Hn Hf Hf' Hadv.
  { destruct s; [by destruct fuel, fuel'|cbn in Hn; lia]. }
  destruct s as [|c s]; [by destruct fuel, fuel'|].
  destruct fuel as [|fuel]; [cbn in Hf; lia|].
  destruct fuel' as [|fuel']; [cbn in Hf'; lia|].
  cbn in Hn, Hf, Hf'. cbn [finditer_from tokens_from].
  destruct (in_grammar c) eqn:Hc.
  2:{ rewrite match_at_mismatch by done. cbn.
      rewrite (punctuation_None c Hc).
      apply in_grammar_false in Hc as (-> & -> & _ & -> & -> & _). done. }
  destruct (match_at_shape c s Hc) as (v' & Hv & Hs & Hmis & Hcls).
  assert (String.length (match_at c s).2 ≤ String.length s)%nat as Hlen.
  { rewrite Hs at 2. rewrite length_append. lia. }
  unfold position. rewrite Hadv. cbn [fst snd].
  revert Hv Hs Hmis Hcls Hlen. unfold match_at.
  destruct (is_digit c) eqn:Hd.
  { destruct (span is_digit s) as [v r]. cbn [fst snd].
    intros [= <-] Hs _ Hcls Hlen. cbn [lex_loop lastgroup group m_start m_end].
    rewrite !bool_decide_eq_false_2 in * by done.
    rewrite fst_cons_pair. f_equal. apply IH; [lia..|].
    rewrite advance_append, Hadv. cbn [fst snd].
    rewrite (advance_same_line _ ln (pos - ls + 1) Hcls). f_equal. lia. }
  destruct (is_ident_start c) eqn:Hi.
  { destruct (span is_ident_char s) as [v r]. cbn [fst snd].
    intros [= <-] Hs _ Hcls Hlen. cbn [lex_loop lastgroup group m_start m_end].
    rewrite !bool_decide_eq_false_2 in * by done.
    rewrite fst_cons_pair. f_equal. apply IH; [lia..|].
    rewrite advance_append, Hadv. cbn [fst snd].
    rewrite (advance_same_line _ ln (pos - ls + 1) Hcls). f_equal. lia. }
  unfold punctuation.
  repeat match goal with
  | |- context [bool_decide (c = ?k)] =>
      destruct (bool_decide_reflect (c = k)) as [->|?];
        [change (is_newline k || is_skip k) with false; cbn [fst snd];
         intros [= <-] Hs _ Hcls Hlen;
         cbn [lex_loop lastgroup group m_start m_end];
         rewrite !bool_decide_eq_false_2 in * by done;
         rewrite fst_cons_pair; f_equal; apply IH; [lia..|];
         rewrite advance_append, Hadv; cbn [fst snd];
         rewrite (advance_same_line _ ln (pos - ls + 1) Hcls); f_equal; lia|]
  end.
  destruct (is_newline c) eqn:Hnl.
  { pose proof (span_all is_newline s) as Hall.
    destruct (span is_newline s) as [v r]. cbn [fst snd] in *.
    intros [= <-] Hs _ Hcls Hlen. cbn [lex_loop lastgroup group m_start m_end].
    rewrite bool_decide_eq_true_2 in * by done. cbn [orb].
    rewrite Hs.
    rewrite (tokens_from_blank v (before +:+ String c "") r fuel' fuel').
    - rewrite append_assoc, append_cons, append_nil_l. apply IH; [lia..|].
      rewrite advance_append, Hadv. cbn [fst snd].
      rewrite (advance_newlines _ ln (pos - ls + 1) Hcls) by done.
      f_equal. lia.
    - eapply all_chars_impl; [|exact Hall]. intros c' ->. done.
    - rewrite <-Hs. lia.
    - lia. }
  destruct (is_skip c) eqn:Hsk.
  { pose proof (span_all is_skip s) as Hall.
    destruct (span is_skip s) as [v r]. cbn [fst snd] in *.
    intros [= <-] Hs _ Hcls Hlen. cbn [lex_loop lastgroup group m_start m_end].
    rewrite bool_decide_eq_false_2 in * by done.
    rewrite bool_decide_eq_true_2 by done. cbn [orb].
    rewrite Hs.
    rewrite (tokens_from_blank v (before +:+ String c "") r fuel' fuel').
    - rewrite append_assoc, append_cons, append_nil_l. apply IH; [lia..|].
      rewrite advance_append, Hadv. cbn [fst snd].
      rewrite (advance_same_line _ ln (pos - ls + 1) Hcls). f_equal. lia.
    - eapply all_chars_impl; [|exact Hall]. intros c' ->. apply orb_true_r.
    - rewrite <-Hs. lia.
    - lia. }
  intros _ _ Hmis. done.
Qed.

(** The tokens the scanner yields, until it stops, are those of the text
    read after the lexical grammar. *)
Lemma lex_tokens_of repr src : (lex repr src).1 = tokens_of src.
Proof.
  unfold lex, finditer, tokens_of.
  by apply (lex_loop_tokens_from repr (String.length src)).
Qed.

(** ** Parser *)

Section ParserInvariant.
Import Parser.

Lemma inv_at_weaken {A} d d' (m : M A) self :
  (d' ≤ d)%nat → inv_at d m self → inv_at d' m self.
Proof.
  unfold inv_at. intros Hd H Hi. specialize (H Hi).
  destruct (m self) as [[a self']| |]; [|done..].
  destruct H as (? & ? & ?). repeat split; [done|lia|done].
Qed.

Lemma inv_at_ret {A} (a : A) self : inv_at 0 (mret a) self.
Proof. intros Hi. cbn. repeat split; [lia|done]. Qed.

Lemma inv_at_bind {A B} d1 d2 (m : M A) (k : A → M B) self :
  inv_at d1 m self →
  (∀ a self',
     m self = Return (a, self') → toks self' = toks self →
     (i self + d1 ≤ i self')%nat → (i self' ≤ length (toks self))%nat →
     inv_at d2 (k a) self') →
  inv_at (d1 + d2) (m ≫= k) self.
Proof.
  unfold inv_at. intros Hm Hk Hi. specialize (Hm Hi).
  unfold mbind, M_bind.
  destruct (m self) as [[a self']| |] eqn:Hms; [|done..].
  destruct Hm as (Ht & Hlo & Hhi).
  specialize (Hk a self' eq_refl Ht Hlo Hhi). rewrite Ht in Hk.
  specialize (Hk Hhi).
  destruct (k a self') as [[b self'']| |]; [|done..].
  destruct Hk as (? & ? & ?). repeat split; [congruence|lia|done].
Qed.

Lemma inv_at_get {A} d (k : state → M A) self :
  inv_at d (k self) self → inv_at d (get ≫= k) self.
Proof. done. Qed.

Lemma inv_at_lift {A} (m : outcome A) self :
  m ≠ Diverge → (∀ e, m = Raise e → e = ValueError) →
  inv_at 0 (lift m) self.
Proof.
  intros Hd He Hi. unfold lift. destruct m as [a|e|]; cbn; [|eauto|done].
  repeat split; [lia|done].
Qed.

Lemma inv_at_accept types self :
  "EOF" ∉ types →
  inv_at 0 (accept types) self
  ∧ ∀ tok self', accept types self = Return (Some tok, self') →
      (i self < i self')%nat.
Proof.
  intros Heof. unfold inv_at, accept. case_bool_decide as Hin; cbn.
  - assert (i self < length (toks self))%nat.
    { destruct (decide (i self < length (toks self))%nat); [done|].
      unfold peek in Hin. rewrite lookup_ge_None_2 in Hin by lia. done. }
    split; [intros; repeat split; lia|]. intros ?? [= <- <-]. cbn. lia.
  - split; [intros; repeat split; [lia|done]|]. intros ?? [=].
Qed.

Lemma inv_at_expect types self :
  "EOF" ∉ types → inv_at 1 (expect types) self.
Proof.
  intros Heof Hi. unfold expect, mbind, M_bind.
  destruct (inv_at_accept types self Heof) as [Hacc Hstep].
  specialize (Hacc Hi).
  destruct (accept types self) as [[[tok|] self']| |] eqn:Hacc'; [| |done..].
  - cbn. specialize (Hstep tok self' eq_refl).
    destruct Hacc as (? & ? & ?). repeat split; [done|lia|done].
  - cbn. right. unfold accept in Hacc'.
    case_bool_decide as Hin; simplify_eq.
    exists types, (i self'). by destruct self'.
Qed.

Lemma int_raises s e : int s = Raise e → e = ValueError.
Proof. unfold int. repeat case_match; naive_solver. Qed.

Lemma int_terminates s : int s ≠ Diverge.
Proof. unfold int. by repeat case_match. Qed.

Ltac eof_side := rewrite ?not_elem_of_cons; repeat split; try done;
                 apply not_elem_of_nil.

Lemma inv_at_arg_list_loop fuel args self :
  (length (toks self) - i self < fuel)%nat →
  inv_at 1 (arg_list_loop fuel args) self.
Proof.
  revert args self. induction fuel as [|fuel IH]; intros args self Hfuel;
    [lia|].
  cbn [arg_list_loop].
  apply (inv_at_bind 1 0); [apply inv_at_expect; eof_side|].
  intros tok s1 _ Ht1 Hlo1 Hhi1.
  apply (inv_at_bind 0 0).
  { case_bool_decide.
    - apply (inv_at_bind 0 0); [|intros; apply inv_at_ret].
      apply inv_at_lift; [apply int_terminates|apply int_raises].
    - apply inv_at_ret. }
  intros a s2 _ Ht2 Hlo2 Hhi2.
  apply (inv_at_bind 0 0).
  { apply inv_at_accept. eof_side. }
  intros [c|] s3 _ Ht3 Hlo3 Hhi3; [|apply inv_at_ret].
  apply (inv_at_weaken 1 0); [lia|]. apply IH.
  rewrite Ht3, Ht2, Ht1 in *. lia.
Qed.

Lemma inv_at_arg_list self : inv_at 1 arg_list self.
Proof.
  unfold arg_list. apply inv_at_get, inv_at_arg_list_loop. lia.
Qed.

Lemma inv_at_statement self : inv_at 1 statement self.
Proof.
  unfold statement.
  apply (inv_at_bind 1 0); [apply inv_at_expect; eof_side|]. intros d s1 _ _ _ _.
  apply (inv_at_bind 0 0);
    [eapply inv_at_weaken, inv_at_expect; [lia|eof_side]|]. intros _ s2 _ _ _ _.
  apply (inv_at_bind 0 0);
    [eapply inv_at_weaken, inv_at_expect; [lia|eof_side]|]. intros o s3 _ _ _ _.
  apply (inv_at_bind 0 0);
    [eapply inv_at_weaken, inv_at_arg_list; lia|]. intros a s4 _ _ _ _.
  apply inv_at_ret.
Qed.

Lemma inv_at_block_loop fuel stmts self :
  (length (toks self) - i self < fuel)%nat →
  inv_at 0 (block_loop fuel stmts) self.
Proof.
  revert stmts self. induction fuel as [|fuel IH]; intros stmts self Hfuel;
    [lia|].
  cbn [block_loop]. apply inv_at_get.
  case_bool_decide; [|apply inv_at_ret].
  apply (inv_at_weaken 1 0); [lia|].
  apply (inv_at_bind 1 0); [apply inv_at_statement|].
  intros st s1 _ Ht1 Hlo1 Hhi1.
  apply (inv_at_bind 0 0);
    [eapply inv_at_weaken, inv_at_expect; [lia|eof_side]|].
  intros _ s2 _ Ht2 Hlo2 Hhi2.
  apply IH. rewrite Ht2, Ht1 in *. lia.
Qed.

Lemma inv_at_block self : inv_at 1 block self.
Proof.
  unfold block.
  apply (inv_at_bind 1 0); [apply inv_at_expect; eof_side|]. intros _ s1 _ _ _ _.
  apply (inv_at_bind 0 0);
    [eapply inv_at_weaken, inv_at_expect; [lia|eof_side]|]. intros g s2 _ _ _ _.
  apply (inv_at_bind 0 0);
    [eapply inv_at_weaken, inv_at_expect; [lia|eof_side]|]. intros _ s3 _ _ _ _.
  apply (inv_at_bind 0 0);
    [eapply inv_at_weaken, inv_at_expect; [lia|eof_side]|]. intros _ s4 _ _ _ _.
  apply inv_at_get.
  apply (inv_at_bind 0 0); [apply inv_at_block_loop; lia|]. intros sts s5 _ _ _ _.
  apply (inv_at_bind 0 0);
    [eapply inv_at_weaken, inv_at_expect; [lia|eof_side]|]. intros _ s6 _ _ _ _.
  apply inv_at_ret.
Qed.

Lemma inv_at_parse_loop fuel blocks self :
  (length (toks self) - i self < fuel)%nat →
  inv_at 0 (parse_loop fuel blocks) self.
Proof.
  revert blocks self. induction fuel as [|fuel IH]; intros blocks self Hfuel;
    [lia|].
  cbn [parse_loop]. apply inv_at_get.
  case_bool_decide; [|apply inv_at_ret].
  apply (inv_at_weaken 1 0); [lia|].
  apply (inv_at_bind 1 0); [apply inv_at_block|].
  intros b s1 _ Ht1 Hlo1 Hhi1.
  apply IH. rewrite Ht1. lia.
Qed.

Lemma inv_at_parse self : inv_at 0 parse self.
Proof.
  unfold parse. apply inv_at_get.
  apply (inv_at_bind 0 0); [apply inv_at_parse_loop; lia|]. intros bs s1 _ _ _ _.
  apply inv_at_ret.
Qed.

(** The parser always terminates, and it raises nothing but the errors
    of [expect] and the conversion fault of [int]. *)
Lemma run_outcome tokens :
  match run tokens with
  | Return _ => True
  | Raise e => e = ValueError ∨ expect_error tokens e
  | Diverge => False
  end.
Proof.
  unfold run. pose proof (inv_at_parse (mkState tokens 0)) as H.
  unfold inv_at in H. cbn in H. specialize (H ltac:(lia)).
  unfold mbind, outcome_bind.
  by destruct (parse (mkState tokens 0)) as [[a s]| |].
Qed.

Lemma run_terminates tokens : run tokens ≠ Diverge.
Proof. pose proof (run_outcome tokens). by destruct (run tokens). Qed.
End ParserInvariant.

(** ** The parser against the grammar of the specification *)

(** The methods of the parser are followed along the places of the
    grammar: a method started at place [q] on a token list either returns
    at a place from which the first fault of the list is the same, or
    raises the parse error of that first fault, or the [ValueError] of
    [int] ([tracks]). *)

Lemma follow_EOF q : follow q "EOF" = None.
Proof. by destruct q. Qed.

Lemma follow_None_required q k : follow q k = None → k ∉ required q.
Proof.
  destruct q; cbn; repeat case_bool_decide; try done; intros _;
    rewrite ?not_elem_of_cons; repeat split; try done;
    try apply not_elem_of_nil.
  all: intros ->; match goal with H : _ ∉ _ |- _ => apply H end; set_solver.
Qed.

Lemma fault_at_step q q' tokens i t :
  tokens !! i = Some t → follow q (type t) = Some q' →
  fault_at q tokens i = fault_at q' tokens (S i).
Proof.
  intros Ht Hq. unfold fault_at. rewrite (drop_S _ _ _ Ht). cbn.
  by rewrite Hq.
Qed.

Lemma fault_at_stuck q tokens i :
  follow q (type (peek_at tokens i)) = None →
  fault_at q tokens i = fault_here q (type (peek_at tokens i)) i.
Proof.
  unfold fault_at, peek_at, Parser.peek. cbn [Parser.toks Parser.i].
  rewrite Nat.add_0_r. intros Hq.
  destruct (tokens !! i) as [t|] eqn:Ht.
  - rewrite (drop_S _ _ _ Ht). cbn in *. by rewrite Hq.
  - apply lookup_ge_None in Ht. by rewrite drop_ge by lia.
Qed.

Lemma grammar_fault_from_sound ts :
  ∀ q j0 types j,
    grammar_fault_from q ts j0 = Some (types, j) →
    (j0 ≤ j ≤ j0 + length ts)%nat
    ∧ type (default Parser.EOF (ts !! (j - j0)%nat)) ∉ types.
Proof.
  induction ts as [|t ts IH]; intros q j0 types j; cbn [grammar_fault_from].
  - unfold fault_here. case_bool_decide; [done|]. intros [= <- <-].
    split; [cbn; lia|]. cbn. apply follow_None_required, follow_EOF.
  - destruct (follow q (type t)) as [q'|] eqn:Hq.
    + intros [Hj Hty]%IH. split; [cbn; lia|].
      replace (j - j0)%nat with (S (j - S j0)) by lia. done.
    + unfold fault_here. case_bool_decide; [done|]. intros [= <- <-].
      split; [cbn; lia|]. rewrite Nat.sub_diag. cbn.
      by apply follow_None_required.
Qed.

Section Tracks.
Import Parser.

Lemma peek_at_state self : peek_at (toks self) (i self) = peek self 0.
Proof. by destruct self. Qed.

Lemma tracks_ret {A} q (P : A → state → Prop) (a : A) self :
  P a self → tracks q P (mret a) self.
Proof. by split. Qed.

Lemma tracks_bind {A B} q (P : A → state → Prop) (Q : B → state → Prop)
    (m : M A) (k : A → M B) self :
  tracks q P m self →
  (∀ a self', m self = Return (a, self') → toks self' = toks self → P a self' →
     ∃ q1, fault_at q (toks self) (i self) = fault_at q1 (toks self) (i self')
           ∧ tracks q1 Q (k a) self') →
  tracks q Q (m ≫= k) self.
Proof.
  unfold tracks, mbind, M_bind. intros Hm Hk.
  destruct (m self) as [[a self']|e|]; [|done..].
  destruct Hm as [Ht HP]. destruct (Hk a self' eq_refl Ht HP) as (q1 & Hf & H).
  destruct (k a self') as [[b self'']|e|]; [|clear Hk|done].
  - destruct H as [Ht' HQ]. split; [congruence|done].
  - destruct H as [(types & j & Hfault & ->)|(-> & t & Hin & Hty & Hint)].
    + left. exists types, j. rewrite Hf, <-Ht, Hfault. by rewrite Ht.
    + right. split; [done|]. exists t. by rewrite <-Ht.
Qed.

Lemma tracks_get {A} q (P : A → state → Prop) (k : state → M A) self :
  tracks q P (k self) self → tracks q P (get ≫= k) self.
Proof. done. Qed.

Lemma tracks_expect q q' types self :
  (∀ k, k ∈ types → follow q k = Some q') →
  (type (peek self 0) ∉ types →
     types = required q ∧ follow q (type (peek self 0)) = None
     ∧ ¬ (q = AtBlock ∧ type (peek self 0) = "EOF")) →
  tracks q (λ tok self',
      i self' = S (i self) ∧ toks self !! i self = Some tok
      ∧ type tok ∈ types
      ∧ fault_at q (toks self) (i self) = fault_at q' (toks self) (S (i self)))
    (expect types) self.
Proof.
  intros Hgo Hstuck. unfold tracks, expect, accept, mbind, M_bind.
  case_bool_decide as Hin; cbn.
  - split; [done|]. unfold peek in *. rewrite Nat.add_0_r in *.
    destruct (toks self !! i self) as [t|] eqn:Ht; cbn in *.
    + split; [lia|]. split; [done|]. split; [done|].
      by apply (fault_at_step _ _ _ _ t), Hgo.
    + apply Hgo in Hin. by rewrite follow_EOF in Hin.
  - destruct (Hstuck Hin) as (-> & Hnone & Hnot).
    left. exists (required q), (i self). rewrite peek_at_state.
    split; [|done]. rewrite fault_at_stuck by (by rewrite peek_at_state).
    rewrite peek_at_state. unfold fault_here.
    by rewrite bool_decide_eq_false_2.
Qed.

Lemma tracks_accept_comma self :
  tracks AfterArg (λ r self',
      match r with
      | Some _ =>
          fault_at AfterArg (toks self) (i self)
          = fault_at AtArg (toks self) (i self')
      | None => self' = self ∧ type (peek self 0) ≠ "COMMA"
      end)
    (accept ["COMMA"]) self.
Proof.
  unfold tracks, accept. case_bool_decide as Hin; cbn.
  - split; [done|]. apply list_elem_of_singleton in Hin.
    unfold peek in Hin. rewrite Nat.add_0_r in Hin.
    destruct (toks self !! i self) as [t|] eqn:Ht; [|done]. cbn in Hin.
    rewrite Nat.add_1_r. apply (fault_at_step _ _ _ _ t); [done|].
    by rewrite Hin.
  - split; [done|]. split; [done|]. intros Heq. apply Hin. rewrite Heq.
    apply list_elem_of_here.
Qed.

Lemma tracks_int q tok self :
  tok ∈ toks self → type tok = "NUMBER" →
  tracks q (λ _ self', self' = self) (lift (int (value tok))) self.
Proof.
  intros Hin Hty. unfold tracks, lift, mbind, outcome_bind.
  destruct (int (value tok)) as [n|e|] eqn:Hint; [done| |done].
  right. apply int_raises in Hint as Heq. subst e.
  split; [done|]. by exists tok.
Qed.

Lemma tracks_arg_list_loop fuel :
  ∀ acc self,
    tracks AtArg (λ _ self',
        fault_at AtArg (toks self) (i self)
        = fault_at AfterArg (toks self) (i self')
        ∧ type (peek self' 0) ≠ "COMMA")
      (arg_list_loop fuel acc) self.
Proof.
  induction fuel as [|fuel IH]; intros acc self; [done|].
  cbn [arg_list_loop].
  eapply tracks_bind.
  { apply (tracks_expect AtArg AfterArg).
    - intros k Hk. cbn. by rewrite bool_decide_eq_true_2.
    - intros Hk. split; [done|]. split; [|by intros [? _]].
      cbn. by rewrite bool_decide_eq_false_2. }
  intros tok s1 _ Ht1 (Hi1 & Htok & Hty & Hf1).
  exists AfterArg. rewrite Hi1. split; [done|].
  eapply tracks_bind.
  { instantiate (1 := λ _ self', self' = s1).
    case_bool_decide as Hnum.
    - eapply tracks_bind.
      + apply (tracks_int AfterArg tok); [|done].
        rewrite Ht1. by eapply list_elem_of_lookup_2.
      + intros n s2 _ _ ->. exists AfterArg. split; [done|].
        by apply tracks_ret.
    - by apply tracks_ret. }
  intros a s2 _ _ ->. exists AfterArg. split; [done|].
  eapply tracks_bind; [apply tracks_accept_comma|].
  intros [c|] s3 _ Ht3 H3.
  - exists AtArg. split; [by rewrite Ht1 in *|].
    specialize (IH (acc ++ [a]) s3). unfold tracks in *.
    destruct (arg_list_loop fuel (acc ++ [a]) s3) as [[r s4]|e|]; [|done..].
    destruct IH as (Ht4 & Hf4 & Hc4). split; [done|]. split; [|done].
    rewrite Ht1 in H3. rewrite Hf1, <-Hi1, H3. rewrite <-Ht1, <-Ht3. done.
  - destruct H3 as [-> Hc]. exists AfterArg. split; [done|].
    apply tracks_ret. split; [|done]. by rewrite Hf1, Hi1.
Qed.

Ltac kinds :=
  repeat match goal with
  | H : _ ∈ [] |- _ => by apply elem_of_nil in H
  | H : _ ∈ _ :: _ |- _ => apply elem_of_cons in H as [->|H]
  | H : _ ∉ [] |- _ => clear H
  | H : _ ∉ _ :: _ |- _ => apply not_elem_of_cons in H as [? H]
  end.

Ltac expect_at q q' :=
  apply (tracks_expect q q');
  [ intros k Hk; kinds; done
  | intros Hk; split; [done|]; split; [|by intros [? ?]];
    cbn; try (by rewrite bool_decide_eq_false_2);
    kinds; by rewrite !bool_decide_eq_false_2 ].

Lemma tracks_statement self :
  type (peek self 0) ≠ "RBRACE" →
  tracks AtStatement (λ _ self',
      fault_at AtStatement (toks self) (i self)
      = fault_at AfterArg (toks self) (i self')
      ∧ type (peek self' 0) ≠ "COMMA")
    statement self.
Proof.
  intros Hrb. unfold statement.
  eapply tracks_bind; [expect_at AtStatement AtColon|].
  intros d s1 _ Ht1 (Hi1 & _ & _ & Hf1).
  exists AtColon. rewrite Hi1. split; [done|].
  eapply tracks_bind; [expect_at AtColon AtOpcode|].
  intros c s2 _ Ht2 (Hi2 & _ & _ & Hf2).
  exists AtOpcode. rewrite Hi2. split; [done|].
  eapply tracks_bind; [expect_at AtOpcode AtArg|].
  intros o s3 _ Ht3 (Hi3 & _ & _ & Hf3).
  exists AtArg. rewrite Hi3. split; [done|].
  eapply tracks_bind.
  { unfold arg_list. apply tracks_get, tracks_arg_list_loop. }
  intros a s4 _ Ht4 (Hf4 & Hc4).
  exists AfterArg. split; [done|]. apply tracks_ret. split; [|done].
  rewrite Hf1, <-Hi1, <-Ht1, Hf2, <-Hi2, <-Ht2, Hf3, <-Hi3, <-Ht3, Hf4.
  by rewrite Ht3, Ht2, Ht1.
Qed.

Lemma tracks_block_loop fuel :
  ∀ stmts self,
    tracks AtStatement (λ _ self',
        fault_at AtStatement (toks self) (i self)
        = fault_at AtStatement (toks self) (i self')
        ∧ type (peek self' 0) = "RBRACE")
      (block_loop fuel stmts) self.
Proof.
  assert (∀ (stmts : list Statement) self,
            type (peek self 0) = "RBRACE" →
            tracks AtStatement (λ _ self',
                fault_at AtStatement (toks self) (i self)
                = fault_at AtStatement (toks self) (i self')
                ∧ type (peek self' 0) = "RBRACE")
              (mret stmts : M _) self) as Hdone.
  { intros stmts self Hrb. by apply tracks_ret. }
  induction fuel as [|fuel IH]; intros stmts self; cbn [block_loop];
    apply tracks_get; case_bool_decide as Hcond;
    [done|apply Hdone; by destruct (decide (type (peek self 0) = "RBRACE"))
    | |apply Hdone; by destruct (decide (type (peek self 0) = "RBRACE"))].
  eapply tracks_bind; [by apply tracks_statement|].
  intros st s1 _ Ht1 (Hf1 & Hc1).
  exists AfterArg. split; [done|].
  eapply tracks_bind; [expect_at AfterArg AtStatement|].
  intros c s2 _ Ht2 (Hi2 & _ & _ & Hf2).
  exists AtStatement. rewrite Hi2. split; [done|].
  specialize (IH (stmts ++ [st]) s2). unfold tracks in *.
  destruct (block_loop fuel (stmts ++ [st]) s2) as [[r s3]|e|]; [|done..].
  destruct IH as (Ht3 & Hf3 & Hc3). split; [done|]. split; [|done].
  rewrite Hf1, <-Ht1, Hf2, <-Hi2, <-Ht2, Hf3. by rewrite Ht2, Ht1.
Qed.

Lemma tracks_block self :
  type (peek self 0) ≠ "EOF" →
  tracks AtBlock (λ _ self',
      fault_at AtBlock (toks self) (i self)
      = fault_at AtBlock (toks self) (i self'))
    block self.
Proof.
  intros Heof. unfold block.
  eapply tracks_bind; [expect_at AtBlock AtGate|].
  intros a s1 _ Ht1 (Hi1 & _ & _ & Hf1).
  exists AtGate. rewrite Hi1. split; [done|].
  eapply tracks_bind; [expect_at AtGate AtRBracket|].
  intros g s2 _ Ht2 (Hi2 & _ & _ & Hf2).
  exists AtRBracket. rewrite Hi2. split; [done|].
  eapply tracks_bind; [expect_at AtRBracket AtLBrace|].
  intros b s3 _ Ht3 (Hi3 & _ & _ & Hf3).
  exists AtLBrace. rewrite Hi3. split; [done|].
  eapply tracks_bind; [expect_at AtLBrace AtStatement|].
  intros c s4 _ Ht4 (Hi4 & _ & _ & Hf4).
  exists AtStatement. rewrite Hi4. split; [done|].
  apply tracks_get.
  eapply tracks_bind; [apply tracks_block_loop|].
  intros sts s5 _ Ht5 (Hf5 & Hrb).
  exists AtStatement. split; [done|].
  eapply tracks_bind.
  { apply (tracks_expect AtStatement AtBlock).
    - intros k ->%list_elem_of_singleton. done.
    - intros Hk. exfalso. apply Hk. rewrite Hrb. apply list_elem_of_here. }
  intros d s6 _ Ht6 (Hi6 & _ & _ & Hf6).
  exists AtBlock. rewrite Hi6. split; [done|]. apply tracks_ret.
  rewrite Hf1, <-Hi1, <-Ht1, Hf2, <-Hi2, <-Ht2, Hf3, <-Hi3, <-Ht3, Hf4,
    <-Hi4, <-Ht4, Hf5, <-Ht5, Hf6, <-Hi6.
  by rewrite Ht5, Ht4, Ht3, Ht2, Ht1.
Qed.

Lemma tracks_parse_loop fuel :
  ∀ blks self,
    tracks AtBlock (λ _ _, fault_at AtBlock (toks self) (i self) = None)
      (parse_loop fuel blks) self.
Proof.
  assert (∀ (blks : list Block) self,
            type (peek self 0) = "EOF" →
            tracks AtBlock
              (λ _ _, fault_at AtBlock (toks self) (i self) = None)
              (mret blks : M _) self) as Hdone.
  { intros blks self Heof. apply tracks_ret.
    rewrite fault_at_stuck; rewrite peek_at_state, Heof; [|done].
    unfold fault_here. by rewrite bool_decide_eq_true_2. }
  induction fuel as [|fuel IH]; intros blks self; cbn [parse_loop];
    apply tracks_get; case_bool_decide as Hcond;
    [done|apply Hdone; by destruct (decide (type (peek self 0) = "EOF"))
    | |apply Hdone; by destruct (decide (type (peek self 0) = "EOF"))].
  eapply tracks_bind; [by apply tracks_block|].
  intros b s1 _ Ht1 Hf1. exists AtBlock. split; [done|].
  specialize (IH (blks ++ [b]) s1). unfold tracks in *.
  destruct (parse_loop fuel (blks ++ [b]) s1) as [[r s2]|e|]; [|done..].
  destruct IH as (Ht2 & Hf2). split; [done|].
  by rewrite Hf1, <-Ht1, Hf2.
Qed.

(** The result of a run against the grammar. *)
Lemma run_tracks tokens :
  match run tokens with
  | Return _ => grammar_fault tokens = None
  | Raise e => raised AtBlock (mkState tokens 0) e
  | Diverge => False
  end.
Proof.
  pose proof (run_terminates tokens) as Hterm.
  pose proof (tracks_parse_loop (S (length tokens)) [] (mkState tokens 0)) as H.
  unfold tracks in H. unfold run, parse in *.
  change ((get ≫= ?k) ?s) with (k s s) in *. cbn [toks i] in *.
  unfold mbind, M_bind, outcome_bind in *.
  destruct (parse_loop (S (length tokens)) [] (mkState tokens 0))
    as [[r s1]|e|]; [|done..].
  cbn. by destruct H as [_ H].
Qed.
End Tracks.

(** ** Validator *)

Lemma OPS_ARITY_table o n :
  OPS_ARITY !! o = Some n →
  (o, n) ∈ [("SET", 1%nat); ("ADD", 1%nat); ("SUB", 1%nat); ("MUL", 1%nat);
            ("DIV", 1%nat); ("NOT", 1%nat); ("DISPLAY", 1%nat);
            ("COMPARE", 2%nat); ("AND", 2%nat); ("OR", 2%nat); ("XOR", 2%nat);
            ("SHIFT_LEFT", 2%nat); ("SHIFT_RIGHT", 2%nat); ("JUMP_IF", 2%nat);
            ("LOOP", 3%nat)].
Proof. apply elem_of_list_to_map_2. Qed.

Lemma elem_of_add x sym symbols : x ∈ add sym symbols ↔ x ∈ symbols ∨ x = sym.
Proof. unfold add. by rewrite elem_of_union, elem_of_singleton. Qed.

Lemma elem_of_foldl_add_arg x symbols a :
  x ∈ foldl add_arg symbols a ↔ x ∈ symbols ∨ AStr x ∈ a.
Proof.
  revert symbols. induction a as [|y a IH]; intros symbols; cbn.
  - rewrite elem_of_nil. tauto.
  - rewrite IH, elem_of_cons. destruct y as [n|s]; cbn.
    + split; [tauto|]. intros [?|[?|?]]; [tauto|done|tauto].
    + rewrite elem_of_add. split; [naive_solver|].
      intros [?|[[= ->]|?]]; tauto.
Qed.

(** The two ways the check of one statement can fail, and what it adds to
    the symbols when it does not. *)
Lemma semantic_stmt_cases blk symbols st :
  match semantic_stmt blk symbols st with
  | Return symbols' =>
      OPS_ARITY !! op st = Some (length (args st))
      ∧ ∀ x, x ∈ symbols' ↔ x ∈ symbols ∨ mentions st x
  | Raise e =>
      (OPS_ARITY !! op st = None ∧ e = SemanticError (unknown_op_msg blk st))
      ∨ (∃ exp, OPS_ARITY !! op st = Some exp ∧ length (args st) ≠ exp
                ∧ e = SemanticError (arity_msg st exp))
  | Diverge => False
  end.
Proof.
  unfold semantic_stmt. destruct (OPS_ARITY !! op st) as [exp|]; [|by left].
  case_bool_decide as Hlen; [right; by exists exp|].
  split; [by rewrite Hlen|].
  intros x. rewrite elem_of_foldl_add_arg, elem_of_add. unfold mentions. tauto.
Qed.

Lemma semantic_block_cases blk sts symbols :
  match for_each sts (semantic_stmt blk) symbols with
  | Return symbols' =>
      (∀ st, st ∈ sts → OPS_ARITY !! op st = Some (length (args st)))
      ∧ ∀ x, x ∈ symbols' ↔ x ∈ symbols ∨ ∃ st, st ∈ sts ∧ mentions st x
  | Raise e => ∃ st, st ∈ sts ∧ stmt_error blk st e
  | Diverge => False
  end.
Proof.
  revert symbols. induction sts as [|st sts IH]; intros symbols; cbn.
  - split; [by intros ? ?%elem_of_nil|]. intros x. split; [tauto|].
    by intros [?|(? & ?%elem_of_nil & _)].
  - pose proof (semantic_stmt_cases blk symbols st) as Hst.
    unfold mbind, outcome_bind.
    destruct (semantic_stmt blk symbols st) as [s1|e|]; [|..|done].
    + specialize (IH s1).
      destruct (for_each sts (semantic_stmt blk) s1) as [s2|e|]; [|..|done].
      * destruct Hst as [Hop Hs1], IH as [Hops Hs2]. split.
        { intros st' [->|?]%elem_of_cons; auto. }
        intros x. rewrite Hs2, Hs1. setoid_rewrite elem_of_cons.
        naive_solver.
      * destruct IH as (st' & ? & ?). exists st'. by rewrite elem_of_cons; auto.
    + exists st. split; [apply list_elem_of_here|done].
Qed.

Lemma semantic_blocks_cases blks symbols :
  match for_each blks
          (λ symbols blk, for_each (statements blk) (semantic_stmt blk) symbols)
          symbols with
  | Return symbols' =>
      (∀ blk st, blk ∈ blks → st ∈ statements blk →
         OPS_ARITY !! op st = Some (length (args st)))
      ∧ ∀ x, x ∈ symbols' ↔
             x ∈ symbols ∨ ∃ blk st, blk ∈ blks ∧ st ∈ statements blk
                                      ∧ mentions st x
  | Raise e => ∃ blk st, blk ∈ blks ∧ st ∈ statements blk ∧ stmt_error blk st e
  | Diverge => False
  end.
Proof.
  revert symbols. induction blks as [|blk blks IH]; intros symbols; cbn.
  - split; [by intros ?? ?%elem_of_nil|]. intros x. split; [tauto|].
    by intros [?|(? & ? & ?%elem_of_nil & _)].
  - pose proof (semantic_block_cases blk (statements blk) symbols) as Hblk.
    unfold mbind, outcome_bind.
    destruct (for_each (statements blk) (semantic_stmt blk) symbols)
      as [s1|e|]; [|..|done].
    + specialize (IH s1).
      destruct (for_each blks _ s1) as [s2|e|]; [|..|done].
      * destruct Hblk as [Hop Hs1], IH as [Hops Hs2]. split.
        { intros blk' st' [->|?]%elem_of_cons ?; eauto. }
        intros x. rewrite Hs2, Hs1. setoid_rewrite elem_of_cons.
        naive_solver.
      * destruct IH as (blk' & st' & ? & ? & ?). exists blk', st'.
        by rewrite elem_of_cons; auto.
    + destruct Hblk as (st & ? & ?). exists blk, st.
      split; [apply list_elem_of_here|done].
Qed.

(** The validator never diverges; its result, success or error, is
    described by the statements of the program. *)
Lemma semantic_cases root :
  match semantic root with
  | Return syms =>
      (∀ blk st, blk ∈ blocks root → st ∈ statements blk →
         OPS_ARITY !! op st = Some (length (args st)))
      ∧ ∃ symbols : gset string,
          syms = sorted symbols ∧ ∀ x, x ∈ symbols ↔ symbol_of root x
  | Raise e =>
      ∃ blk st, blk ∈ blocks root ∧ st ∈ statements blk ∧ stmt_error blk st e
  | Diverge => False
  end.
Proof.
  unfold semantic, semantic_symbols.
  pose proof (semantic_blocks_cases (blocks root) ∅) as H.
  unfold mbind, outcome_bind. destruct (for_each _ _ _) as [s|e|]; [|done..].
  destruct H as [Hops Hs]. split; [done|]. exists s. split; [done|].
  intros x. rewrite Hs. unfold symbol_of. set_solver.
Qed.

Lemma elem_of_sorted x (symbols : gset string) : x ∈ sorted symbols ↔ x ∈ symbols.
Proof. unfold sorted. by rewrite merge_sort_Permutation, elem_of_elements. Qed.

Lemma NoDup_sorted (symbols : gset string) : NoDup (sorted symbols).
Proof. unfold sorted. rewrite merge_sort_Permutation. apply NoDup_elements. Qed.

Lemma StronglySorted_sorted (symbols : gset string) :
  StronglySorted String.le (sorted symbols).
Proof. unfold sorted. apply StronglySorted_merge_sort; apply _. Qed.

(** ** Emitter *)

Lemma E_bind_Return {A B} (m : E A) (k : A → E B) ws b :
  m ≫= k = (ws, Return b) →
  ∃ ws1 a ws2, m = (ws1, Return a) ∧ k a = (ws2, Return b) ∧ ws = ws1 ++ ws2.
Proof.
  unfold mbind, E_bind. destruct m as [ws1 [a|e|]]; [|done..].
  destruct (k a) as [ws2 r] eqn:Hk. intros [= <- ->]. by exists ws1, a, ws2.
Qed.

Lemma E_bind_intro {A B} (m : E A) (k : A → E B) ws1 a ws2 r :
  m = (ws1, Return a) → k a = (ws2, r) → m ≫= k = (ws1 ++ ws2, r).
Proof. intros -> Hk. unfold mbind, E_bind. by rewrite Hk. Qed.

Lemma for_write_app {A S} (xs ys : list A) (body : S → A → E S) s :
  for_write (xs ++ ys) body s = for_write xs body s ≫= for_write ys body.
Proof.
  revert s. induction xs as [|x xs IH]; intros s; cbn.
  - unfold mret, E_ret, mbind, E_bind. cbn. by destruct (for_write ys body s).
  - unfold mbind, E_bind in *. destruct (body s x) as [ws1 [s1|e|]]; [|done..].
    rewrite IH. destruct (for_write xs body s1) as [ws2 [s2|e|]]; [|done..].
    destruct (for_write ys body s2) as [ws3 r]. by rewrite app_assoc.
Qed.

Lemma for_write_decls syms :
  for_write syms (λ _ s, write (decl s)) () = (decl <$> syms, Return ()).
Proof.
  induction syms as [|s syms IH]; [done|]. cbn [for_write].
  by erewrite E_bind_intro; [|done|apply IH].
Qed.

(** [emit] writes the prologue, then the blocks with the label counter
    starting at zero, then the epilogue unless an exception cut it short. *)
Lemma emit_unfold root syms :
  emit root syms =
  match emit_blocks (blocks root) 0 with
  | (ws, Return _) => (prologue syms ++ ws ++ [epilogue], Return ())
  | (ws, Raise e) => (prologue syms ++ ws, Raise e)
  | (ws, Diverge) => (prologue syms ++ ws, Diverge)
  end.
Proof.
  unfold emit. fold (decl). change (for_write syms _ ()) with
    (for_write syms (λ _ s, write (decl s)) ()).
  rewrite for_write_decls. fold (emit_blocks (blocks root) 0).
  unfold mbind, E_bind, write, prologue, epilogue. cbn.
  destruct (emit_blocks (blocks root) 0) as [ws [l|e|]]; cbn;
    by rewrite <-?app_assoc.
Qed.

(** A statement that returns has written exactly one chunk, and has moved
    the label counter by one when it is a LOOP and not at all otherwise. *)
Lemma emit_stmt_Return st lbl ws lbl' :
  emit_stmt st lbl = (ws, Return lbl') →
  (∃ chunk, ws = [chunk]) ∧ lbl' = (lbl + loops_in [st])%nat.
Proof.
  unfold emit_stmt, loops_in. rewrite filter_cons, filter_nil.
  destruct (decide (op st = "LOOP")) as [Hop|Hop].
  - rewrite Hop. cbn.
    destruct (args st) as [|? [|? [|? [|]]]]; cbn; intros [= <- <-];
      (split; [by eexists|lia]).
  - repeat (case_bool_decide; [cbn; intros [= <- <-]; split; [by eexists|cbn; lia]|]).
    case_bool_decide.
    { destruct (args st !! 1%nat); cbn; intros [= <- <-].
      split; [by eexists|cbn; lia]. }
    repeat (case_bool_decide; [cbn; intros [= <- <-]; split; [by eexists|cbn; lia]|]).
    by case_bool_decide.
Qed.

Lemma loops_in_app sts1 sts2 :
  loops_in (sts1 ++ sts2) = (loops_in sts1 + loops_in sts2)%nat.
Proof. unfold loops_in. by rewrite filter_app, length_app. Qed.

Lemma loops_in_cons_LOOP st sts :
  op st = "LOOP" → loops_in (st :: sts) = S (loops_in sts).
Proof. intros Hop. unfold loops_in. by rewrite filter_cons_True. Qed.

Lemma flat_app blks1 blks2 : flat (blks1 ++ blks2) = flat blks1 ++ flat blks2.
Proof. unfold flat. by rewrite fmap_app, concat_app. Qed.

Lemma flat_cons blk blks : flat (blk :: blks) = statements blk ++ flat blks.
Proof. done. Qed.

Lemma emit_stmts_Return sts lbl ws lbl' :
  emit_stmts sts lbl = (ws, Return lbl') →
  length ws = length sts ∧ lbl' = (lbl + loops_in sts)%nat.
Proof.
  unfold emit_stmts. revert lbl ws.
  induction sts as [|st sts IH]; intros lbl ws; cbn [for_write].
  - intros [= <- <-]. split; [done|]. unfold loops_in. cbn. lia.
  - intros (ws1 & l1 & ws2 & H1 & H2 & ->)%E_bind_Return.
    apply emit_stmt_Return in H1 as [[chunk ->] ->].
    apply IH in H2 as [Hlen ->].
    change (st :: sts) with ([st] ++ sts). rewrite loops_in_app.
    cbn. split; [by rewrite Hlen|lia].
Qed.

Lemma emit_blocks_Return blks lbl ws lbl' :
  emit_blocks blks lbl = (ws, Return lbl') →
  length ws = (length blks + length (flat blks))%nat
  ∧ lbl' = (lbl + loops_in (flat blks))%nat.
Proof.
  unfold emit_blocks. revert lbl ws.
  induction blks as [|blk blks IH]; intros lbl ws; cbn [for_write].
  - intros [= <- <-]. split; [done|]. unfold loops_in. cbn. lia.
  - intros (ws1 & l1 & ws2 & H1 & H2 & ->)%E_bind_Return.
    apply E_bind_Return in H1 as (w & [] & ws3 & [= <-] & H1 & ->).
    apply emit_stmts_Return in H1 as [Hlen1 ->].
    apply IH in H2 as [Hlen2 ->].
    rewrite flat_cons, loops_in_app, !length_app, Hlen1, Hlen2. cbn.
    split; lia.
Qed.

(** The chunk written for a LOOP statement carries the value of the label
    counter at that point as the suffix of both labels. *)
Lemma emit_stmt_LOOP st lbl ws lbl' :
  op st = "LOOP" → emit_stmt st lbl = (ws, Return lbl') →
  ∃ ctr step acc, args st = [ctr; step; acc]
                  ∧ ws = [loop_group lbl ctr step acc].
Proof.
  intros Hop. unfold emit_stmt. rewrite Hop. cbn.
  destruct (args st) as [|ctr [|step [|acc [|]]]]; cbn; intros [= <- <-].
  by exists ctr, step, acc.
Qed.

Lemma emit_stmts_LOOP sts1 st sts2 lbl ws lbl' :
  op st = "LOOP" →
  emit_stmts (sts1 ++ st :: sts2) lbl = (ws, Return lbl') →
  ∃ ctr step acc,
    args st = [ctr; step; acc]
    ∧ ws !! length sts1
      = Some (loop_group (lbl + loops_in sts1) ctr step acc).
Proof.
  intros Hop. unfold emit_stmts. rewrite for_write_app.
  intros (ws1 & l1 & ws2 & H1 & H2 & ->)%E_bind_Return.
  apply emit_stmts_Return in H1 as [Hlen ->].
  cbn [for_write] in H2.
  apply E_bind_Return in H2 as (ws3 & l3 & ws4 & H3 & _ & ->).
  apply emit_stmt_LOOP in H3 as (ctr & step & acc & Hargs & ->); [|done].
  exists ctr, step, acc. split; [done|].
  rewrite <-Hlen. cbn. by rewrite list_lookup_middle.
Qed.

Lemma emit_blocks_LOOP blks1 blk blks2 sts1 st sts2 lbl ws lbl' :
  op st = "LOOP" →
  statements blk = sts1 ++ st :: sts2 →
  emit_blocks (blks1 ++ blk :: blks2) lbl = (ws, Return lbl') →
  ∃ ctr step acc,
    args st = [ctr; step; acc]
    ∧ ws !! (length blks1 + length (flat blks1) + 1 + length sts1)%nat
      = Some (loop_group (lbl + loops_in (flat blks1 ++ sts1)) ctr step acc).
Proof.
  intros Hop Hsts. unfold emit_blocks. rewrite for_write_app.
  intros (ws1 & l1 & ws2 & H1 & H2 & ->)%E_bind_Return.
  apply emit_blocks_Return in H1 as [Hlen ->].
  cbn [for_write] in H2.
  apply E_bind_Return in H2 as (ws3 & l3 & ws4 & H3 & _ & ->).
  apply E_bind_Return in H3 as (w & [] & ws5 & [= <-] & H3 & ->).
  rewrite Hsts in H3.
  apply emit_stmts_LOOP in H3 as (ctr & step & acc & Hargs & Hlook); [|done].
  exists ctr, step, acc. split; [done|].
  rewrite loops_in_app, Nat.add_assoc, <-Hlen, <-Hlook.
  rewrite <-Nat.add_assoc, lookup_app_r by lia.
  replace (length ws1 + (1 + length sts1) - length ws1)%nat
    with (S (length sts1)) by lia.
  rewrite <-app_assoc. cbn.
  apply lookup_app_l. by apply lookup_lt_Some in Hlook.
Qed.

Lemma label_suffix_inj (name : string) (k k' : nat) :
  name +:+ str_nat k = name +:+ str_nat k' → k = k'.
Proof. intros H%(inj (String.app name)). by apply (inj pretty) in H. Qed.

(** A statement whose opcode is in the table, with the number of arguments
    the table declares, is always implemented by the emitter. *)
Lemma emit_stmt_total st lbl :
  OPS_ARITY !! op st = Some (length (args st)) →
  ∃ chunk lbl', emit_stmt st lbl = ([chunk], Return lbl').
Proof.
  intros H%OPS_ARITY_table. unfold emit_stmt.
  repeat (apply elem_of_cons in H as [[= Hop Hlen]|H];
          [rewrite Hop; cbn;
           destruct (args st) as [|a1 [|a2 [|a3 [|]]]]; try done;
           by eexists _, _|]).
  by apply elem_of_nil in H.
Qed.

Lemma emit_stmts_total sts lbl :
  (∀ st, st ∈ sts → OPS_ARITY !! op st = Some (length (args st))) →
  ∃ ws lbl', emit_stmts sts lbl = (ws, Return lbl').
Proof.
  unfold emit_stmts. revert lbl.
  induction sts as [|st sts IH]; intros lbl Hok; [by eexists _, _|].
  destruct (emit_stmt_total st lbl) as (chunk & l1 & H1).
  { apply Hok, list_elem_of_here. }
  destruct (IH l1) as (ws & l2 & H2).
  { intros st' ?. apply Hok. by apply list_elem_of_further. }
  exists ([chunk] ++ ws), l2. cbn [for_write]. by eapply E_bind_intro.
Qed.

Lemma emit_blocks_total blks lbl :
  (∀ blk st, blk ∈ blks → st ∈ statements blk →
     OPS_ARITY !! op st = Some (length (args st))) →
  ∃ ws lbl', emit_blocks blks lbl = (ws, Return lbl').
Proof.
  unfold emit_blocks. revert lbl.
  induction blks as [|blk blks IH]; intros lbl Hok; [by eexists _, _|].
  destruct (emit_stmts_total (statements blk) lbl) as (ws1 & l1 & H1).
  { intros st ?. eapply Hok; [apply list_elem_of_here|done]. }
  destruct (IH l1) as (ws2 & l2 & H2).
  { intros blk' st ??. eapply Hok; [by apply list_elem_of_further|done]. }
  eexists _, l2. cbn [for_write].
  eapply E_bind_intro; [|done]. by eapply E_bind_intro.
Qed.

(** On a program the validator accepts, the emitter runs to the end: it
    writes the prologue for the symbols, the blocks and the epilogue. *)
Lemma emit_total root syms syms' :
  semantic root = Return syms →
  ∃ ws, emit root syms' = (prologue syms' ++ ws ++ [epilogue], Return ()).
Proof.
  intros Hsem. pose proof (semantic_cases root) as H. rewrite Hsem in H.
  destruct H as [Hok _].
  destruct (emit_blocks_total (blocks root) 0 Hok) as (ws & l & Hws).
  exists ws. by rewrite emit_unfold, Hws.
Qed.

(** The validator run on a program of one statement. *)
Lemma semantic_alone g st :
  semantic (mkProgram [mkBlock g [st]])
  = symbols ← semantic_stmt (mkBlock g [st]) ∅ st; mret (sorted symbols).
Proof.
  unfold semantic, semantic_symbols. cbn [blocks statements for_each].
  unfold mbind, outcome_bind. by destruct (semantic_stmt _ _ _).
Qed.

(** The symbols the validator returns are those of the program. *)
Lemma symbols_of_program_in_list root syms :
  semantic root = Return syms → ∀ x, symbol_of root x → x ∈ syms.
Proof.
  intros Hsem x Hx. pose proof (semantic_cases root) as H. rewrite Hsem in H.
  destruct H as (_ & symbols & -> & Hsym). by rewrite elem_of_sorted, Hsym.
Qed.

(** * The claims of the specification *)

(** ** C1 *)

(** C1.  When the validator accepts a program, the list it returns is
    sorted in increasing lexicographic order, has no duplicates, and holds
    exactly the identifiers that occur in the program as the destination
    of a statement or as an identifier argument. *)
Theorem semantic_symbol_list root syms :
  semantic root = Return syms →
  StronglySorted String.le syms
  ∧ NoDup syms
  ∧ ∀ x, x ∈ syms ↔ symbol_of root x.
Proof.
  intros Hsem. pose proof (semantic_cases root) as H. rewrite Hsem in H.
  destruct H as (_ & symbols & -> & Hsym).
  split; [apply StronglySorted_sorted|]. split; [apply NoDup_sorted|].
  intros x. by rewrite elem_of_sorted.
Qed.

Lemma semantic_symbol_list_witness :
  semantic ex_sum = Return ["x"; "y"]
  ∧ StronglySorted String.le ["x"; "y"]
  ∧ NoDup ["x"; "y"]
  ∧ ∀ x, x ∈ ["x"; "y"] ↔ symbol_of ex_sum x.
Proof.
  split; [vm_compute; reflexivity|].
  apply (semantic_symbol_list ex_sum ["x"; "y"]). vm_compute. reflexivity.
Defined.

(** ** C2 *)

(** C2.  For a statement whose opcode is in the arity table, the validator
    raises exactly when the number of arguments differs from the declared
    arity, and the error then starts with the name of the opcode; with the
    declared number of arguments the statement passes.  Stated for the
    check of the statement inside any block and any symbols collected so
    far, and for the validator run on the statement alone. *)
Theorem arity_check blk symbols st exp :
  OPS_ARITY !! op st = Some exp →
  let alone := mkProgram [mkBlock (gate blk) [st]] in
  let err := SemanticError (op st +:+ " expects " +:+ str_nat exp
                            +:+ " arg(s), got " +:+ str_nat (length (args st))) in
  (length (args st) ≠ exp ↔ ∃ e, semantic_stmt blk symbols st = Raise e)
  ∧ (length (args st) ≠ exp ↔ ∃ e, semantic alone = Raise e)
  ∧ (length (args st) ≠ exp →
       semantic_stmt blk symbols st = Raise err ∧ semantic alone = Raise err)
  ∧ (length (args st) = exp →
       (∃ symbols', semantic_stmt blk symbols st = Return symbols')
       ∧ ∃ syms, semantic alone = Return syms).
Proof.
  intros Hop alone err.
  assert (length (args st) ≠ exp →
          semantic_stmt blk symbols st = Raise err ∧ semantic alone = Raise err)
    as Hbad.
  { intros Hlen. unfold alone. rewrite semantic_alone. unfold semantic_stmt.
    rewrite Hop. by rewrite bool_decide_eq_true_2. }
  assert (length (args st) = exp →
          (∃ symbols', semantic_stmt blk symbols st = Return symbols')
          ∧ ∃ syms, semantic alone = Return syms) as Hgood.
  { intros Hlen. unfold alone. rewrite semantic_alone. unfold semantic_stmt.
    rewrite Hop. rewrite bool_decide_eq_false_2 by (by intros ?).
    split; by eexists. }
  split; [|split; [|by split]]; split.
  - intros Hlen. exists err. by apply Hbad.
  - intros [e He] Hlen. destruct (Hgood Hlen) as [[s Hs] _]. congruence.
  - intros Hlen. exists err. by apply Hbad.
  - intros [e He] Hlen. destruct (Hgood Hlen) as [_ [s Hs]]. congruence.
Qed.

Lemma arity_check_witness :
  OPS_ARITY !! op ex_two_args = Some 1%nat
  ∧ length (args ex_two_args) ≠ 1%nat
  ∧ semantic ex_bad_arity
    = Raise (SemanticError "SET expects 1 arg(s), got 2").
Proof.
  split; [vm_compute; reflexivity|]. split; [cbn; lia|].
  destruct (arity_check (mkBlock "start" []) ∅ ex_two_args 1)
    as (_ & _ & Hbad & _); [vm_compute; reflexivity|].
  apply Hbad. cbn. lia.
Defined.

(** ** C3 *)

(** C3.  In a compilation that runs to the end, the chunk written for a
    LOOP statement is the loop group whose two labels carry, as suffix,
    the number of LOOP statements that precede it in the program: the
    counter starts at zero in every compilation, so the numbering depends
    on the program alone.  Two LOOP statements of one program therefore
    get different suffixes, hence different start labels and different end
    labels. *)
Theorem loop_labels_distinct root syms ws :
  emit root syms = (ws, Return ()) →
  (∀ blks1 blk blks2 sts1 st sts2,
     blocks root = blks1 ++ blk :: blks2 →
     statements blk = sts1 ++ st :: sts2 →
     op st = "LOOP" →
     ∃ ctr step acc,
       args st = [ctr; step; acc]
       ∧ ws !! (length (prologue syms) + length blks1 + length (flat blks1)
                + 1 + length sts1)%nat
         = Some (loop_group (loops_in (flat blks1 ++ sts1)) ctr step acc))
  ∧ (∀ before st between st' after,
       flat (blocks root) = before ++ st :: between ++ st' :: after →
       op st = "LOOP" → op st' = "LOOP" →
       let k := loops_in before in
       let k' := loops_in (before ++ st :: between) in
       k ≠ k'
       ∧ ".Lloop" +:+ str_nat k ≠ ".Lloop" +:+ str_nat k'
       ∧ ".Lend" +:+ str_nat k ≠ ".Lend" +:+ str_nat k').
Proof.
  intros Hemit. split.
  - intros blks1 blk blks2 sts1 st sts2 Hblks Hsts Hop.
    rewrite emit_unfold, Hblks in Hemit.
    destruct (emit_blocks (blks1 ++ blk :: blks2) 0) as [wb [l|e|]] eqn:Hwb;
      [|done..].
    assert (ws = prologue syms ++ wb ++ [epilogue]) as -> by congruence.
    destruct (emit_blocks_LOOP _ _ _ _ _ _ _ _ _ Hop Hsts Hwb)
      as (ctr & step & acc & Hargs & Hlook).
    exists ctr, step, acc. split; [done|].
    rewrite <-!Nat.add_assoc, lookup_app_r by lia.
    rewrite Nat.add_comm, Nat.add_sub, Nat.add_assoc.
    cbn [Nat.add] in Hlook.
    rewrite lookup_app_l by (apply lookup_lt_Some in Hlook; lia).
    rewrite <-Hlook. f_equal. lia.
  - intros before st between st' after _ Hop _ k k'.
    assert (k ≠ k') as Hne.
    { unfold k, k'. rewrite loops_in_app, loops_in_cons_LOOP by done. lia. }
    split; [done|]. split; by intros ?%label_suffix_inj.
Qed.

Lemma loop_labels_distinct_witness :
  ∃ ws,
    emit ex_loops ["n"; "s"; "t"; "u"] = (ws, Return ())
    ∧ ws !! 11%nat
      = Some (loop_group 0 (AStr "n") (AInt 2) (AStr "s"))
    ∧ ws !! 13%nat
      = Some (loop_group 1 (AStr "t") (AInt 1) (AStr "s"))
    ∧ ".Lloop" +:+ str_nat 0 ≠ ".Lloop" +:+ str_nat 1
    ∧ ".Lend" +:+ str_nat 0 ≠ ".Lend" +:+ str_nat 1.
Proof.
  eexists. split; [vm_compute; reflexivity|].
  edestruct (loop_labels_distinct ex_loops ["n"; "s"; "t"; "u"])
    as [Hgroup Hdistinct]; [vm_compute; reflexivity|].
  split; [|split].
  - destruct (Hgroup [] (mkBlock "m" [mkStatement "n" "SET" [AInt 3];
                                        ex_first_loop])
                [mkBlock "k" [ex_second_loop]]
                [mkStatement "n" "SET" [AInt 3]] ex_first_loop []
                eq_refl eq_refl eq_refl)
      as (ctr & step & acc & [= <- <- <-] & Hlook).
    exact Hlook.
  - destruct (Hgroup [mkBlock "m" [mkStatement "n" "SET" [AInt 3];
                                     ex_first_loop]]
                (mkBlock "k" [ex_second_loop]) [] [] ex_second_loop []
                eq_refl eq_refl eq_refl)
      as (ctr & step & acc & [= <- <- <-] & Hlook).
    exact Hlook.
  - destruct (Hdistinct [mkStatement "n" "SET" [AInt 3]] ex_first_loop []
                ex_second_loop [] eq_refl eq_refl eq_refl) as (_ & H1 & H2).
    by split.
Defined.

(** ** C4 *)

(** C4.  The instruction group of a JUMP_IF statement is one conditional
    jump to its second argument, and the label counter is left as it was;
    another JUMP_IF statement with the same second argument, whatever its
    destination and its first argument, emits the same text. *)
Theorem jump_if_group st st' target lbl :
  op st = "JUMP_IF" → op st' = "JUMP_IF" →
  args st !! 1%nat = Some target → args st' !! 1%nat = Some target →
  emit_stmt st lbl
  = (["    jne     " +:+ fmt target +:+ "    ; JUMP_IF" +:+ NL], Return lbl)
  ∧ emit_stmt st' lbl = emit_stmt st lbl.
Proof.
  intros Hop Hop' Harg Harg'. unfold emit_stmt.
  rewrite Hop, Hop', Harg, Harg'. by split.
Qed.

Lemma jump_if_group_witness :
  emit_stmt ex_jump_stmt 0
  = (["    jne     top    ; JUMP_IF" +:+ NL], Return 0%nat)
  ∧ emit_stmt (mkStatement "z" "JUMP_IF" [AInt 7; AStr "top"]) 0
    = emit_stmt ex_jump_stmt 0.
Proof.
  apply (jump_if_group ex_jump_stmt
           (mkStatement "z" "JUMP_IF" [AInt 7; AStr "top"]) (AStr "top") 0);
    reflexivity.
Defined.

(** ** C5 *)

(** C5.  The validator accepts a DISPLAY statement exactly when it has one
    argument, alone in a program as well as after any other statements.
    Its instruction group loads the format [fmt_dec] and the argument into
    registers and calls [printf]; the text does not depend on the
    destination [d], whose cell is the target of no instruction of the
    group. *)
Theorem display_group g d a lbl :
  (∀ argv,
     (∃ syms, semantic (mkProgram [mkBlock g [mkStatement d "DISPLAY" argv]])
              = Return syms)
     ↔ length argv = 1%nat)
  ∧ (∀ argv blk symbols,
       (∃ symbols', semantic_stmt blk symbols (mkStatement d "DISPLAY" argv)
                    = Return symbols')
       ↔ length argv = 1%nat)
  ∧ emit_stmt (mkStatement d "DISPLAY" [a]) lbl
    = (["    mov     rcx, fmt_dec" +:+ NL
        +:+ "    mov     rdx, " +:+ val a +:+ NL
        +:+ "    xor     rax, rax" +:+ NL
        +:+ "    call    printf" +:+ NL], Return lbl)
  ∧ ∀ d', emit_stmt (mkStatement d' "DISPLAY" [a]) lbl
          = emit_stmt (mkStatement d "DISPLAY" [a]) lbl.
Proof.
  assert (∀ argv blk symbols,
            (∃ symbols', semantic_stmt blk symbols (mkStatement d "DISPLAY" argv)
                         = Return symbols')
            ↔ length argv = 1%nat) as Hstmt.
  { intros argv blk symbols. unfold semantic_stmt. cbn [op args].
    change (OPS_ARITY !! "DISPLAY") with (Some 1%nat). cbn beta iota.
    case_bool_decide as Hlen.
    - split; [by intros [? [=]]|done].
    - split; [done|]. intros _. by eexists. }
  split; [|by split]. intros argv. rewrite semantic_alone.
  rewrite <-(Hstmt argv (mkBlock g [mkStatement d "DISPLAY" argv]) ∅).
  unfold mbind, outcome_bind.
  destruct (semantic_stmt _ _ _) as [s|e|].
  - split; by eexists.
  - split; by intros [? [=]].
  - split; by intros [? [=]].
Qed.

(** ** C6 *)

(** The line of a position is one more than the number of line feeds
    before it. *)
Lemma advance_line s line col :
  (advance s line col).1 = line + count_char "010" s.
Proof.
  revert line col. induction s as [|c s IH]; intros line col; cbn; [lia|].
  unfold is_newline. case_bool_decide; rewrite IH; lia.
Qed.

Lemma position_line pre : (position pre).1 = 1 + count_char "010" pre.
Proof. apply advance_line. Qed.

(** The column of a position is one more than the number of characters
    since the last line feed. *)
Lemma position_column before last :
  all_chars (λ c, negb (is_newline c)) last = true →
  (position last).2 = 1 + Z.of_nat (String.length last)
  ∧ (position (before +:+ NL +:+ last)).2 = 1 + Z.of_nat (String.length last).
Proof.
  intros Hlast. unfold position. split.
  - by rewrite advance_same_line.
  - rewrite !advance_append. cbn [NL advance].
    change (is_newline "010") with true. cbn [fst snd].
    by rewrite advance_same_line.
Qed.

(** The characters outside the grammar are those that MISMATCH, the last
    alternative of [TOKEN_SPEC], is the one to match. *)
Lemma mismatch_iff x rest :
  (match_at x rest).1.1 = "MISMATCH" ↔ in_grammar x = false.
Proof.
  split.
  - intros Hm. destruct (in_grammar x) eqn:Hx; [|done].
    by destruct (match_at_shape x rest Hx) as (_ & _ & _ & ? & _).
  - intros Hx. by rewrite match_at_mismatch.
Qed.

(** A text that has a character outside the grammar splits at the first
    such character. *)
Lemma first_bad_char src :
  all_chars in_grammar src = false →
  ∃ pre x post,
    src = pre +:+ String x post
    ∧ all_chars in_grammar pre = true ∧ in_grammar x = false.
Proof.
  induction src as [|c src IH]; [done|]. cbn.
  destruct (in_grammar c) eqn:Hc; cbn.
  - intros (pre & x & post & -> & Hpre & Hx)%IH.
    exists (String c pre), x, post. cbn. by rewrite Hc, Hpre.
  - intros _. by exists "", c, src.
Qed.

Lemma first_bad_char_unique pre x post pre' x' post' :
  pre +:+ String x post = pre' +:+ String x' post' →
  all_chars in_grammar pre = true → in_grammar x = false →
  all_chars in_grammar pre' = true → in_grammar x' = false →
  pre = pre' ∧ x = x' ∧ post = post'.
Proof.
  revert pre'. induction pre as [|c pre IH]; intros [|c' pre']; str_simpl.
  - by intros [= -> ->].
  - intros [= -> _] _ Hx [Hc _]%andb_true_iff. congruence.
  - intros [= -> _] [Hc _]%andb_true_iff _ _ Hx. congruence.
  - intros [= -> Heq] [_ Hpre]%andb_true_iff Hx [_ Hpre']%andb_true_iff Hx'.
    destruct (IH pre' Heq Hpre Hx Hpre' Hx') as (-> & -> & ->). done.
Qed.

(** Scanning [pre], inside the grammar, followed by [x], outside it. *)
Lemma lex_prefix_then_error repr pre x post :
  all_chars in_grammar pre = true →
  in_grammar x = false →
  ∃ toks,
    lex repr pre = (toks, None)
    ∧ lex repr (pre +:+ String x post)
      = (toks, Some (unexpected_char repr x (position pre).1 (position pre).2)).
Proof.
  intros Hpre Hx. unfold lex, finditer.
  destruct (lex_loop_prefix repr x post (String.length pre) Hx pre 0 1 0
              (String.length (pre +:+ String x post)) (String.length pre))
    as (toks & H1 & H2); [done|done|rewrite length_append; cbn; lia|done|].
  by exists toks.
Qed.

(** A text inside the grammar is scanned to its end. *)
Lemma lex_clean repr src :
  all_chars in_grammar src = true → ∃ toks, lex repr src = (toks, None).
Proof.
  intros Hsrc.
  destruct (lex_prefix_then_error repr src "@" "" Hsrc eq_refl)
    as (toks & H & _).
  by exists toks.
Qed.

(** C6.  A source text that has a character matched by no token pattern
    splits into [pre], made of characters of the lexical grammar, the
    first such character [x], and the rest [post].  The scanner yields
    exactly the tokens of [pre], which are the tokens read in [pre] after
    the lexical grammar ([tokens_of]), each at the line and column of its
    first character; then it raises the lexical error that reports [x]
    with the 1-based line and column of [x].  Nothing of [post] is
    scanned, and the caller that collects the tokens gets the error
    alone. *)
Theorem lex_error_at_first_bad_char repr src :
  all_chars in_grammar src = false →
  ∃ pre x post,
    src = pre +:+ String x post
    ∧ all_chars in_grammar pre = true
    ∧ in_grammar x = false
    ∧ lex repr pre = (tokens_of pre, None)
    ∧ let err := SyntaxError ("Unexpected char " +:+ repr (String x "")
                              +:+ " @ " +:+ str_int (position pre).1
                              +:+ ":" +:+ str_int (position pre).2) in
      lex repr src = (tokens_of pre, Some err)
      ∧ list_lex repr src = Raise err.
Proof.
  intros (pre & x & post & -> & Hpre & Hx)%first_bad_char.
  destruct (lex_prefix_then_error repr pre x post Hpre Hx) as (toks & H1 & H2).
  assert (toks = tokens_of pre) as ->.
  { by rewrite <-(lex_tokens_of repr pre), H1. }
  exists pre, x, post. repeat split; try done.
  unfold list_lex. by rewrite H2.
Qed.

Lemma lex_error_at_first_bad_char_witness :
  all_chars in_grammar (ex_before_at +:+ String "@" ex_after_at) = false
  ∧ position ex_before_at = (2, 11)
  ∧ tokens_of ex_before_at
    = [ mkToken "LBRACKET" "[" 1 1; mkToken "IDENT" "start" 1 2;
        mkToken "RBRACKET" "]" 1 7; mkToken "LBRACE" "{" 1 8;
        mkToken "IDENT" "x" 1 10; mkToken "COLON" ":" 1 12;
        mkToken "IDENT" "SET" 1 14; mkToken "NUMBER" "5" 1 18;
        mkToken "SEMI" ";" 1 19; mkToken "IDENT" "y" 2 3;
        mkToken "COLON" ":" 2 5; mkToken "IDENT" "ADD" 2 7 ]
  ∧ lex repr_printable (ex_before_at +:+ String "@" ex_after_at)
    = (tokens_of ex_before_at,
       Some (SyntaxError "Unexpected char '@' @ 2:11")).
Proof.
  split; [vm_compute; reflexivity|]. split; [vm_compute; reflexivity|].
  split; [vm_compute; reflexivity|].
  destruct (lex_error_at_first_bad_char repr_printable
              (ex_before_at +:+ String "@" ex_after_at))
    as (pre & x & post & Hsrc & Hpre & Hx & _ & H2 & _);
    [vm_compute; reflexivity|].
  destruct (first_bad_char_unique pre x post ex_before_at "@" ex_after_at)
    as (-> & -> & _); [by rewrite <-Hsrc|done|done|reflexivity|reflexivity|].
  rewrite H2. vm_compute. reflexivity.
Defined.

(** ** C7 *)

(** C7, as stated, fails.  An identifier and a number found where a block
    must start give the same parse error, which mentions neither the
    lexeme nor the kind of the token found. *)
Lemma parse_error_omits_token :
  lex repr_printable "foo" = ([mkToken "IDENT" "foo" 1 1], None)
  ∧ lex repr_printable "42" = ([mkToken "NUMBER" "42" 1 1], None)
  ∧ Parser.run [mkToken "IDENT" "foo" 1 1]
    = Raise (ParseError "Expected LBRACKET at 1:1")
  ∧ Parser.run [mkToken "NUMBER" "42" 1 1]
    = Raise (ParseError "Expected LBRACKET at 1:1")
  ∧ contains "foo" "Expected LBRACKET at 1:1" = false
  ∧ contains "IDENT" "Expected LBRACKET at 1:1" = false.
Proof.
  split; [|split; [|split; [|split; [|split]]]]; vm_compute; reflexivity.
Qed.

(** C7, amended.  Every parse error carries the expected kinds, joined by
    a slash, and the line and column of the offending token.  Both are
    fixed by the grammar: reading the tokens from the start of the
    program, the offending token is the first one, at index [j], of a kind
    the grammar has no token of at that place, and the expected kinds are
    those required at that place ([grammar_fault]).  At the end of the
    input the offending token is the end-of-input token, whose line and
    column are -1. *)
Theorem parse_error_shape tokens msg :
  Parser.run tokens = Raise (ParseError msg) →
  ∃ types j,
    grammar_fault tokens = Some (types, j)
    ∧ (j ≤ length tokens)%nat
    ∧ let p := default Parser.EOF (tokens !! j) in
      (type p ∉ types)
      ∧ msg = "Expected " +:+ join "/" types +:+ " at "
              +:+ str_int (line p) +:+ ":" +:+ str_int (col p).
Proof.
  intros Hrun. pose proof (run_tracks tokens) as H. rewrite Hrun in H.
  destruct H as [(types & j & Hfault & [= ->])|[[=] _]].
  exists types, j. unfold fault_at in Hfault. cbn [Parser.toks Parser.i] in *.
  rewrite drop_0 in Hfault. split; [done|].
  destruct (grammar_fault_from_sound _ _ _ _ _ Hfault) as [Hj Hty].
  rewrite Nat.sub_0_r in Hty. split; [lia|]. split; [done|].
  unfold expected_msg, peek_at, Parser.peek.
  cbn [Parser.toks Parser.i]. by rewrite Nat.add_0_r.
Qed.

Lemma parse_error_shape_witness :
  Parser.run ex_missing_arg = Raise (ParseError "Expected IDENT/NUMBER at 1:14")
  ∧ grammar_fault ex_missing_arg = Some (["IDENT"; "NUMBER"], 7%nat)
  ∧ ex_missing_arg !! 7%nat = Some (mkToken "RBRACE" "}" 1 14)
  ∧ ∃ types j,
      grammar_fault ex_missing_arg = Some (types, j)
      ∧ (j ≤ length ex_missing_arg)%nat
      ∧ let p := default Parser.EOF (ex_missing_arg !! j) in
        (type p ∉ types)
        ∧ "Expected IDENT/NUMBER at 1:14"
          = "Expected " +:+ join "/" types +:+ " at "
            +:+ str_int (line p) +:+ ":" +:+ str_int (col p).
Proof.
  split; [vm_compute; reflexivity|]. split; [vm_compute; reflexivity|].
  split; [reflexivity|].
  apply (parse_error_shape ex_missing_arg). vm_compute. reflexivity.
Defined.

(** ** C8 *)

(** C8, as stated, fails.  The error for a wrong number of arguments in
    gate [start] does not mention the gate. *)
Lemma arity_error_omits_gate :
  main repr_printable "[start]{ x : SET 1, 2; }" None
  = (None, Raise (SemanticError "SET expects 1 arg(s), got 2"))
  ∧ semantic ex_bad_arity = Raise (SemanticError "SET expects 1 arg(s), got 2")
  ∧ contains "start" "SET expects 1 arg(s), got 2" = false.
Proof. split; [|split]; vm_compute; reflexivity. Qed.

(** C8, amended.  Every semantic error comes from a statement of the
    program and carries its opcode name; the error for an opcode that is
    not in the table also carries the name of the enclosing gate, the
    error for a wrong number of arguments carries the expected and the
    actual counts. *)
Theorem semantic_error_shape root e :
  semantic root = Raise e →
  ∃ blk st,
    blk ∈ blocks root ∧ st ∈ statements blk
    ∧ ((OPS_ARITY !! op st = None
        ∧ e = SemanticError ("Unknown op " +:+ op st +:+ " in gate ["
                             +:+ gate blk +:+ "]"))
       ∨ (∃ exp,
            OPS_ARITY !! op st = Some exp ∧ length (args st) ≠ exp
            ∧ e = SemanticError (op st +:+ " expects " +:+ str_nat exp
                                 +:+ " arg(s), got "
                                 +:+ str_nat (length (args st))))).
Proof.
  intros Hsem. pose proof (semantic_cases root) as H. by rewrite Hsem in H.
Qed.

Lemma semantic_error_shape_witness :
  semantic ex_bad_arity = Raise (SemanticError "SET expects 1 arg(s), got 2")
  ∧ ∃ blk st,
      blk ∈ blocks ex_bad_arity ∧ st ∈ statements blk
      ∧ ((OPS_ARITY !! op st = None
          ∧ SemanticError "SET expects 1 arg(s), got 2"
            = SemanticError ("Unknown op " +:+ op st +:+ " in gate ["
                             +:+ gate blk +:+ "]"))
         ∨ (∃ exp,
              OPS_ARITY !! op st = Some exp ∧ length (args st) ≠ exp
              ∧ SemanticError "SET expects 1 arg(s), got 2"
                = SemanticError (op st +:+ " expects " +:+ str_nat exp
                                 +:+ " arg(s), got "
                                 +:+ str_nat (length (args st))))).
Proof.
  split; [vm_compute; reflexivity|].
  apply (semantic_error_shape ex_bad_arity). vm_compute. reflexivity.
Defined.

(** ** C9 *)

(** A program with a statement whose opcode is not in the table is never
    accepted by the validator. *)
Lemma semantic_unknown_op root blk st :
  blk ∈ blocks root → st ∈ statements blk → OPS_ARITY !! op st = None →
  ∃ msg, semantic root = Raise (SemanticError msg).
Proof.
  intros Hblk Hst Hop. pose proof (semantic_cases root) as H.
  destruct (semantic root) as [syms|e|]; [|..|done].
  - destruct H as [Hok _]. specialize (Hok blk st Hblk Hst). congruence.
  - destruct H as (blk' & st' & _ & _ & [[_ ->]|(exp & _ & _ & ->)]);
      by eexists.
Qed.

(** C9.  When the source text scans and parses into a program that holds
    a statement with an unknown opcode, [main] ends with a semantic error
    raised by the validator, and the target file is as it was before the
    run: the emitter, which alone opens it, has not been called. *)
Theorem unknown_op_rejected_before_emit repr src_code asm tokens ast blk st :
  list_lex repr src_code = Return tokens →
  Parser.run tokens = Return ast →
  blk ∈ blocks ast → st ∈ statements blk → OPS_ARITY !! op st = None →
  ∃ msg,
    semantic ast = Raise (SemanticError msg)
    ∧ main repr src_code asm = (asm, Raise (SemanticError msg)).
Proof.
  intros Hlex Hparse Hblk Hst Hop.
  destruct (semantic_unknown_op ast blk st Hblk Hst Hop) as [msg Hsem].
  exists msg. split; [done|]. unfold main. by rewrite Hlex, Hparse, Hsem.
Qed.

Lemma unknown_op_rejected_before_emit_witness :
  (∃ tokens,
     list_lex repr_printable ex_unknown_src = Return tokens
     ∧ Parser.run tokens = Return ex_unknown)
  ∧ OPS_ARITY !! op ex_unknown_stmt = None
  ∧ ∃ msg,
      semantic ex_unknown = Raise (SemanticError msg)
      ∧ main repr_printable ex_unknown_src (Some "old text")
        = (Some "old text", Raise (SemanticError msg)).
Proof.
  split.
  { eexists. split; [vm_compute; reflexivity|]. vm_compute. reflexivity. }
  split; [vm_compute; reflexivity|].
  eapply (unknown_op_rejected_before_emit repr_printable ex_unknown_src
            (Some "old text") _ ex_unknown (mkBlock "g" [ex_unknown_stmt])
            ex_unknown_stmt).
  - vm_compute. reflexivity.
  - vm_compute. reflexivity.
  - apply list_elem_of_here.
  - apply list_elem_of_here.
  - vm_compute. reflexivity.
Defined.

(** ** C10 *)

(** C10.  In a program the validator accepts, the identifier [g] that is
    the second argument of a JUMP_IF statement is in the symbol list; the
    emitter, which runs to the end, declares it in the [.bss] section as
    one reserved quadword, at the rank it has in the symbol list; and the
    instruction group of the statement jumps to that same name. *)
Theorem jump_target_declared root syms blk st g lbl :
  semantic root = Return syms →
  blk ∈ blocks root → st ∈ statements blk →
  op st = "JUMP_IF" → args st !! 1%nat = Some (AStr g) →
  g ∈ syms
  ∧ (∃ ws rank,
       emit root syms = (ws, Return ())
       ∧ syms !! rank = Some g
       ∧ ws !! 3%nat = Some ("section .bss" +:+ NL)
       ∧ ws !! (4 + rank)%nat
         = Some ("    " +:+ ljust 16 g +:+ " resq 1" +:+ NL)
       ∧ ws !! (4 + length syms)%nat
         = Some ("section .text" +:+ NL +:+ "    extern printf" +:+ NL
                 +:+ "    global main" +:+ NL +:+ NL +:+ "main:" +:+ NL))
  ∧ emit_stmt st lbl
    = (["    jne     " +:+ g +:+ "    ; JUMP_IF" +:+ NL], Return lbl).
Proof.
  intros Hsem Hblk Hst Hop Harg.
  assert (g ∈ syms) as Hg.
  { apply (symbols_of_program_in_list root syms Hsem).
    exists blk, st. repeat split; [done..|]. right.
    by apply list_elem_of_lookup_2 in Harg. }
  split; [done|]. split.
  - destruct (emit_total root syms syms Hsem) as [ws Hws].
    apply list_elem_of_lookup_1 in Hg as [rank Hrank].
    eexists _, rank. split; [done|]. split; [done|].
    assert (∀ (a b c d : string) l n,
              (a :: b :: c :: d :: l) !! (4 + n)%nat = l !! n) as Hskip by done.
    unfold prologue. rewrite <-!app_assoc. cbn [app].
    split; [done|]. rewrite !Hskip. split.
    + rewrite lookup_app_l by (rewrite length_fmap; by apply lookup_lt_Some in Hrank).
      by rewrite list_lookup_fmap, Hrank.
    + rewrite lookup_app_r by (rewrite length_fmap; lia).
      by rewrite length_fmap, Nat.sub_diag.
  - unfold emit_stmt. rewrite Hop, Harg. done.
Qed.

Lemma jump_target_declared_witness :
  semantic ex_jump = Return ["a"; "b"; "c"; "top"]
  ∧ "top" ∈ ["a"; "b"; "c"; "top"]
  ∧ (∃ ws, emit ex_jump ["a"; "b"; "c"; "top"] = (ws, Return ())
           ∧ ws !! 7%nat = Some ("    top              resq 1" +:+ NL))
  ∧ emit_stmt ex_jump_stmt 0
    = (["    jne     top    ; JUMP_IF" +:+ NL], Return 0%nat).
Proof.
  split; [vm_compute; reflexivity|].
  destruct (jump_target_declared ex_jump ["a"; "b"; "c"; "top"]
              (mkBlock "top" [mkStatement "a" "COMPARE" [AStr "b"; AStr "c"];
                              ex_jump_stmt])
              ex_jump_stmt "top" 0)
    as (Hin & (ws & rank & Hemit & Hrank & _ & Hdecl & _) & Hgroup).
  - vm_compute. reflexivity.
  - apply list_elem_of_here.
  - apply list_elem_of_further, list_elem_of_here.
  - reflexivity.
  - reflexivity.
  - split; [exact Hin|]. split; [|exact Hgroup].
    exists ws. split; [exact Hemit|].
    assert (rank = 3%nat) as ->.
    { destruct rank as [|[|[|[|]]]]; by try discriminate Hrank. }
    exact Hdecl.
Defined.

(** ** Termination of the whole run *)

Lemma emit_stmt_terminates st lbl : (emit_stmt st lbl).2 ≠ Diverge.
Proof.
  unfold emit_stmt. repeat (case_bool_decide; [done|]).
  case_bool_decide; [by destruct (args st !! 1%nat)|].
  case_bool_decide; [done|].
  case_bool_decide; [|done].
  by destruct (args st) as [|? [|? [|? [|]]]].
Qed.

Lemma for_write_terminates {A S} (xs : list A) (body : S → A → E S) s :
  (∀ s x, (body s x).2 ≠ Diverge) → (for_write xs body s).2 ≠ Diverge.
Proof.
  intros Hbody. revert s. induction xs as [|x xs IH]; intros s; [done|].
  cbn [for_write]. unfold mbind, E_bind. specialize (Hbody s x).
  destruct (body s x) as [ws [s1|e|]]; [|done..].
  specialize (IH s1). by destruct (for_write xs body s1).
Qed.

Lemma emit_terminates root syms : (emit root syms).2 ≠ Diverge.
Proof.
  rewrite emit_unfold.
  assert ((emit_blocks (blocks root) 0).2 ≠ Diverge) as H.
  { apply for_write_terminates. intros lbl blk. unfold mbind, E_bind. cbn.
    pose proof (for_write_terminates (statements blk)
                  (λ lbl st, emit_stmt st lbl) lbl
                  (λ l st, emit_stmt_terminates st l)) as H.
    by destruct (for_write (statements blk) _ lbl). }
  by destruct (emit_blocks (blocks root) 0) as [ws [l|e|]].
Qed.

(** Every run of [main] ends: the fuel of the loops of the model is
    enough on every source text. *)
Lemma main_terminates repr src_code asm :
  (main repr src_code asm).2 ≠ Diverge.
Proof.
  unfold main, list_lex. destruct (lex repr src_code) as [toks [e|]]; [done|].
  pose proof (run_terminates toks).
  destruct (Parser.run toks) as [ast|e|]; [|done..].
  pose proof (semantic_cases ast).
  destruct (semantic ast) as [syms|e|]; [|done..].
  pose proof (emit_terminates ast syms).
  by destruct (emit ast syms).
Qed.

(** * Further properties of the pipeline *)

(** ** Validator: acceptance, first error, order of the statements *)

Lemma for_each_app {A S} (xs ys : list A) (body : S → A → outcome S) s :
  for_each (xs ++ ys) body s = for_each xs body s ≫= for_each ys body.
Proof.
  revert s. induction xs as [|x xs IH]; intros s; cbn; [done|].
  unfold mbind, outcome_bind in *. destruct (body s x); [apply IH|done..].
Qed.

Lemma stmt_error_not_well_formed blk st e :
  stmt_error blk st e → ¬ well_formed_stmt st.
Proof.
  unfold well_formed_stmt. intros [[Hop _]|(exp & Hop & Hlen & _)] H;
    congruence.
Qed.

Lemma semantic_stmt_error blk symbols st e :
  stmt_error blk st e → semantic_stmt blk symbols st = Raise e.
Proof.
  unfold semantic_stmt. intros [[-> ->]|(exp & -> & Hlen & ->)]; [done|].
  by rewrite bool_decide_eq_true_2.
Qed.

Lemma semantic_block_accepts blk sts symbols :
  (∀ st, st ∈ sts → well_formed_stmt st) →
  ∃ symbols', for_each sts (semantic_stmt blk) symbols = Return symbols'.
Proof.
  intros Hok. pose proof (semantic_block_cases blk sts symbols) as H.
  destruct (for_each sts (semantic_stmt blk) symbols) as [s|e|];
    [by eexists| |done].
  destruct H as (st & Hst & Herr).
  by destruct (stmt_error_not_well_formed _ _ _ Herr (Hok st Hst)).
Qed.

Lemma semantic_blocks_accept blks symbols :
  (∀ blk st, blk ∈ blks → st ∈ statements blk → well_formed_stmt st) →
  ∃ symbols',
    for_each blks
      (λ symbols blk, for_each (statements blk) (semantic_stmt blk) symbols)
      symbols = Return symbols'.
Proof.
  intros Hok. pose proof (semantic_blocks_cases blks symbols) as H.
  destruct (for_each blks _ symbols) as [s|e|]; [by eexists| |done].
  destruct H as (blk & st & Hblk & Hst & Herr).
  by destruct (stmt_error_not_well_formed _ _ _ Herr (Hok blk st Hblk Hst)).
Qed.

(** X1.  The validator accepts a program exactly when every statement uses
    an opcode of the table with the declared number of arguments; nothing
    else about the program can make it fail. *)
Theorem semantic_accepts_iff root :
  (∃ syms, semantic root = Return syms)
  ↔ ∀ blk st, blk ∈ blocks root → st ∈ statements blk →
              OPS_ARITY !! op st = Some (length (args st)).
Proof.
  pose proof (semantic_cases root) as H. split.
  - intros [syms Hsem]. rewrite Hsem in H. by destruct H.
  - intros Hok. destruct (semantic root) as [syms|e|]; [by eexists| |done].
    destruct H as (blk & st & Hblk & Hst & Herr).
    by destruct (stmt_error_not_well_formed _ _ _ Herr (Hok blk st Hblk Hst)).
Qed.

(** X2.  The validator stops at the first faulty statement in program
    order: when all the statements before [st] are well formed and [st] is
    not, the error raised is the one of [st], with the gate of its own
    block, whatever follows. *)
Theorem semantic_first_error root blks1 blk blks2 sts1 st sts2 :
  blocks root = blks1 ++ blk :: blks2 →
  statements blk = sts1 ++ st :: sts2 →
  (∀ b s, b ∈ blks1 → s ∈ statements b →
          OPS_ARITY !! op s = Some (length (args s))) →
  (∀ s, s ∈ sts1 → OPS_ARITY !! op s = Some (length (args s))) →
  OPS_ARITY !! op st ≠ Some (length (args st)) →
  semantic root
  = Raise (SemanticError
      match OPS_ARITY !! op st with
      | None => "Unknown op " +:+ op st +:+ " in gate [" +:+ gate blk +:+ "]"
      | Some exp => op st +:+ " expects " +:+ str_nat exp +:+ " arg(s), got "
                    +:+ str_nat (length (args st))
      end).
Proof.
  intros Hblks Hsts Hok1 Hok2 Hbad.
  unfold semantic, semantic_symbols. rewrite Hblks, for_each_app.
  destruct (semantic_blocks_accept blks1 ∅ Hok1) as [s1 ->].
  cbn [mbind outcome_bind for_each]. rewrite Hsts, for_each_app.
  destruct (semantic_block_accepts blk sts1 s1 Hok2) as [s2 ->].
  cbn [mbind outcome_bind for_each]. unfold semantic_stmt.
  destruct (OPS_ARITY !! op st) as [exp|]; [|done].
  rewrite bool_decide_eq_true_2; [done|]. congruence.
Qed.

Lemma semantic_first_error_witness :
  semantic ex_two_faults = Raise (SemanticError "Unknown op FOO in gate [b]").
Proof.
  apply (semantic_first_error ex_two_faults
           [mkBlock "a" [mkStatement "x" "SET" [AInt 1]]]
           (mkBlock "b" [mkStatement "y" "FOO" [AInt 1];
                         mkStatement "z" "SET" [AInt 1; AInt 2]])
           [] [] (mkStatement "y" "FOO" [AInt 1])
           [mkStatement "z" "SET" [AInt 1; AInt 2]]).
  - reflexivity.
  - reflexivity.
  - intros b s0 ->%list_elem_of_singleton ->%list_elem_of_singleton.
    vm_compute. reflexivity.
  - by intros s0 ?%elem_of_nil.
  - vm_compute. discriminate.
Defined.

Lemma elem_of_semantic root syms :
  semantic root = Return syms → ∀ x, x ∈ syms ↔ symbol_of root x.
Proof.
  intros Hsem x. pose proof (semantic_cases root) as H. rewrite Hsem in H.
  destruct H as (_ & symbols & -> & Hsym). by rewrite elem_of_sorted.
Qed.

(** X3.  The symbol list depends on the set of identifiers the program
    mentions, not on the order or the number of the statements that
    mention them: two accepted programs with the same identifiers get the
    same list. *)
Theorem semantic_order_independent root1 root2 syms1 syms2 :
  semantic root1 = Return syms1 →
  semantic root2 = Return syms2 →
  (∀ x, symbol_of root1 x ↔ symbol_of root2 x) →
  syms1 = syms2.
Proof.
  intros H1 H2 Hsame.
  pose proof (semantic_cases root1) as C1. rewrite H1 in C1.
  pose proof (semantic_cases root2) as C2. rewrite H2 in C2.
  destruct C1 as (_ & S1 & -> & HS1), C2 as (_ & S2 & -> & HS2).
  f_equal. apply set_eq. intros x. by rewrite HS1, HS2.
Qed.

Lemma semantic_order_independent_witness :
  ∃ syms1 syms2,
    semantic ex_sum = Return syms1
    ∧ semantic ex_sum_reordered = Return syms2
    ∧ syms1 = syms2.
Proof.
  assert (semantic ex_sum = Return ["x"; "y"]) as H1
    by (vm_compute; reflexivity).
  assert (semantic ex_sum_reordered = Return ["x"; "y"]) as H2
    by (vm_compute; reflexivity).
  exists ["x"; "y"], ["x"; "y"]. split; [exact H1|]. split; [exact H2|].
  apply (semantic_order_independent ex_sum ex_sum_reordered _ _ H1 H2).
  intros x. by rewrite <-(elem_of_semantic _ _ H1), <-(elem_of_semantic _ _ H2).
Defined.

(** ** Emitter: coverage of the table, order of the output *)

(** A number of at most three digits is one that [f"{n}"] converts. *)
Lemma small_printable n : Z.abs n < 1000 → format_int n = Return (str_int n).
Proof.
  intros Hn. unfold format_int. rewrite bool_decide_eq_true_2; [done|].
  eapply Z.lt_le_trans; [exact Hn|]. change 1000 with (10 ^ 3).
  apply Z.pow_le_mono_r; [lia|]. unfold max_str_digits. lia.
Qed.

Ltac printable_tac :=
  repeat match goal with
  | |- Forall _ [] => apply Forall_nil_2
  | |- Forall _ (_ :: _) => apply Forall_cons; split
  | |- printable_arg (AStr _) => exact I
  | |- printable_arg (AInt _) => apply small_printable; cbn; lia
  end.

(** X4.  On a program that the validator accepts and whose numbers are
    ones that [f"{n}"] converts, as the numbers of every parsed program
    are, the emitter, once the target file is open, does not raise: it
    writes the prologue with one declaration per symbol, then one chunk
    per gate and one per statement, then the epilogue. *)
Theorem emit_after_semantic root syms :
  semantic root = Return syms →
  printable_program root →
  ∃ ws,
    emit root syms = (prologue syms ++ ws ++ [epilogue], Return ())
    ∧ length ws = (length (blocks root) + length (flat (blocks root)))%nat
    ∧ length (prologue syms) = (5 + length syms)%nat.
Proof.
  intros Hsem _. pose proof (semantic_cases root) as H. rewrite Hsem in H.
  destruct H as [Hok _].
  destruct (emit_blocks_total (blocks root) 0 Hok) as (ws & l & Hws).
  exists ws. rewrite emit_unfold, Hws. split; [done|].
  apply emit_blocks_Return in Hws as [-> _]. split; [done|].
  unfold prologue. rewrite !length_app, length_fmap. cbn. lia.
Qed.

Lemma emit_after_semantic_witness :
  semantic ex_loops = Return ["n"; "s"; "t"; "u"]
  ∧ printable_program ex_loops
  ∧ ∃ ws,
      emit ex_loops ["n"; "s"; "t"; "u"]
      = (prologue ["n"; "s"; "t"; "u"] ++ ws ++ [epilogue], Return ())
      ∧ length ws = 5%nat.
Proof.
  split; [vm_compute; reflexivity|].
  assert (printable_program ex_loops) as Hp.
  { cbv [printable_program printable ex_loops ex_first_loop ex_second_loop
         blocks statements args].
    printable_tac. }
  split; [exact Hp|].
  destruct (emit_after_semantic ex_loops ["n"; "s"; "t"; "u"])
    as (ws & Hemit & Hlen & _); [vm_compute; reflexivity|exact Hp|].
  exists ws. split; [exact Hemit|exact Hlen].
Defined.

Lemma OPS_ARITY_None o :
  OPS_ARITY !! o = None →
  o ∉ ["SET"; "ADD"; "SUB"; "MUL"; "DIV"; "NOT"; "DISPLAY"; "COMPARE"; "AND";
       "OR"; "XOR"; "SHIFT_LEFT"; "SHIFT_RIGHT"; "JUMP_IF"; "LOOP"].
Proof. intros H. by apply not_elem_of_list_to_map_2 in H. Qed.

(** The opcodes the emitter implements are those of the arity table. *)
Lemma emit_stmt_unknown_op st lbl :
  emit_stmt st lbl = ([], Raise (NotImplementedError (op st)))
  ↔ OPS_ARITY !! op st = None.
Proof.
  split.
  - intros Hemit. destruct (OPS_ARITY !! op st) as [n|] eqn:Hop; [|done].
    exfalso. apply OPS_ARITY_table in Hop. revert Hemit. unfold emit_stmt.
    repeat (apply elem_of_cons in Hop as [[= Hop Hlen]|Hop];
            [rewrite Hop; cbn;
             by destruct (args st) as [|a1 [|a2 [|a3 [|]]]]|]).
    by apply elem_of_nil in Hop.
  - intros Hop%OPS_ARITY_None. unfold emit_stmt.
    rewrite !not_elem_of_cons in Hop.
    destruct Hop as (?&?&?&?&?&?&?&?&?&?&?&?&?&?&?&_).
    rewrite !bool_decide_eq_false_2; [done|try done..].
    rewrite !not_elem_of_cons. repeat split; try done. apply not_elem_of_nil.
Qed.


(** X5.  The emitter checks little by itself.  A statement whose numbers
    are ones that [f"{n}"] converts makes it raise in three cases only,
    each time before anything is written for the statement: the opcode is
    not a key of [OPS_ARITY] ([NotImplementedError] with the opcode), a
    JUMP_IF has fewer than two arguments ([IndexError]), a LOOP has not
    exactly three ([ValueError]).  Any other such statement is emitted,
    whatever the number of its arguments. *)
Theorem emit_stmt_raises_iff st lbl ws e :
  printable st →
  emit_stmt st lbl = (ws, Raise e)
  ↔ ws = []
    ∧ ((e = NotImplementedError (op st) ∧ OPS_ARITY !! op st = None)
       ∨ (e = IndexError ∧ op st = "JUMP_IF" ∧ (length (args st) < 2)%nat)
       ∨ (e = ValueError ∧ op st = "LOOP" ∧ length (args st) ≠ 3%nat)).
Proof.
  intros _. split.
  - destruct (OPS_ARITY !! op st) as [n|] eqn:Hop.
    + apply OPS_ARITY_table in Hop. unfold emit_stmt. intros Heq.
      repeat (apply elem_of_cons in Hop as [[= Hop Hlen]|Hop];
              [rewrite Hop in Heq |- *;
               repeat match type of Heq with
                      | context [bool_decide ?P] =>
                          let b := eval vm_compute in (bool_decide P) in
                          change (bool_decide P) with b in Heq
                      end;
               destruct (args st) as [|a1 [|a2 [|a3 [|]]]]; cbn in Heq;
               unfold throw in Heq; simplify_eq; (split; [done|]);
               ((right; left; repeat split; cbn; lia)
                || (right; right; repeat split; cbn; lia))|]).
      by apply elem_of_nil in Hop.
    + pose proof (proj2 (emit_stmt_unknown_op st lbl) Hop) as ->.
      intros [= <- <-]. split; [done|]. by left.
  - intros [-> [[-> Hop]|[(-> & Hop & Hlen)|(-> & Hop & Hlen)]]].
    + by apply emit_stmt_unknown_op.
    + unfold emit_stmt. rewrite Hop. cbn.
      destruct (args st) as [|a1 [|a2 ?]]; cbn in *; [done|done|lia].
    + unfold emit_stmt. rewrite Hop. cbn.
      by destruct (args st) as [|a1 [|a2 [|a3 [|]]]].
Qed.

Lemma emit_stmt_raises_iff_witness :
  printable (mkStatement "x" "JUMP_IF" [AStr "y"])
  ∧ emit_stmt (mkStatement "x" "JUMP_IF" [AStr "y"]) 0 = ([], Raise IndexError)
  ∧ emit_stmt (mkStatement "x" "SET" []) 0
    = (["    mov     [x], None" +:+ NL], Return 0%nat).
Proof.
  assert (printable (mkStatement "x" "JUMP_IF" [AStr "y"])) as Hp
    by (cbv [printable args]; printable_tac).
  split; [exact Hp|]. split; [|vm_compute; reflexivity].
  apply (emit_stmt_raises_iff _ _ _ _ Hp). split; [done|]. right; left.
  split; [done|]. split; [done|]. cbn. lia.
Defined.

Lemma emit_stmts_nth sts1 st sts2 lbl ws lbl' :
  emit_stmts (sts1 ++ st :: sts2) lbl = (ws, Return lbl') →
  ∃ chunk l,
    emit_stmt st (lbl + loops_in sts1) = ([chunk], Return l)
    ∧ ws !! length sts1 = Some chunk.
Proof.
  unfold emit_stmts. rewrite for_write_app.
  intros (ws1 & l1 & ws2 & H1 & H2 & ->)%E_bind_Return.
  apply emit_stmts_Return in H1 as [Hlen ->].
  cbn [for_write] in H2.
  apply E_bind_Return in H2 as (ws3 & l3 & ws4 & H3 & _ & ->).
  destruct (emit_stmt_Return _ _ _ _ H3) as [[chunk ->] _].
  exists chunk, l3. split; [done|].
  rewrite <-Hlen. cbn. by rewrite list_lookup_middle.
Qed.

Lemma emit_blocks_nth blks1 blk blks2 lbl ws lbl' :
  emit_blocks (blks1 ++ blk :: blks2) lbl = (ws, Return lbl') →
  ws !! (length blks1 + length (flat blks1))%nat
  = Some ("    ; --- Gate [" +:+ gate blk +:+ "] ---" +:+ NL)
  ∧ ∀ sts1 st sts2,
      statements blk = sts1 ++ st :: sts2 →
      ∃ chunk l,
        emit_stmt st (lbl + loops_in (flat blks1 ++ sts1)) = ([chunk], Return l)
        ∧ ws !! (length blks1 + length (flat blks1) + 1 + length sts1)%nat
          = Some chunk.
Proof.
  unfold emit_blocks. rewrite for_write_app.
  intros (ws1 & l1 & ws2 & H1 & H2 & ->)%E_bind_Return.
  apply emit_blocks_Return in H1 as [Hlen ->].
  cbn [for_write] in H2.
  apply E_bind_Return in H2 as (ws3 & l3 & ws4 & H3 & _ & ->).
  apply E_bind_Return in H3 as (w & [] & ws5 & [= <-] & H3 & ->).
  rewrite <-Hlen. split.
  { rewrite lookup_app_r by lia. by rewrite Nat.sub_diag. }
  intros sts1 st sts2 Hsts. rewrite Hsts in H3.
  apply emit_stmts_nth in H3 as (chunk & l & Hst & Hlook).
  exists chunk, l. rewrite loops_in_app, Nat.add_assoc. split; [done|].
  rewrite <-Nat.add_assoc, lookup_app_r by lia.
  replace (length ws1 + (1 + length sts1) - length ws1)%nat
    with (S (length sts1)) by lia.
  rewrite <-app_assoc. cbn. rewrite <-Hlook.
  apply lookup_app_l. by apply lookup_lt_Some in Hlook.
Qed.

(** X6.  In a compilation that runs to the end the output follows the
    program: after the prologue, each gate has its comment line, followed
    by the instruction groups of its statements in source order, each as
    [emit_stmt] gives it for the number of LOOP statements before it. *)
Theorem emit_follows_program root syms ws :
  emit root syms = (ws, Return ()) →
  ∀ blks1 blk blks2,
    blocks root = blks1 ++ blk :: blks2 →
    let base := (length (prologue syms) + length blks1
                 + length (flat blks1))%nat in
    ws !! base = Some ("    ; --- Gate [" +:+ gate blk +:+ "] ---" +:+ NL)
    ∧ ∀ sts1 st sts2,
        statements blk = sts1 ++ st :: sts2 →
        ∃ chunk l,
          emit_stmt st (loops_in (flat blks1 ++ sts1)) = ([chunk], Return l)
          ∧ ws !! (base + 1 + length sts1)%nat = Some chunk.
Proof.
  intros Hemit blks1 blk blks2 Hblks base.
  rewrite emit_unfold, Hblks in Hemit.
  destruct (emit_blocks (blks1 ++ blk :: blks2) 0) as [wb [l|e|]] eqn:Hwb;
    [|done..].
  assert (ws = prologue syms ++ wb ++ [epilogue]) as -> by congruence.
  destruct (emit_blocks_nth _ _ _ _ _ _ Hwb) as [Hgate Hst].
  assert (∀ k x, wb !! k = Some x →
            (prologue syms ++ wb ++ [epilogue])
              !! (length (prologue syms) + k)%nat = Some x) as Hshift.
  { intros k x Hk. rewrite lookup_app_r by lia.
    rewrite Nat.add_comm, Nat.add_sub.
    rewrite lookup_app_l; [done|]. by apply lookup_lt_Some in Hk. }
  split.
  - unfold base. rewrite <-Nat.add_assoc. by apply Hshift.
  - intros sts1 st sts2 Hsts.
    destruct (Hst sts1 st sts2 Hsts) as (chunk & l' & Hc & Hlook).
    exists chunk, l'. split; [done|].
    unfold base. rewrite <-!Nat.add_assoc. apply Hshift.
    rewrite <-Hlook. f_equal. lia.
Qed.

Lemma emit_follows_program_witness :
  ∃ ws,
    emit ex_sum ["x"; "y"] = (ws, Return ())
    ∧ ws !! 7%nat = Some ("    ; --- Gate [start] ---" +:+ NL)
    ∧ ws !! 10%nat = Some ("    add     [y], [x]" +:+ NL).
Proof.
  eexists. split; [vm_compute; reflexivity|].
  edestruct (emit_follows_program ex_sum ["x"; "y"]) as [Hgate Hst];
    [vm_compute; reflexivity| |].
  { instantiate (3 := []). reflexivity. }
  split; [exact Hgate|].
  destruct (Hst [mkStatement "x" "SET" [AInt 5]; mkStatement "y" "SET" [AInt 0]]
              (mkStatement "y" "ADD" [AStr "x"]) [] eq_refl)
    as (chunk & l & [= <- _] & Hlook).
  exact Hlook.
Defined.

(** X7.  COMPARE, JUMP_IF, DISPLAY and LOOP do not use their destination:
    two statements with one of these opcodes and the same arguments emit
    the same text, and move the label counter alike, whatever their
    destinations. *)
Theorem destination_unused st st' lbl :
  op st ∈ ["COMPARE"; "JUMP_IF"; "DISPLAY"; "LOOP"] →
  op st' = op st → args st' = args st →
  emit_stmt st' lbl = emit_stmt st lbl.
Proof.
  intros Hop Hop' Hargs. unfold emit_stmt. rewrite Hop', Hargs.
  repeat (apply elem_of_cons in Hop as [->|Hop]; [done|]).
  by apply elem_of_nil in Hop.
Qed.

Lemma destination_unused_witness :
  emit_stmt (mkStatement "other" "LOOP" [AStr "n"; AInt 2; AStr "s"]) 4
  = emit_stmt ex_first_loop 4.
Proof.
  apply destination_unused; [|reflexivity..].
  apply list_elem_of_further, list_elem_of_further, list_elem_of_further,
    list_elem_of_here.
Defined.

(** ** Scanner: what is matched, what is yielded, where *)

Lemma match_at_split c s :
  ∃ v', (match_at c s).1.2 = String c v' ∧ s = v' +:+ (match_at c s).2.
Proof.
  destruct (in_grammar c) eqn:Hc.
  - destruct (match_at_shape c s Hc) as (v' & ? & ? & _); eauto.
  - rewrite match_at_mismatch by done. by exists "".
Qed.

(** The group of a match inside the grammar: a line break, blank space,
    or a token kind with a lexeme of its pattern. *)
Lemma match_at_group c s :
  in_grammar c = true →
  (match_at c s).1.1 = "NEWLINE" ∨ (match_at c s).1.1 = "SKIP"
  ∨ ((match_at c s).1.1 ≠ "NEWLINE" ∧ (match_at c s).1.1 ≠ "SKIP"
     ∧ well_formed_lexeme (match_at c s).1.1 (match_at c s).1.2 = true).
Proof.
  intros Hc. unfold match_at, in_grammar in *.
  destruct (is_digit c) eqn:Hd.
  { pose proof (span_all is_digit s).
    destruct (span is_digit s) as [v r]. right; right.
    repeat split; [done..|]. unfold well_formed_lexeme. cbn in *.
    by rewrite Hd. }
  destruct (is_ident_start c) eqn:Hi.
  { pose proof (span_all is_ident_char s).
    destruct (span is_ident_char s) as [v r]. right; right.
    repeat split; [done..|]. unfold well_formed_lexeme. cbn in *.
    by rewrite Hi. }
  repeat match goal with
  | |- context [bool_decide (c = ?k)] =>
      destruct (bool_decide_reflect (c = k)) as [->|?];
        [right; right; by repeat split|]
  end.
  destruct (is_newline c) eqn:Hn.
  { destruct (span is_newline s). by left. }
  destruct (is_skip c) eqn:Hs.
  { destruct (span is_skip s). right. by left. }
  cbn in Hc. rewrite bool_decide_eq_false_2 in Hc; [done|].
  rewrite !not_elem_of_cons. repeat split; try done. apply not_elem_of_nil.
Qed.

(** The invariant of the scanning loop, after the text [consumed]. *)
Lemma lex_loop_tokens repr (n : nat) :
  ∀ consumed s pos ln ls fuel,
    (String.length s ≤ n)%nat → (String.length s ≤ fuel)%nat →
    advance consumed 1 1 = (ln, pos - ls + 1) →
    Forall (λ t,
      well_formed_lexeme (type t) (value t) = true
      ∧ ∃ pre post,
          consumed +:+ s = pre +:+ value t +:+ post
          ∧ position pre = (line t, col t))
      (lex_loop repr (finditer_from fuel pos s) ln ls).1.
Proof.
  induction n as [|n IH]; intros consumed s pos ln ls fuel Hn Hfuel Hadv.
  { destruct s; [|cbn in Hn; lia]. destruct fuel; apply Forall_nil_2. }
  destruct s as [|c s]; [destruct fuel; apply Forall_nil_2|].
  destruct fuel as [|fuel]; [cbn in Hfuel; lia|].
  cbn [finditer_from].
  destruct (match_at_split c s) as (v' & Hv & Hs).
  destruct (in_grammar c) eqn:Hc.
  2:{ rewrite match_at_mismatch by done. cbn. apply Forall_nil_2. }
  destruct (match_at_shape c s Hc) as (v'' & Hv'' & _ & Hmis & Hcls).
  pose proof (match_at_group c s Hc) as Hgrp.
  destruct (match_at c s) as [[g v] r]. cbn [fst snd] in *. subst v.
  injection Hv'' as <-.
  cbn in Hn, Hfuel.
  assert (String.length r ≤ n)%nat as Hr.
  { rewrite Hs, length_append in Hn. lia. }
  assert (String.length r ≤ fuel)%nat as Hr'.
  { rewrite Hs, length_append in Hfuel. lia. }
  set (k := Z.of_nat (String.length (String c v'))).
  assert (consumed +:+ String c s = (consumed +:+ String c v') +:+ r) as Hsplit.
  { by rewrite append_assoc, append_cons, <-Hs. }
  cbn [lex_loop lastgroup group m_start m_end].
  case_bool_decide as Hnl.
  - (* NEWLINE *)
    rewrite Hsplit. apply IH; [done..|].
    rewrite advance_append, Hadv. cbn [fst snd].
    rewrite (advance_newlines _ ln (pos - ls + 1) Hcls) by done.
    f_equal. fold k. lia.
  - assert (advance (consumed +:+ String c v') 1 1
            = (ln, pos + k - ls + 1)) as Hadv'.
    { rewrite advance_append, Hadv. cbn [fst snd].
      rewrite (advance_same_line _ ln (pos - ls + 1) Hcls).
      f_equal. fold k. lia. }
    case_bool_decide as Hskip.
    + (* SKIP *) rewrite Hsplit. by apply IH.
    + rewrite (bool_decide_eq_false_2 _ Hmis).
      destruct Hgrp as [?|[?|(_ & _ & Hwf)]]; [done..|].
      specialize (IH (consumed +:+ String c v') r (pos + k) ln ls fuel
                    Hr Hr' Hadv').
      rewrite <-Hsplit in IH.
      destruct (lex_loop repr (finditer_from fuel (pos + k) r) ln ls)
        as [toks e]. cbn [fst] in *.
      apply Forall_cons. split; [|done]. cbn. split; [done|].
      exists consumed, r. split; [by rewrite Hsplit, append_assoc|done].
Qed.

Lemma lex_lexemes_ok repr src : lexemes_ok (lex repr src).1.
Proof.
  unfold lex, finditer, lexemes_ok.
  eapply Forall_impl;
    [apply (lex_loop_tokens repr (String.length src) "" src 0 1 0); done|].
  by intros t [? _].
Qed.

(** X9.  Whatever the source text, the tokens the scanner yields are of
    the nine token kinds, each with a lexeme of the pattern of its kind: a
    number is a run of digits, an identifier starts with a letter or an
    underscore, a punctuation token is its one character.  Line breaks,
    blank space and unexpected characters never come out as tokens. *)
Theorem lex_tokens_well_formed repr src :
  Forall (λ t, well_formed_lexeme (type t) (value t) = true) (lex repr src).1.
Proof.
  unfold lex, finditer.
  eapply Forall_impl;
    [apply (lex_loop_tokens repr (String.length src) "" src 0 1 0); done|].
  by intros t [? _].
Qed.

(** X10.  The line and the column of every token are the 1-based position
    of its first character in the source text: the token's lexeme occurs
    in the text right after a prefix that ends at that position. *)
Theorem lex_token_positions repr src :
  Forall (λ t, ∃ pre post,
            src = pre +:+ value t +:+ post
            ∧ position pre = (line t, col t))
    (lex repr src).1.
Proof.
  unfold lex, finditer.
  eapply Forall_impl;
    [apply (lex_loop_tokens repr (String.length src) "" src 0 1 0); done|].
  by intros t [_ ?].
Qed.

(** X11.  The scanner runs to the end of the text without error exactly
    when every character of the text is in the lexical grammar. *)
Theorem lex_succeeds_iff repr src :
  (∃ toks, lex repr src = (toks, None)) ↔ all_chars in_grammar src = true.
Proof.
  split; [|apply lex_clean].
  intros [toks Hlex]. destruct (all_chars in_grammar src) eqn:Hall; [done|].
  destruct (first_bad_char src Hall) as (pre & x & post & -> & Hpre & Hx).
  destruct (lex_prefix_then_error repr pre x post Hpre Hx) as (toks' & _ & H).
  congruence.
Qed.

(** ** Numbers: what [int] makes of a NUMBER lexeme *)

Lemma int_literal_digits s after_digit :
  all_chars is_digit s = true → s ≠ "" ∨ after_digit = true →
  int_literal after_digit s = Some s.
Proof.
  revert after_digit. induction s as [|c s IH]; intros b Hall Hne.
  - destruct Hne as [?| ->]; done.
  - cbn in *. apply andb_true_iff in Hall as [Hc Hall].
    rewrite Hc, IH; [done|done|by right].
Qed.

Lemma digit_not_space c :
  is_digit c = true →
  is_space c = false ∧ c ≠ "-"%char ∧ c ≠ "+"%char.
Proof. by destruct c as [[] [] [] [] [] [] [] []]. Qed.

(** [int] on a lexeme of the NUMBER pattern. *)
Lemma int_number s :
  well_formed_lexeme "NUMBER" s = true →
  int s = if bool_decide (Z.of_nat (String.length s) ≤ max_str_digits)
          then Return (int_digits 0 s) else Raise ValueError.
Proof.
  unfold well_formed_lexeme. rewrite bool_decide_eq_true_2 by done.
  intros [Hne%bool_decide_eq_true Hall]%andb_true_iff.
  destruct s as [|c s]; [done|]. unfold int. cbn [lstrip].
  pose proof Hall as Hc. cbn in Hc. apply andb_true_iff in Hc as [Hc _].
  destruct (digit_not_space c Hc) as (-> & ? & ?).
  rewrite !bool_decide_eq_false_2 by done.
  rewrite int_literal_digits by (done || by left).
  case_bool_decide; [f_equal; lia|done].
Qed.

Lemma int_digits_bound s :
  ∀ acc, all_chars is_digit s = true → 0 ≤ acc →
    0 ≤ int_digits acc s < (acc + 1) * 10 ^ Z.of_nat (String.length s).
Proof.
  induction s as [|c s IH]; intros acc Hall Hacc; [cbn; lia|].
  cbn [all_chars] in Hall. apply andb_true_iff in Hall as [Hc Hall].
  assert (0 ≤ digit_val c ≤ 9) as Hd.
  { revert Hc. clear. unfold is_digit, in_range, digit_val.
    intros [?%N.leb_le ?%N.leb_le]%andb_true_iff. lia. }
  cbn [int_digits String.length].
  destruct (IH (10 * acc + digit_val c) Hall ltac:(lia)) as [Hlo Hhi].
  split; [done|]. rewrite Nat2Z.inj_succ, Z.pow_succ_r by lia.
  pose proof (Z.pow_pos_nonneg 10 (Z.of_nat (String.length s))
                ltac:(lia) ltac:(lia)).
  nia.
Qed.

(** The numbers [int] makes of NUMBER lexemes. *)
Lemma int_number_range s n :
  well_formed_lexeme "NUMBER" s = true → int s = Return n →
  0 ≤ n < 10 ^ max_str_digits.
Proof.
  intros Hwf. rewrite (int_number s Hwf). case_bool_decide as Hlen; [|done].
  intros [= <-]. revert Hwf. unfold well_formed_lexeme.
  rewrite bool_decide_eq_true_2 by done.
  intros [_ Hall]%andb_true_iff.
  destruct (int_digits_bound s 0 Hall ltac:(lia)) as [Hlo Hhi].
  split; [done|]. eapply Z.lt_le_trans; [exact Hhi|].
  rewrite Z.mul_1_l. apply Z.pow_le_mono_r; [lia|done].
Qed.

Lemma small_limit : 1000 ≤ 10 ^ max_str_digits.
Proof.
  change 1000 with (10 ^ 3). apply Z.pow_le_mono_r; [lia|].
  unfold max_str_digits. lia.
Qed.

Lemma format_int_small n :
  Z.abs n < 10 ^ max_str_digits → format_int n = Return (str_int n).
Proof. intros Hn. unfold format_int. by rewrite bool_decide_eq_true_2. Qed.

Lemma numbers_printable st : numbers_in_range (args st) → printable st.
Proof.
  intros Hnum. apply Forall_forall. intros [n|x] Ha; [|done].
  apply format_int_small. specialize (Hnum n Ha). lia.
Qed.

Lemma int_digits_app acc u s :
  int_digits acc (u +:+ s) = int_digits (int_digits acc u) s.
Proof.
  revert acc. induction u as [|c u IH]; intros acc; [done|].
  rewrite append_cons. cbn. apply IH.
Qed.

Lemma pretty_N_go_app x s : pretty_N_go x s = pretty_N_go x "" +:+ s.
Proof.
  revert s. induction (N.lt_wf_0 x) as [x _ IH]; intros s.
  destruct (decide (x = 0)%N) as [->|Hx]; [done|].
  rewrite !(pretty_N_go_step x) by lia.
  assert (x `div` 10 < x)%N as Hlt by (apply N.div_lt; lia).
  rewrite (IH _ Hlt (String _ s)), (IH _ Hlt (String _ "")).
  by rewrite append_assoc.
Qed.

Lemma pretty_N_char_digit d :
  (d < 10)%N →
  is_digit (pretty_N_char d) = true ∧ digit_val (pretty_N_char d) = Z.of_N d.
Proof.
  intros Hd.
  assert (d = 0 ∨ d = 1 ∨ d = 2 ∨ d = 3 ∨ d = 4 ∨ d = 5 ∨ d = 6 ∨ d = 7
          ∨ d = 8 ∨ d = 9)%N as Hcases by lia.
  repeat (destruct Hcases as [->|Hcases]; [done|]). by subst.
Qed.

Lemma pretty_N_go_digits x :
  all_chars is_digit (pretty_N_go x "") = true
  ∧ int_digits 0 (pretty_N_go x "") = Z.of_N x.
Proof.
  induction (N.lt_wf_0 x) as [x _ IH].
  destruct (decide (x = 0)%N) as [->|Hx]; [done|].
  rewrite pretty_N_go_step, pretty_N_go_app by lia.
  assert (x `div` 10 < x)%N as Hlt by (apply N.div_lt; lia).
  destruct (IH _ Hlt) as [Hall Hval].
  destruct (pretty_N_char_digit (x `mod` 10)%N) as [Hd Hv];
    [apply N.mod_lt; lia|].
  split.
  - rewrite all_chars_append, Hall. cbn. by rewrite Hd.
  - rewrite int_digits_app, Hval. cbn. rewrite Hv.
    rewrite (N.div_mod x 10) at 3 by lia. lia.
Qed.

Lemma pretty_N_go_length x :
  ∀ k, 0 ≤ k → Z.of_N x < 10 ^ k →
    Z.of_nat (String.length (pretty_N_go x "")) ≤ k.
Proof.
  induction (N.lt_wf_0 x) as [x _ IH]; intros k Hk Hx.
  destruct (decide (x = 0)%N) as [->|Hne]; [rewrite pretty_N_go_0; cbn; lia|].
  assert (k ≠ 0) as Hk0 by (intros ->; cbn in Hx; lia).
  rewrite pretty_N_go_step, pretty_N_go_app by lia.
  rewrite length_append. cbn [String.length].
  assert (x `div` 10 < x)%N as Hlt by (apply N.div_lt; lia).
  specialize (IH _ Hlt (k - 1) ltac:(lia)).
  assert (Z.of_N (x `div` 10) < 10 ^ (k - 1)) as Hdiv.
  { rewrite N2Z.inj_div. apply Z.div_lt_upper_bound; [lia|].
    change (Z.of_N 10) with 10. rewrite <-Z.pow_succ_r by lia.
    by replace (Z.succ (k - 1)) with k by lia. }
  specialize (IH Hdiv). lia.
Qed.

(** The decimal text of a number that is not negative is a NUMBER lexeme
    that [int] converts back, provided it is within the limit. *)
Lemma str_int_lexeme n :
  0 ≤ n →
  well_formed_lexeme "NUMBER" (str_int n) = true
  ∧ int_digits 0 (str_int n) = n
  ∧ ∀ k, 0 < k → n < 10 ^ k → Z.of_nat (String.length (str_int n)) ≤ k.
Proof.
  intros Hn. destruct n as [|p|p]; [by split; [|split; [|intros; cbn; lia]]| |lia].
  unfold str_int, pretty, pretty_Z, pretty, pretty_positive, pretty, pretty_N.
  rewrite decide_False by done.
  destruct (pretty_N_go_digits (N.pos p)) as [Hall Hval].
  split; [|split; [done|]].
  - unfold well_formed_lexeme. rewrite bool_decide_eq_true_2 by done.
    rewrite Hall, andb_true_r. apply bool_decide_eq_true.
    intros Hempty. by rewrite Hempty in Hval.
  - intros k Hk Hlt. by apply pretty_N_go_length; [lia|].
Qed.

Lemma int_of_str_int n :
  0 ≤ n < 10 ^ max_str_digits → int (str_int n) = Return n.
Proof.
  intros [Hlo Hhi]. destruct (str_int_lexeme n Hlo) as (Hwf & Hval & Hlen).
  rewrite (int_number _ Hwf), Hval.
  by rewrite bool_decide_eq_true_2 by (by apply Hlen).
Qed.

(** ** Parser: what a parsed program looks like, what it can raise *)

Ltac not_in_types :=
  rewrite ?not_elem_of_cons; repeat split; try done; apply not_elem_of_nil.

Section Returns.
Import Parser.

Lemma returns_ret {A} (a : A) (P : A → Prop) : P a → returns (mret a) P.
Proof. intros HP self a' self' Hok [= <- <-]. done. Qed.

Lemma returns_bind {A B} (m : M A) (k : A → M B) (P : A → Prop)
    (Q : B → Prop) :
  returns m P → (∀ a, P a → returns (k a) Q) → returns (m ≫= k) Q.
Proof.
  intros Hm Hk self b self' Hok. unfold mbind, M_bind.
  destruct (m self) as [[a s1]|e|] eqn:Hms; [|done..].
  destruct (Hm self a s1 Hok Hms) as [Hok1 HP]. by apply Hk.
Qed.

Lemma returns_get {A} (k : state → M A) (Q : A → Prop) :
  (∀ s, returns (k s) Q) → returns (get ≫= k) Q.
Proof. intros Hk self a self' Hok. by apply Hk. Qed.

Lemma returns_accept types : returns (accept types) (λ _, True).
Proof.
  intros self a self' Hok. unfold accept.
  case_bool_decide; by intros [= <- <-].
Qed.

Lemma returns_expect types :
  "EOF" ∉ types →
  returns (expect types)
    (λ tok, type tok ∈ types
            ∧ well_formed_lexeme (type tok) (value tok) = true).
Proof.
  intros Heof self tok self' Hok. unfold expect, accept, mbind, M_bind.
  case_bool_decide as Hin; [|done]. cbn. intros [= <- <-]. cbn.
  split; [done|]. split; [done|]. unfold peek in *.
  destruct (toks self !! (i self + 0)%nat) as [t|] eqn:Ht; [|done].
  apply list_elem_of_lookup_2 in Ht. unfold lexemes_ok in Hok.
  rewrite Forall_forall in Hok. by apply Hok.
Qed.

Lemma returns_lift {A} (o : outcome A) : returns (lift o) (λ a, o = Return a).
Proof.
  intros self a self' Hok. unfold lift, mbind, outcome_bind.
  destruct o; [|done..]. by intros [= <- <-].
Qed.

Lemma returns_arg_list_loop fuel :
  ∀ acc, numbers_in_range acc →
    returns (arg_list_loop fuel acc) (λ a, a ≠ [] ∧ numbers_in_range a).
Proof.
  induction fuel as [|fuel IH]; intros acc Hacc; [by intros ???|].
  cbn [arg_list_loop].
  eapply returns_bind; [apply returns_expect; not_in_types|].
  intros tok [_ Hwf].
  eapply (returns_bind _ _ (λ a, numbers_in_range (acc ++ [a]))).
  { case_bool_decide as Hnum.
    - eapply returns_bind; [apply returns_lift|].
      intros n Hn. apply returns_ret.
      intros m [Hm|Hm%list_elem_of_singleton]%elem_of_app; [by apply Hacc|].
      injection Hm as ->. rewrite Hnum in Hwf.
      by eapply int_number_range.
    - apply returns_ret.
      intros m [Hm|Hm%list_elem_of_singleton]%elem_of_app; [by apply Hacc|].
      done. }
  intros a Ha.
  eapply returns_bind; [apply returns_accept|].
  intros [c|] _; [by apply IH|]. apply returns_ret.
  split; [by destruct acc|done].
Qed.

Lemma upper_char_ident c :
  (is_ident_start c = true → is_ident_start (upper_char c) = true)
  ∧ (is_ident_char c = true → is_ident_char (upper_char c) = true)
  ∧ is_lower (upper_char c) = false.
Proof. by destruct c as [[] [] [] [] [] [] [] []]. Qed.

Lemma upper_chars (p : ascii → bool) s :
  (∀ c, p c = true → p (upper_char c) = true) →
  all_chars p s = true → all_chars p (upper s) = true.
Proof.
  intros Hp. induction s as [|c s IH]; [done|]. cbn.
  intros [Hc Hs]%andb_true_iff. by rewrite (Hp c Hc), IH.
Qed.

Lemma upper_no_lower s : all_chars (λ c, negb (is_lower c)) (upper s) = true.
Proof.
  induction s as [|c s IH]; [done|]. cbn.
  destruct (upper_char_ident c) as (_ & _ & ->). done.
Qed.

(** The upper case of an identifier is an identifier without a lower-case
    letter. *)
Lemma upper_of_ident v :
  well_formed_lexeme "IDENT" v = true → upper_ident (upper v).
Proof.
  unfold upper_ident, well_formed_lexeme.
  rewrite !bool_decide_eq_false_2 by done.
  rewrite !bool_decide_eq_true_2 by done.
  destruct v as [|c v]; [done|]. intros [Hc Hv]%andb_true_iff.
  split; [|apply upper_no_lower].
  change (upper (String c v)) with (String (upper_char c) (upper v)).
  destruct (upper_char_ident c) as (Hs & _ & _). rewrite (Hs Hc).
  apply upper_chars; [|done]. intros c'. apply upper_char_ident.
Qed.

Lemma returns_statement : returns statement parsed_stmt.
Proof.
  unfold statement.
  eapply returns_bind; [apply returns_expect; not_in_types|]. intros d _.
  eapply returns_bind; [apply returns_expect; not_in_types|]. intros c _.
  eapply returns_bind; [apply returns_expect; not_in_types|].
  intros o [Hty%list_elem_of_singleton Hwf]. rewrite Hty in Hwf.
  eapply returns_bind.
  { unfold arg_list. apply returns_get. intros s.
    apply returns_arg_list_loop. by intros n ?%elem_of_nil. }
  intros a [Hne Hnum]. apply returns_ret.
  split; [done|]. split; [by apply upper_of_ident|done].
Qed.

Lemma returns_block_loop fuel :
  ∀ stmts, Forall parsed_stmt stmts →
    returns (block_loop fuel stmts) (Forall parsed_stmt).
Proof.
  induction fuel as [|fuel IH]; intros stmts Hstmts; cbn [block_loop];
    apply returns_get; intros s; case_bool_decide;
    [by intros ???|by apply returns_ret| |by apply returns_ret].
  eapply returns_bind; [apply returns_statement|]. intros st Hst.
  eapply returns_bind; [apply returns_expect; not_in_types|]. intros c _.
  apply IH. apply Forall_app. split; [done|]. by apply Forall_singleton.
Qed.

Lemma returns_block :
  returns block (λ blk, Forall parsed_stmt (statements blk)).
Proof.
  unfold block.
  eapply returns_bind; [apply returns_expect; not_in_types|]. intros a _.
  eapply returns_bind; [apply returns_expect; not_in_types|]. intros g _.
  eapply returns_bind; [apply returns_expect; not_in_types|]. intros b _.
  eapply returns_bind; [apply returns_expect; not_in_types|]. intros c _.
  apply returns_get. intros s.
  eapply returns_bind; [apply returns_block_loop, Forall_nil_2|].
  intros sts Hsts.
  eapply returns_bind; [apply returns_expect; not_in_types|]. intros d _.
  by apply returns_ret.
Qed.

Lemma returns_parse_loop fuel :
  ∀ blks, Forall (λ blk, Forall parsed_stmt (statements blk)) blks →
    returns (parse_loop fuel blks)
      (Forall (λ blk, Forall parsed_stmt (statements blk))).
Proof.
  induction fuel as [|fuel IH]; intros blks Hblks; cbn [parse_loop];
    apply returns_get; intros s; case_bool_decide;
    [by intros ???|by apply returns_ret| |by apply returns_ret].
  eapply returns_bind; [apply returns_block|]. intros b Hb.
  apply IH. apply Forall_app. split; [done|]. by apply Forall_singleton.
Qed.

Lemma run_parsed tokens ast blk st :
  lexemes_ok tokens → run tokens = Return ast →
  blk ∈ blocks ast → st ∈ statements blk → parsed_stmt st.
Proof.
  intros Hok Hrun Hblk Hst. unfold run in Hrun.
  destruct (parse (mkState tokens 0)) as [[p s1]| |] eqn:Hp; [|done..].
  injection Hrun as <-.
  assert (returns parse
            (λ ast, Forall (λ blk, Forall parsed_stmt (statements blk))
                      (blocks ast))) as Hparse.
  { unfold parse. apply returns_get. intros s.
    eapply returns_bind; [apply returns_parse_loop, Forall_nil_2|].
    intros blks Hblks. by apply returns_ret. }
  destruct (Hparse (mkState tokens 0) _ _ Hok Hp) as [_ Hall]. cbn in Hblk.
  rewrite Forall_forall in Hall. specialize (Hall blk Hblk).
  rewrite Forall_forall in Hall. by apply Hall.
Qed.
End Returns.

(** X12.  A program parsed from tokens with well-formed lexemes, as the
    tokens of the scanner are: every statement has at least one argument;
    its opcode is an identifier without a lower-case letter, whatever the
    case of the source, so that [add], [Add] and [ADD] are one opcode for
    the later stages; its numbers are not negative and have at most
    [max_str_digits] digits, so they are numbers that the emitter can
    format. *)
Theorem parsed_statements tokens ast blk st :
  lexemes_ok tokens →
  Parser.run tokens = Return ast →
  blk ∈ blocks ast → st ∈ statements blk →
  args st ≠ []
  ∧ upper_ident (op st)
  ∧ (∀ n, AInt n ∈ args st → 0 ≤ n < 10 ^ max_str_digits)
  ∧ printable st.
Proof.
  intros Hok Hrun Hblk Hst.
  destruct (run_parsed tokens ast blk st Hok Hrun Hblk Hst)
    as (Hne & Hop & Hnum).
  split; [done|]. split; [done|]. split; [done|].
  by apply numbers_printable.
Qed.

Lemma parsed_statements_witness :
  ∃ tokens : list Token,
    lex repr_printable "[m]{ n : set 3; }" = (tokens, None)
    ∧ lexemes_ok tokens
    ∧ Parser.run tokens
      = Return (mkProgram [mkBlock "m" [mkStatement "n" "SET" [AInt 3]]])
    ∧ args (mkStatement "n" "SET" [AInt 3]) ≠ []
    ∧ upper_ident "SET"
    ∧ (∀ n, AInt n ∈ [AInt 3] → 0 ≤ n < 10 ^ max_str_digits)
    ∧ printable (mkStatement "n" "SET" [AInt 3]).
Proof.
  eexists. split; [vm_compute; reflexivity|].
  assert (lexemes_ok (lex repr_printable "[m]{ n : set 3; }").1) as Hok
    by apply lex_lexemes_ok.
  assert (Parser.run (lex repr_printable "[m]{ n : set 3; }").1
          = Return (mkProgram [mkBlock "m" [mkStatement "n" "SET" [AInt 3]]]))
    as Hrun by (vm_compute; reflexivity).
  split; [exact Hok|]. split; [exact Hrun|].
  eapply (parsed_statements _ _ (mkBlock "m" [mkStatement "n" "SET" [AInt 3]])
            (mkStatement "n" "SET" [AInt 3]) Hok Hrun);
    apply list_elem_of_here.
Defined.

(** A NUMBER token of the scanner that [int] refuses has more digits than
    the limit. *)
Lemma scanned_number_refused repr src t :
  t ∈ (lex repr src).1 → type t = "NUMBER" →
  int (value t) = Raise ValueError →
  max_str_digits < Z.of_nat (String.length (value t)).
Proof.
  intros Ht Hty. pose proof (lex_lexemes_ok repr src) as Hok.
  unfold lexemes_ok in Hok. rewrite Forall_forall in Hok.
  specialize (Hok t Ht). rewrite Hty in Hok.
  rewrite (int_number _ Hok). case_bool_decide; [done|]. intros _. lia.
Qed.

(** The run of the parser on the tokens of a source text. *)
Lemma parse_scanned_aux repr src_code tokens :
  list_lex repr src_code = Return tokens →
  match Parser.run tokens with
  | Return _ => grammar_fault tokens = None
  | Raise e =>
      (∃ types j,
         grammar_fault tokens = Some (types, j)
         ∧ e = ParseError (expected_msg types (peek_at tokens j)))
      ∨ (e = ValueError
         ∧ ∃ t, t ∈ tokens ∧ type t = "NUMBER"
                ∧ max_str_digits < Z.of_nat (String.length (value t)))
  | Diverge => False
  end.
Proof.
  unfold list_lex. intros Hlex.
  pose proof (scanned_number_refused repr src_code) as Hnum.
  destruct (lex repr src_code) as [toks [e|]]; [done|].
  injection Hlex as ->. cbn [fst] in Hnum.
  pose proof (run_tracks tokens) as Hrun.
  destruct (Parser.run tokens) as [ast|e|]; [done| |done].
  destruct Hrun as [(types & j & Hfault & ->)|(-> & t & Ht & Hty & Hint)].
  - left. exists types, j. unfold fault_at in Hfault.
    cbn [Parser.toks Parser.i] in Hfault. by rewrite drop_0 in Hfault.
  - right. split; [done|]. exists t. cbn [Parser.toks] in Ht. eauto.
Qed.

(** X13.  On the tokens of a source text that scans, the parser halts,
    and the grammar tells how.  When it returns a program, the tokens
    have no fault against the grammar.  When it raises, the exception is
    either the parse error of the first fault of the tokens, with the
    kinds expected there and the position of the offending token, or the
    [ValueError] of [int] on a number of more than [max_str_digits]
    digits; no other exception escapes.  When no number is that long,
    the outcome is read off the grammar alone: a program when the tokens
    have no fault, and the parse error of the first fault otherwise. *)
Theorem parse_of_scanned repr src_code tokens :
  list_lex repr src_code = Return tokens →
  match Parser.run tokens with
  | Return _ => grammar_fault tokens = None
  | Raise e =>
      (∃ types j,
         grammar_fault tokens = Some (types, j)
         ∧ e = ParseError (expected_msg types (peek_at tokens j)))
      ∨ (e = ValueError
         ∧ ∃ t, t ∈ tokens ∧ type t = "NUMBER"
                ∧ max_str_digits < Z.of_nat (String.length (value t)))
  | Diverge => False
  end
  ∧ ((∀ t, t ∈ tokens → type t = "NUMBER" →
           Z.of_nat (String.length (value t)) ≤ max_str_digits) →
     match grammar_fault tokens with
     | None => ∃ ast, Parser.run tokens = Return ast
     | Some (types, j) =>
         Parser.run tokens
         = Raise (ParseError (expected_msg types (peek_at tokens j)))
     end).
Proof.
  intros Hlex. pose proof (parse_scanned_aux repr src_code tokens Hlex) as H.
  split; [exact H|]. intros Hshort.
  destruct (Parser.run tokens) as [ast|e|]; [| |done].
  - rewrite H. by exists ast.
  - destruct H as [(types & j & -> & ->)|(_ & t & Ht & Hty & Hlen)]; [done|].
    specialize (Hshort t Ht Hty). lia.
Qed.

Lemma parse_of_scanned_witness :
  list_lex repr_printable "[g]{ x : SET }" = Return ex_missing_arg
  ∧ grammar_fault ex_missing_arg = Some (["IDENT"; "NUMBER"], 7%nat)
  ∧ Parser.run ex_missing_arg
    = Raise (ParseError "Expected IDENT/NUMBER at 1:14").
Proof.
  split; [vm_compute; reflexivity|]. split; [vm_compute; reflexivity|].
  destruct (parse_of_scanned repr_printable "[g]{ x : SET }" ex_missing_arg)
    as [_ H]; [vm_compute; reflexivity|].
  assert (grammar_fault ex_missing_arg = Some (["IDENT"; "NUMBER"], 7%nat))
    as Hfault by (vm_compute; reflexivity).
  rewrite Hfault in H. rewrite H.
  - vm_compute. reflexivity.
  - intros t Ht Hty. exfalso. revert Hty.
    repeat (apply elem_of_cons in Ht as [->|Ht]; [done|]).
    by apply elem_of_nil in Ht.
Defined.

(** ** The whole run: all of the file or none of it *)



(** ** Parser: every program the grammar can spell is parsed back *)

Lemma steps_ret {A} (a : A) self : steps (mret a) self a 0.
Proof. exists self. split; [done|]. split; [done|lia]. Qed.

Lemma steps_bind {A B} (m : Parser.M A) (k : A → Parser.M B) self a b n1 n2 :
  steps m self a n1 →
  (∀ self', Parser.toks self' = Parser.toks self →
            Parser.i self' = (Parser.i self + n1)%nat →
            steps (k a) self' b n2) →
  steps (m ≫= k) self b (n1 + n2).
Proof.
  intros (s1 & Hm & Ht1 & Hi1) Hk.
  destruct (Hk s1 Ht1 Hi1) as (s2 & Hk2 & Ht2 & Hi2).
  exists s2. unfold mbind, Parser.M_bind. rewrite Hm.
  split; [done|]. split; [congruence|lia].
Qed.

Lemma steps_get {A} (k : Parser.state → Parser.M A) self a n :
  steps (k self) self a n → steps (Parser.get ≫= k) self a n.
Proof. done. Qed.

Lemma steps_expect types self t :
  Parser.toks self !! Parser.i self = Some t → type t ∈ types →
  steps (Parser.expect types) self t 1.
Proof.
  intros Ht Hty. unfold steps, Parser.expect, Parser.accept, mbind,
    Parser.M_bind, Parser.peek.
  rewrite Nat.add_0_r, Ht. cbn. rewrite bool_decide_eq_true_2 by done.
  by eexists.
Qed.

Lemma steps_accept types self t :
  Parser.toks self !! Parser.i self = Some t → type t ∈ types →
  steps (Parser.accept types) self (Some t) 1.
Proof.
  intros Ht Hty. unfold steps, Parser.accept, Parser.peek.
  rewrite Nat.add_0_r, Ht. cbn. rewrite bool_decide_eq_true_2 by done.
  by eexists.
Qed.

Lemma steps_accept_none types self :
  type (Parser.peek self 0) ∉ types →
  steps (Parser.accept types) self None 0.
Proof.
  intros Hty. unfold steps, Parser.accept.
  rewrite bool_decide_eq_false_2 by done.
  exists self. split; [done|]. split; [done|lia].
Qed.

Lemma seg_cons tokens j p ps :
  seg tokens j (p :: ps) →
  (∃ t, tokens !! j = Some t ∧ type t = p.1 ∧ value t = p.2)
  ∧ seg tokens (S j) ps.
Proof.
  intros H. split.
  - destruct (H 0%nat p eq_refl) as (t & Ht & ?). rewrite Nat.add_0_r in Ht.
    by exists t.
  - intros k q Hq. destruct (H (S k) q Hq) as (t & Ht & ?).
    exists t. by rewrite Nat.add_succ_comm.
Qed.

Lemma seg_app tokens j ps qs :
  seg tokens j (ps ++ qs) →
  seg tokens j ps ∧ seg tokens (j + length ps) qs.
Proof.
  intros H. split.
  - intros k p Hp. apply H. by apply lookup_app_l_Some.
  - intros k q Hq. destruct (H (length ps + k)%nat q) as (t & Ht & ?).
    { by rewrite lookup_app_r, Nat.add_comm, Nat.add_sub by lia. }
    exists t. by rewrite <-Nat.add_assoc.
Qed.

Lemma seg_bound tokens j ps :
  seg tokens j ps → ps = [] ∨ (j + length ps ≤ length tokens)%nat.
Proof.
  intros H. destruct (list_eq_nil_dec ps) as [?|Hne]; [by left|right].
  destruct (last ps) as [p|] eqn:Hlast; [|by apply last_None in Hlast].
  rewrite last_lookup in Hlast.
  destruct (H _ _ Hlast) as (t & Ht%lookup_lt_Some & _).
  destruct ps; [done|]. cbn in *. lia.
Qed.

Lemma spell_args_length argv : (length argv ≤ length (spell_args argv))%nat.
Proof.
  induction argv as [|a [|b argv] IH]; cbn in *; lia.
Qed.

Lemma steps_arg_list_loop argv :
  ∀ acc fuel self,
    argv ≠ [] → numbers_in_range argv →
    seg (Parser.toks self) (Parser.i self) (spell_args argv) →
    (∀ self', Parser.toks self' = Parser.toks self →
              Parser.i self'
              = (Parser.i self + length (spell_args argv))%nat →
              type (Parser.peek self' 0) ≠ "COMMA") →
    (length argv ≤ fuel)%nat →
    steps (Parser.arg_list_loop fuel acc) self (acc ++ argv)
      (length (spell_args argv)).
Proof.
  induction argv as [|a argv IH]; intros acc fuel self Hne Hpos Hseg Hnext Hfuel;
    [done|].
  destruct fuel as [|fuel]; [cbn in Hfuel; lia|].
  cbn [Parser.arg_list_loop].
  apply seg_cons in Hseg as [(t & Ht & Hty & Hval) Hseg].
  change (length (spell_args (a :: argv)))
    with (1 + (0 + length (match argv with
                           | [] => []
                           | _ :: _ => ("COMMA", ",") :: spell_args argv
                           end)))%nat.
  eapply (steps_bind _ _ _ t).
  { apply (steps_expect _ _ t Ht). rewrite Hty.
    destruct a; [apply list_elem_of_further|]; apply list_elem_of_here. }
  intros s1 Ht1 Hi1.
  eapply (steps_bind _ _ _ a).
  { destruct a as [n|x]; cbn in Hty, Hval.
    - rewrite bool_decide_eq_true_2 by done. rewrite Hval.
      rewrite int_of_str_int by (apply Hpos, list_elem_of_here).
      exists s1. split; [done|]. split; [done|lia].
    - rewrite bool_decide_eq_false_2 by (by rewrite Hty).
      rewrite Hval. apply steps_ret. }
  intros s2 Ht2 Hi2. rewrite Nat.add_0_r in Hi2.
  destruct argv as [|b argv].
  - (* last argument *)
    change (length []) with (0 + 0)%nat.
    eapply (steps_bind _ _ _ None); [|intros; apply steps_ret].
    apply steps_accept_none. rewrite not_elem_of_cons.
    split; [|apply not_elem_of_nil].
    apply Hnext; [congruence|]. cbn. lia.
  - apply seg_cons in Hseg as [(c & Hc & Hcty & _) Hseg].
    change (length (("COMMA", ",") :: spell_args (b :: argv)))
      with (1 + length (spell_args (b :: argv)))%nat.
    eapply (steps_bind _ _ _ (Some c)).
    { apply (steps_accept _ _ c).
      - rewrite Ht2, Ht1, Hi2, Hi1. by rewrite Nat.add_1_r.
      - rewrite Hcty. apply list_elem_of_here. }
    intros s3 Ht3 Hi3. cbn beta iota.
    replace (acc ++ a :: b :: argv) with ((acc ++ [a]) ++ b :: argv)
      by (by rewrite <-app_assoc).
    apply IH.
    + done.
    + intros n Hn. apply Hpos. by apply list_elem_of_further.
    + rewrite Ht3, Ht2, Ht1, Hi3, Hi2, Hi1.
      by replace (Parser.i self + 1 + 1)%nat with (S (S (Parser.i self)))
        by lia.
    + intros s4 Ht4 Hi4. apply Hnext; [congruence|].
      rewrite Hi4, Hi3, Hi2, Hi1. cbn. lia.
    + cbn in *. lia.
Qed.

Lemma steps_eq {A} (m : Parser.M A) self a n n' :
  steps m self a n → n = n' → steps m self a n'.
Proof. by intros H <-. Qed.

Lemma peek_lookup self t :
  Parser.toks self !! Parser.i self = Some t → Parser.peek self 0 = t.
Proof. intros H. unfold Parser.peek. by rewrite Nat.add_0_r, H. Qed.

Lemma seg_peek self self' k p ps :
  seg (Parser.toks self) (Parser.i self) ps → ps !! k = Some p →
  Parser.toks self' = Parser.toks self →
  Parser.i self' = (Parser.i self + k)%nat →
  ∃ t, Parser.toks self' !! Parser.i self' = Some t
       ∧ Parser.peek self' 0 = t ∧ type t = p.1 ∧ value t = p.2.
Proof.
  intros Hseg Hp Ht Hi. destruct (Hseg k p Hp) as (t & Hlook & ? & ?).
  rewrite <-Ht, <-Hi in Hlook. exists t. split; [done|].
  split; [by apply peek_lookup|done].
Qed.

Lemma steps_statement st self :
  writable_stmt st →
  seg (Parser.toks self) (Parser.i self)
    (spell_statement st) →
  steps Parser.statement self st (3 + length (spell_args (args st))).
Proof.
  intros (Hne & _ & Hup & Hpos) Hseg. unfold spell_statement in Hseg.
  pose proof Hseg as Hall.
  apply seg_cons in Hseg as [(d & Hd & Hdty & Hdval) Hseg].
  apply seg_cons in Hseg as [(c & Hc & Hcty & _) Hseg].
  apply seg_cons in Hseg as [(o & Ho & Hoty & Hoval) Hseg].
  apply seg_app in Hseg as [Hargs Hsemi].
  unfold Parser.statement.
  eapply steps_eq.
  - eapply (steps_bind _ _ _ d).
    { apply (steps_expect _ _ d Hd). rewrite Hdty. apply list_elem_of_here. }
    intros s1 Ht1 Hi1.
    eapply (steps_bind _ _ _ c).
    { apply (steps_expect _ _ c); [|rewrite Hcty; apply list_elem_of_here].
      by rewrite Ht1, Hi1, Nat.add_1_r. }
    intros s2 Ht2 Hi2.
    eapply (steps_bind _ _ _ o).
    { apply (steps_expect _ _ o); [|rewrite Hoty; apply list_elem_of_here].
      rewrite Ht2, Ht1, Hi2, Hi1.
      by replace (Parser.i self + 1 + 1)%nat with (S (S (Parser.i self)))
        by lia. }
    intros s3 Ht3 Hi3.
    assert (Parser.toks s3 = Parser.toks self) as Ht by congruence.
    assert (Parser.i s3 = S (S (S (Parser.i self)))) as Hi by lia.
    eapply (steps_bind _ _ _ (args st)).
    { unfold Parser.arg_list. apply steps_get.
      apply (steps_arg_list_loop (args st) []); [done|done|by rewrite Ht, Hi| |].
      - intros s4 Ht4 Hi4.
        destruct (Hsemi 0%nat ("SEMI", ";") eq_refl) as (t & Hlook & Hty & _).
        rewrite <-Ht, <-Ht4 in Hlook.
        replace (S (S (S (Parser.i self))) + length (spell_args (args st)) + 0)%nat
          with (Parser.i s4) in Hlook by lia.
        rewrite (peek_lookup _ _ Hlook), Hty. done.
      - pose proof (spell_args_length (args st)).
        destruct (seg_bound _ _ _ Hargs) as [Hnil|Hb].
        + destruct (args st); [done|discriminate Hnil].
        + rewrite Ht. lia. }
    intros s4 Ht4 Hi4. cbn beta zeta.
    rewrite Hdval, Hoval. cbn [fst snd]. rewrite Hup.
    destruct st. apply steps_ret.
  - lia.
Qed.

Lemma steps_block_loop stmts :
  ∀ acc fuel self,
    Forall writable_stmt stmts →
    seg (Parser.toks self) (Parser.i self)
      (concat (spell_statement <$> stmts) ++ [("RBRACE", "}")]) →
    (length stmts ≤ fuel)%nat →
    steps (Parser.block_loop fuel acc) self (acc ++ stmts)
      (length (concat (spell_statement <$> stmts))).
Proof.
  induction stmts as [|st stmts IH]; intros acc fuel self Hok Hseg Hfuel.
  - destruct (seg_peek self self 0 _ _ Hseg eq_refl eq_refl ltac:(lia))
      as (t & _ & Hpeek & Hty & _).
    rewrite app_nil_r.
    assert (steps (mret acc : Parser.M _) self acc 0) as H by apply steps_ret.
    destruct fuel; cbn [Parser.block_loop]; apply steps_get;
      by rewrite Hpeek, Hty, bool_decide_eq_false_2 by (by intros []).
  - destruct fuel as [|fuel]; [cbn in Hfuel; lia|].
    apply Forall_cons in Hok as [Hst Hok].
    rewrite fmap_cons, concat_cons, <-app_assoc in Hseg.
    apply seg_app in Hseg as [Hhead Hrest].
    destruct (seg_peek self self 0 _ _ Hhead eq_refl eq_refl ltac:(lia))
      as (t & _ & Hpeek & Hty & _).
    cbn [Parser.block_loop]. apply steps_get.
    rewrite Hpeek, Hty, bool_decide_eq_true_2 by done.
    pose proof Hhead as Hsemi. unfold spell_statement in Hsemi.
    rewrite (app_assoc [_; _; _]) in Hsemi. apply seg_app in Hsemi as [_ Hsemi].
    destruct (Hsemi 0%nat _ eq_refl) as (semi & Hlook & Hsty & _).
    eapply steps_eq.
    + eapply (steps_bind _ _ _ st); [by apply steps_statement|].
      intros s1 Ht1 Hi1.
      eapply (steps_bind _ _ _ semi).
      { apply (steps_expect _ _ semi);
          [|rewrite Hsty; apply list_elem_of_here].
        rewrite Ht1, Hi1, <-Hlook. f_equal. rewrite length_app. cbn. lia. }
      intros s2 Ht2 Hi2.
      replace (acc ++ st :: stmts) with ((acc ++ [st]) ++ stmts)
        by (by rewrite <-app_assoc).
      apply IH; [done| |cbn in Hfuel; lia].
      rewrite Ht2, Ht1, Hi2, Hi1.
      replace (Parser.i self + (3 + length (spell_args (args st))) + 1)%nat
        with (Parser.i self + length (spell_statement st))%nat; [done|].
      unfold spell_statement. rewrite !length_app. cbn. lia.
    + rewrite fmap_cons, concat_cons, length_app.
      unfold spell_statement at 2. rewrite !length_app. cbn. lia.
Qed.

Lemma steps_block blk self :
  Forall writable_stmt (statements blk) →
  seg (Parser.toks self) (Parser.i self) (spell_block blk) →
  steps Parser.block self blk (length (spell_block blk)).
Proof.
  intros Hok Hseg. unfold spell_block in *.
  pose proof Hseg as Hall.
  apply seg_cons in Hseg as [(a & Ha & Haty & _) Hseg].
  apply seg_cons in Hseg as [(g & Hg & Hgty & Hgval) Hseg].
  apply seg_cons in Hseg as [(b & Hb & Hbty & _) Hseg].
  apply seg_cons in Hseg as [(c & Hc & Hcty & _) Hseg].
  pose proof Hseg as Hbody. apply seg_app in Hseg as [_ Hclose].
  destruct (Hclose 0%nat _ eq_refl) as (r & Hr & Hrty & _).
  unfold Parser.block.
  eapply steps_eq.
  - eapply (steps_bind _ _ _ a).
    { apply (steps_expect _ _ a Ha). rewrite Haty. apply list_elem_of_here. }
    intros s1 Ht1 Hi1.
    eapply (steps_bind _ _ _ g).
    { apply (steps_expect _ _ g); [|rewrite Hgty; apply list_elem_of_here].
      by rewrite Ht1, Hi1, Nat.add_1_r. }
    intros s2 Ht2 Hi2.
    eapply (steps_bind _ _ _ b).
    { apply (steps_expect _ _ b); [|rewrite Hbty; apply list_elem_of_here].
      rewrite Ht2, Ht1, Hi2, Hi1. rewrite <-Hb. f_equal. lia. }
    intros s3 Ht3 Hi3.
    eapply (steps_bind _ _ _ c).
    { apply (steps_expect _ _ c); [|rewrite Hcty; apply list_elem_of_here].
      rewrite Ht3, Ht2, Ht1, Hi3, Hi2, Hi1. rewrite <-Hc. f_equal. lia. }
    intros s4 Ht4 Hi4.
    assert (Parser.toks s4 = Parser.toks self) as Ht by congruence.
    assert (Parser.i s4 = S (S (S (S (Parser.i self))))) as Hi by lia.
    apply steps_get.
    eapply (steps_bind _ _ _ (statements blk)).
    { apply (steps_block_loop (statements blk) []); [done|by rewrite Ht, Hi|].
      destruct (seg_bound _ _ _ Hbody) as [Hnil|Hbound].
      - by destruct (concat _).
      - rewrite length_app in Hbound. rewrite Ht.
        assert (length (statements blk)
                ≤ length (concat (spell_statement <$> statements blk)))%nat.
        { clear. induction (statements blk) as [|st sts IH]; [done|].
          rewrite fmap_cons, concat_cons, length_app.
          unfold spell_statement at 1. cbn. lia. }
        lia. }
    intros s5 Ht5 Hi5.
    eapply (steps_bind _ _ _ r).
    { apply (steps_expect _ _ r); [|rewrite Hrty; apply list_elem_of_here].
      rewrite Ht5, Ht, Hi5, Hi, <-Hr. f_equal. lia. }
    intros s6 Ht6 Hi6. rewrite Hgval. cbn [snd].
    destruct blk. apply steps_ret.
  - rewrite !length_app. cbn. lia.
Qed.

Lemma steps_parse_loop blks :
  ∀ acc fuel self,
    Forall (λ blk, Forall writable_stmt (statements blk)) blks →
    seg (Parser.toks self) (Parser.i self) (concat (spell_block <$> blks)) →
    (Parser.i self + length (concat (spell_block <$> blks)))%nat
    = length (Parser.toks self) →
    (length blks ≤ fuel)%nat →
    steps (Parser.parse_loop fuel acc) self (acc ++ blks)
      (length (concat (spell_block <$> blks))).
Proof.
  induction blks as [|blk blks IH]; intros acc fuel self Hok Hseg Hend Hfuel.
  - cbn in Hend. rewrite Nat.add_0_r in Hend.
    assert (Parser.peek self 0 = Parser.EOF) as Hpeek.
    { unfold Parser.peek. by rewrite lookup_ge_None_2 by lia. }
    rewrite app_nil_r.
    assert (steps (mret acc : Parser.M _) self acc 0) as H by apply steps_ret.
    destruct fuel; cbn [Parser.parse_loop]; apply steps_get;
      by rewrite Hpeek, bool_decide_eq_false_2 by (by intros []).
  - destruct fuel as [|fuel]; [cbn in Hfuel; lia|].
    apply Forall_cons in Hok as [Hblk Hok].
    rewrite fmap_cons, concat_cons in Hseg, Hend.
    apply seg_app in Hseg as [Hhead Hrest].
    destruct (seg_peek self self 0 _ _ Hhead eq_refl eq_refl ltac:(lia))
      as (t & _ & Hpeek & Hty & _).
    cbn [Parser.parse_loop]. apply steps_get.
    rewrite Hpeek, Hty, bool_decide_eq_true_2 by done.
    eapply steps_eq.
    + eapply (steps_bind _ _ _ blk); [by apply steps_block|].
      intros s1 Ht1 Hi1.
      replace (acc ++ blk :: blks) with ((acc ++ [blk]) ++ blks)
        by (by rewrite <-app_assoc).
      apply IH; [done|by rewrite Ht1, Hi1| |cbn in Hfuel; lia].
      rewrite Ht1, Hi1. rewrite length_app in Hend. lia.
    + by rewrite fmap_cons, concat_cons, length_app.
Qed.

(** X16.  The parser reads back every program the grammar can spell.  For
    a program whose statements have at least one argument, an opcode of
    ASCII characters in upper case, and numbers that are not negative and
    have at most [max_str_digits] digits, any token list with the kinds
    and lexemes of its spelling, whatever the positions, parses to that
    very program. *)
Theorem parse_spelling tokens root :
  writable root →
  (λ t, (type t, value t)) <$> tokens = spell_program root →
  Parser.run tokens = Return root.
Proof.
  intros Hok Hspell. unfold spell_program in Hspell.
  assert (seg tokens 0 (concat (spell_block <$> blocks root))) as Hseg.
  { intros k p Hp. rewrite <-Hspell, list_lookup_fmap in Hp.
    destruct (tokens !! k) as [t|] eqn:Ht; [|done].
    injection Hp as <-. by exists t. }
  assert (length (concat (spell_block <$> blocks root)) = length tokens)
    as Hlen by (by rewrite <-Hspell, length_fmap).
  destruct (steps_parse_loop (blocks root) [] (S (length tokens))
              (Parser.mkState tokens 0)) as (s1 & Hrun & _ & _).
  - rewrite Forall_forall. intros blk Hblk.
    rewrite Forall_forall. intros st Hst. by apply (Hok blk st).
  - done.
  - done.
  - cbn [Parser.toks]. rewrite <-Hlen.
    clear. induction (blocks root) as [|blk blks IH]; [cbn; lia|].
    rewrite fmap_cons, concat_cons, length_app.
    unfold spell_block at 1. cbn. lia.
  - unfold Parser.run, Parser.parse.
    change ((Parser.get ≫= ?k) ?s) with (k s s). cbn [Parser.toks].
    unfold mbind at 2, Parser.M_bind. rewrite Hrun. by destruct root.
Qed.

Lemma parse_spelling_witness :
  (λ t, (type t, value t))
    <$> (lex repr_printable "[start]{ x : SET 5; y : SET 0; y : ADD x; }").1
  = spell_program ex_sum
  ∧ Parser.run
      (lex repr_printable "[start]{ x : SET 5; y : SET 0; y : ADD x; }").1
    = Return ex_sum.
Proof.
  split; [vm_compute; reflexivity|].
  apply parse_spelling; [|vm_compute; reflexivity].
  intros blk st ->%list_elem_of_singleton Hst. cbn in Hst.
  rewrite !elem_of_cons in Hst.
  destruct Hst as [->|[->|[->|Hnil]]]; [..|by apply elem_of_nil in Hnil];
    (split; [done|]; split; [done|]; split; [done|]);
    intros n Hn%list_elem_of_singleton; simplify_eq;
    (split; [lia|]); (eapply Z.lt_le_trans; [|apply small_limit]); lia.
Defined.
